(** * gomaasapi: subnet address accounting and registry of the test
      server, and the devices of the client

    A shallow embedding of [subnetUnreservedIPRanges],
    [subnetReservedIPRanges] and [subnetStatistics] of the test server, of
    its registry of subnets ([NewSubnet], [UpdateSubnet], [subnetsHandler],
    [SetNodeNetworkLink]), and of the devices of the client
    ([getDeviceDeserializationFunc], [readDevices], [device_2_0],
    [CreatePhysicalInterface]).

    Conventions.
    - Go's [uint64] and [uint] (64 bits wide, as on amd64) are [Z] with
      the wrap-around written out ([wrap64]).
    - A slice of [IP] is a reference into a store of backing arrays
      ([heap]); [make], [copy] and [sort.Sort] act on that store, so that
      what a call does to the caller's slice can be stated.
    - A run-time panic is an [outcome] of its own; the store is returned
      in both cases.
    - A Go map is a [gmap], or the list of its entries where it is read by
      key only. *)

From Stdlib Require Import ZArith QArith Ascii String.
From stdpp Require Import base list strings lexico sorting gmap.

Local Open Scope string_scope.
Local Open Scope list_scope.
Local Open Scope Z_scope.

(** ** Machine integers *)

Definition wrap64 (z : Z) : Z := z mod 2 ^ 64.
Definition wrap32 (z : Z) : Z := z mod 2 ^ 32.

(** [^x] on uint64. *)
Definition not64 (z : Z) : Z := wrap64 (Z.lnot z).
(** [x << k] on uint64. *)
Definition shl64 (z k : Z) : Z := wrap64 (Z.shiftl z k).

(** ** Outcomes and the store *)

Inductive outcome (A : Type) : Type :=
| Ok (a : A)
| Panic (msg : string).
Arguments Ok {A} a.
Arguments Panic {A} msg.

(** ** Addresses *)

(** Modelled from the spec: the type [IP] and its methods [UInt64],
    [SetUInt64], [String] and the constructor [IPFromNetIP] are not among
    the sources.  The spec (data model) gives an address value as the
    unsigned 32-bit integer of an IPv4 address, ordered by that integer,
    with a dotted-decimal text form; [IP] is therefore a value, and
    [SetUInt64] stores the low 32 bits. *)
Record IP : Type := mkIP { ipval : Z }.

#[global] Instance IP_eq_dec : EqDecision IP.
Proof. solve_decision. Defined.

(** The zero value of [IP] ([var ip IP]). *)
Definition zeroIP : IP := mkIP 0.

Definition IP_UInt64 (ip : IP) : Z := ipval ip.
Definition IP_SetUInt64 (ip : IP) (v : Z) : IP := mkIP (wrap32 v).

Definition digit_char (d : Z) : ascii := ascii_of_N (Z.to_N (48 + d)).

Fixpoint utoa_fuel (fuel : nat) (n : Z) (acc : string) : string :=
  match fuel with
  | O => acc
  | S f =>
      let acc' := String (digit_char (n mod 10)) acc in
      if n <? 10 then acc' else utoa_fuel f (n / 10) acc'
  end.

(** Decimal text of a number below [10^20]. *)
Definition utoa (n : Z) : string := utoa_fuel 20 n "".

Definition octet (v : Z) (k : Z) : Z := Z.land (Z.shiftr v (8 * k)) 255.

Definition IP_String (ip : IP) : string :=
  let v := ipval ip in
  utoa (octet v 3) +:+ "." +:+ utoa (octet v 2) +:+ "." +:+
  utoa (octet v 1) +:+ "." +:+ utoa (octet v 0).

(** ** [net.ParseCIDR], for IPv4 text [a.b.c.d/n] *)

Definition digit_val (c : ascii) : option Z :=
  let n := Z.of_N (N_of_ascii c) in
  if (48 <=? n) && (n <=? 57) then Some (n - 48) else None.

Fixpoint dtoi_from (acc : Z) (s : string) : option Z :=
  match s with
  | EmptyString => Some acc
  | String c s' =>
      match digit_val c with
      | Some d => dtoi_from (10 * acc + d) s'
      | None => None
      end
  end.

(** A non-empty string of decimal digits, at most [bound]. *)
Definition dtoi (bound : Z) (s : string) : option Z :=
  match s with
  | EmptyString => None
  | _ =>
      match dtoi_from 0 s with
      | Some n => if n <=? bound then Some n else None
      | None => None
      end
  end.

(** The text before the first [sep], and the text after it (if any). *)
Fixpoint cut (sep : ascii) (s : string) : string * option string :=
  match s with
  | EmptyString => (EmptyString, None)
  | String c s' =>
      if Ascii.eqb c sep then (EmptyString, Some s')
      else let '(a, b) := cut sep s' in (String c a, b)
  end.

Definition parseIPv4 (s : string) : option Z :=
  let '(a, r1) := cut "." s in
  match r1 with
  | None => None
  | Some r1 =>
    let '(b, r2) := cut "." r1 in
    match r2 with
    | None => None
    | Some r2 =>
      let '(c, r3) := cut "." r2 in
      match r3 with
      | None => None
      | Some d =>
        match dtoi 255 a, dtoi 255 b, dtoi 255 c, dtoi 255 d with
        | Some a, Some b, Some c, Some d =>
            Some (((a * 256 + b) * 256 + c) * 256 + d)
        | _, _, _, _ => None
        end
      end
    end
  end.

(** [net.IPNet]: the network address and the mask, the mask kept as what
    [Mask.Size()] returns. *)
Record IPNet : Type := mkIPNet {
  IPNet_IP : IP;
  Mask_ones : Z;
  Mask_bits : Z
}.

Definition ParseCIDR (s : string) : option IPNet :=
  let '(addr, rest) := cut "/" s in
  match rest with
  | None => None
  | Some mask =>
      match parseIPv4 addr, dtoi 32 mask with
      | Some ip, Some n =>
          Some (mkIPNet (mkIP (Z.land ip (2 ^ 32 - 2 ^ (32 - n)))) n 32)
      | _, _ => None
      end
  end.

Definition IPFromNetIP (ip : IP) : IP := ip.

(** ** The store of backing arrays, and the monad of the test server *)

(** A slice of [IP] is the index of its backing array in the store.  (A
    nil slice is a cell holding the empty array: [len], [copy] and [range]
    do not tell them apart.) *)
Abbreviation slice := nat.
Abbreviation heap := (list (list IP)).

Definition M (A : Type) : Type := heap → outcome A * heap.

#[global] Instance M_ret : MRet M := λ A a h, (Ok a, h).
#[global] Instance M_bind : MBind M := λ A B f m h,
  match m h with
  | (Ok a, h') => f a h'
  | (Panic msg, h') => (Panic msg, h')
  end.

Definition panic {A} (msg : string) : M A := λ h, (Panic msg, h).

(** The contents of a slice. *)
Definition deref (h : heap) (s : slice) : list IP := default [] (h !! s).

Definition go_read (s : slice) : M (list IP) := λ h, (Ok (deref h s), h).
Definition go_len (s : slice) : M nat := λ h, (Ok (length (deref h s)), h).

(** [make([]IP, n)]: a fresh array of [n] zero values. *)
Definition go_make (n : nat) : M slice :=
  λ h, (Ok (length h), h ++ [replicate n zeroIP]).

(** [copy(dst, src)]: the first [min(len(dst), len(src))] elements. *)
Definition go_copy (dst src : slice) : M nat := λ h,
  let n := Nat.min (length (deref h dst)) (length (deref h src)) in
  (Ok n, <[dst := take n (deref h src) ++ drop n (deref h dst)]> h).

(** [checkError]: panics on an error. *)
Definition checkError {A} (r : option A) (msg : string) : M A :=
  match r with
  | Some a => mret a
  | None => panic msg
  end.

(** *** [addressList] and [sort.Sort] *)

Definition addressList_Less (x y : IP) : bool := IP_UInt64 x <? IP_UInt64 y.

Fixpoint sort_insert (x : IP) (l : list IP) : list IP :=
  match l with
  | [] => [x]
  | y :: l' => if addressList_Less y x then y :: sort_insert x l' else x :: l
  end.

Fixpoint sort_list (l : list IP) : list IP :=
  match l with
  | [] => []
  | x :: l' => sort_insert x (sort_list l')
  end.

(** [sort.Sort(addressList(a))] sorts the array in place, by [Less].  An
    [IP] being its integer, the sorted array is the same for every
    comparison sort; insertion sort stands for the library's. *)
Definition sort_Sort (a : slice) : M unit :=
  λ h, (Ok (), <[a := sort_list (deref h a)]> h).

(** ** Subnets and address ranges *)

Record Subnet : Type := mkSubnet {
  CIDR : string;
  InUseIPAddresses : slice
}.

Record AddressRange : Type := mkAddressRange {
  Start : string;
  startUint : Z;
  End_ : string;
  endUint : Z;
  Purpose : list string;
  NumAddresses : Z
}.

#[global] Instance AddressRange_eq_dec : EqDecision AddressRange.
Proof. solve_decision. Defined.

(** The three assignments to [i] before each [append], with the value of
    [i.Purpose] (never assigned: nil). *)
Definition mkRange (startIP endIP : IP) : AddressRange :=
  {| Start := IP_String startIP;
     startUint := IP_UInt64 startIP;
     End_ := IP_String endIP;
     endUint := IP_UInt64 endIP;
     Purpose := [];
     NumAddresses := wrap64 (wrap64 (1 + IP_UInt64 endIP) - IP_UInt64 startIP) |}.

(** *** subnetUnreservedIPRanges *)

(** One iteration of the loop over the sorted addresses: the state is
    [startIP] and [ranges]. *)
Definition unreserved_step (lastUsableIP : IP)
    (st : IP * list AddressRange) (endIP : IP) : IP * list AddressRange :=
  let '(startIP, ranges) := st in
  let end_ := IP_UInt64 endIP in
  if IP_UInt64 endIP =? IP_UInt64 startIP then
    if negb (IP_UInt64 endIP =? IP_UInt64 lastUsableIP)
    then (IP_SetUInt64 startIP (wrap64 (end_ + 1)), ranges)
    else (startIP, ranges)
  else if end_ =? IP_UInt64 lastUsableIP then (startIP, ranges)
  else
    let endIP := IP_SetUInt64 endIP (wrap64 (end_ - 1)) in
    (IP_SetUInt64 startIP (wrap64 (end_ + 1)),
     ranges ++ [mkRange startIP endIP]).

(** The first usable address: one above the network address. *)
Definition firstUsable (ipNet : IPNet) : IP :=
  let startIP := IPFromNetIP (IPNet_IP ipNet) in
  IP_SetUInt64 startIP (wrap64 (IP_UInt64 startIP + 1)).

(** The last usable address: one below the broadcast address. *)
Definition lastUsable (ipNet : IPNet) : IP :=
  let set := not64 (shl64 (not64 0) (Mask_bits ipNet - Mask_ones ipNet)) in
  IP_SetUInt64 zeroIP (wrap64 (Z.lor (IP_UInt64 (firstUsable ipNet)) set - 1)).

(** The function after the sorted copy is made. *)
Definition unreservedRanges (ipNet : IPNet) (ipAddresses : list IP)
    : list AddressRange :=
  let lastUsableIP := lastUsable ipNet in
  let '(startIP, ranges) :=
    fold_left (unreserved_step lastUsableIP) ipAddresses (firstUsable ipNet, []) in
  if negb (IP_UInt64 startIP =? IP_UInt64 lastUsableIP)
  then ranges ++ [mkRange startIP lastUsableIP]
  else ranges.

(** "Make a sorted copy of subnet.InUseIPAddresses". *)
Definition sortedCopy (subnet : Subnet) : M slice :=
  n ← go_len (InUseIPAddresses subnet);
  ipAddresses ← go_make n;
  _ ← go_copy ipAddresses (InUseIPAddresses subnet);
  _ ← sort_Sort ipAddresses;
  mret ipAddresses.

Definition subnetUnreservedIPRanges (subnet : Subnet) : M (list AddressRange) :=
  ipAddresses ← sortedCopy subnet;
  ipNet ← checkError (ParseCIDR (CIDR subnet)) "invalid CIDR address";
  sorted ← go_read ipAddresses;
  mret (unreservedRanges ipNet sorted).

(** *** subnetReservedIPRanges *)

(** One iteration of the loop over the sorted addresses: the state is
    [ranges], [startIP], [thisIP] (the loop variable, declared outside the
    loop) and [lastIP]. *)
Definition reserved_step (st : list AddressRange * IP * IP * Z) (elem : IP)
    : list AddressRange * IP * IP * Z :=
  let '(ranges, startIP, _, lastIP) := st in
  let thisIP := elem in
  let ip := IP_UInt64 thisIP in
  if negb (ip =? lastIP) && negb (ip =? wrap64 (lastIP + 1)) then
    let thisIP := IP_SetUInt64 thisIP lastIP in
    (ranges ++ [mkRange startIP thisIP], IP_SetUInt64 startIP ip, thisIP, ip)
  else (ranges, startIP, thisIP, ip).

(** The function after the sorted copy is made.  The two indexings,
    [ipAddresses[0]] and [ranges[len(ranges)-1]], panic out of range. *)
Definition reservedRanges (ipAddresses : list IP) : outcome (list AddressRange) :=
  match ipAddresses with
  | [] => Panic "runtime error: index out of range"
  | first :: _ =>
      let '(ranges, startIP, thisIP, lastIP) :=
        fold_left reserved_step ipAddresses ([], first, zeroIP, IP_UInt64 first) in
      match last ranges with
      | None => Panic "runtime error: index out of range"
      | Some r =>
          if negb (endUint r =? lastIP)
          then Ok (ranges ++ [mkRange startIP (IP_SetUInt64 thisIP lastIP)])
          else Ok ranges
      end
  end.

Definition subnetReservedIPRanges (subnet : Subnet) : M (list AddressRange) :=
  ipAddresses ← sortedCopy subnet;
  sorted ← go_read ipAddresses;
  match reservedRanges sorted with
  | Ok ranges => mret ranges
  | Panic msg => panic msg
  end.

(** *** subnetStatistics *)

(** A [float32] that is the quotient of two unsigned integers: the
    quotient is kept as the exact rational (the rounding to a 24-bit
    mantissa is left out), a division by zero gives NaN or +Inf as IEEE 754
    has it. *)
Inductive float32 : Type :=
| F32NaN
| F32Inf
| F32Val (q : Q).

(** [float32(a) / float32(b)], for unsigned [a] and [b]. *)
Definition float32_div (a b : Z) : float32 :=
  if b =? 0 then (if a =? 0 then F32NaN else F32Inf)
  else F32Val (Qmake a (Z.to_pos b)).

(** [SubnetStats]; [UsageString], the text of [Usage] as a percentage, is
    left out with the formatting of floats. *)
Record SubnetStats : Type := mkSubnetStats {
  NumAvailable : Z;
  LargestAvailable : Z;
  NumUnavailable : Z;
  TotalAddresses : Z;
  Usage : float32;
  Ranges : list AddressRange
}.

(** The loop for [stats.LargestAvailable], from its zero value. *)
Definition largestOf (reserved : list AddressRange) : Z :=
  fold_left (λ largest addressRange,
               if NumAddresses addressRange >? largest
               then NumAddresses addressRange else largest) reserved 0.

Definition subnetStatistics (subnet : Subnet) (includeRanges : bool)
    : M SubnetStats :=
  ipNet ← checkError (ParseCIDR (CIDR subnet)) "invalid CIDR address";
  n ← go_len (InUseIPAddresses subnet);
  let total := wrap64 (shl64 1 (Mask_bits ipNet - Mask_ones ipNet) - 2) in
  let unavailable := Z.of_nat n in
  let available := wrap64 (total - unavailable) in
  let usage := float32_div unavailable total in
  reserved ← subnetUnreservedIPRanges subnet;
  mret {| NumAvailable := available;
          LargestAvailable := largestOf reserved;
          NumUnavailable := unavailable;
          TotalAddresses := total;
          Usage := usage;
          Ranges := if includeRanges then reserved else [] |}.

(** ** Running on a subnet given by its CIDR and its addresses in use *)

Definition ip4 (a b c d : Z) : IP := mkIP (((a * 256 + b) * 256 + c) * 256 + d).

(** A server state holding one subnet, its addresses in array 0. *)
Definition oneSubnet (cidr : string) (inUse : list IP) : Subnet * heap :=
  (mkSubnet cidr 0%nat, [inUse]).

Definition run {A} (op : Subnet → M A) (cidr : string) (inUse : list IP)
    : outcome A :=
  let '(subnet, h) := oneSubnet cidr inUse in fst (op subnet h).

(** ** What the specification asks of the range lists *)

(** The address [a] lies in the range [r]. *)
Definition covers (r : AddressRange) (a : Z) : Prop :=
  startUint r <= a <= endUint r.

(** Ranges are well formed, ascending by start and pairwise disjoint. *)
Definition ascending_disjoint (rs : list AddressRange) : Prop :=
  (∀ r, r ∈ rs → startUint r <= endUint r) ∧
  (∀ (i j : nat) r1 r2, rs !! i = Some r1 → rs !! j = Some r2 →
     (i < j)%nat → endUint r1 < startUint r2).

(** The guarantee of the unreserved ranges: within [first, last], an
    address is in some range exactly when it is not in use, and no range
    leaves [first, last]. *)
Definition unreserved_guarantee (first last : Z) (inUse : list Z)
    (rs : list AddressRange) : Prop :=
  ascending_disjoint rs ∧
  (∀ r, r ∈ rs → first <= startUint r ∧ endUint r <= last) ∧
  (∀ a, first <= a <= last → ((∃ r, r ∈ rs ∧ covers r a) ↔ a ∉ inUse)).

(** The guarantee of the reserved ranges: an address is in some range
    exactly when it is in use. *)
Definition reserved_guarantee (inUse : list Z) (rs : list AddressRange) : Prop :=
  ascending_disjoint rs ∧
  (∀ a, (∃ r, r ∈ rs ∧ covers r a) ↔ a ∈ inUse).

(** ** Notions for the proofs *)

(** The integer of an IPv4 address. *)
Definition ipv4 (ip : IP) : Prop := 0 <= ipval ip < 2 ^ 32.

(** Some address strictly between two addresses in use is not in use. *)
Definition has_gap (vals : list Z) : Prop :=
  ∃ a b c, a ∈ vals ∧ c ∈ vals ∧ a < b < c ∧ b ∉ vals.

(** Maximal runs, in order: each range starts where the previous one left
    off after a gap, the first one at [lo]; [hi] is where the next one
    would start. *)
Fixpoint chain (lo : Z) (rs : list AddressRange) (hi : Z) : Prop :=
  match rs with
  | [] => lo = hi
  | r :: rs' =>
      ∃ e next, r = mkRange (mkIP lo) (mkIP e) ∧
                lo <= e ∧ e + 1 < next ∧ chain next rs' hi
  end.

(** Ranges in order inside [lo, hi - 2], at least one address apart. *)
Fixpoint separated (lo : Z) (rs : list AddressRange) (hi : Z) : Prop :=
  match rs with
  | [] => lo <= hi
  | r :: rs' =>
      ∃ b e, r = mkRange (mkIP b) (mkIP e) ∧ lo <= b <= e ∧
             separated (e + 2) rs' hi
  end.

Definition IP_le (x y : IP) : Prop := ipval x <= ipval y.

Definition IP_lt (x y : IP) : Prop := ipval x < ipval y.

(** Running [op] twice in a row on [subnet]: the same outcome both
    times, and every slice the store held before has its contents
    unchanged after each run. *)
Definition repeatable {A} (op : Subnet → M A) (subnet : Subnet) (h : heap)
    : Prop :=
  let first := op subnet h in
  let second := op subnet (snd first) in
  fst second = fst first ∧
  (∀ s : slice, (s < length h)%nat →
     deref (snd first) s = deref h s ∧ deref (snd second) s = deref h s).


(** * The decoder of devices, by controller version *)

Section Dispatch.
(** [version.Number] with its [Compare] and [version.Zero] belong to an
    imported package: they are taken as a decidable type with a
    three-way comparison that is a total order. *)
Context {Number : Type} `{EqDecision Number}.
Variable Compare : Number → Number → Z.
Variable Zero : Number.
(** [deviceDeserializationFunc]. *)
Context {decoder : Type}.

(** [m[k]] on a map given by its entries: the zero value (a nil
    function) when the key is absent. *)
Fixpoint map_index (m : list (Number * decoder)) (k : Number) : option decoder :=
  match m with
  | [] => None
  | (k', f) :: m' => if decide (k' = k) then Some f else map_index m' k
  end.

Inductive selection : Type :=
| Decoder (f : option decoder)
| UnsupportedVersionError (controllerVersion : Number).

(** The body of the loop over the keys. *)
Definition select_step (controllerVersion deserialisationVersion v : Number)
    : Number :=
  if (Compare v deserialisationVersion >? 0) && (Compare v controllerVersion <=? 0)
  then v else deserialisationVersion.

(** [funcs] is the map [deviceDeserializationFuncs], [enum] the order in
    which [range] visits its keys. *)
Definition getDeviceDeserializationFunc (funcs : list (Number * decoder))
    (enum : list Number) (controllerVersion : Number) : selection :=
  let deserialisationVersion :=
    fold_left (select_step controllerVersion) enum Zero in
  if decide (deserialisationVersion = Zero)
  then UnsupportedVersionError controllerVersion
  else Decoder (map_index funcs deserialisationVersion).

End Dispatch.

(** ** The registered table *)

(** [version.Number] of the imported package [github.com/juju/version]:
    major, minor, tag, patch and build. *)
Record Number : Type := mkNumber {
  Major : Z;
  Minor : Z;
  Tag : string;
  Patch : Z;
  Build : Z
}.

#[global] Instance Number_eq_dec : EqDecision Number.
Proof. solve_decision. Defined.

(** [version.Zero]. *)
Definition version_Zero : Number := mkNumber 0 0 "" 0 0.

(** [s < t] on Go strings: byte by byte. *)
Fixpoint string_lt (s t : string) : bool :=
  match s, t with
  | _, EmptyString => false
  | EmptyString, String _ _ => true
  | String a s', String b t' =>
      if (N_of_ascii a <? N_of_ascii b)%N then true
      else if (N_of_ascii a =? N_of_ascii b)%N then string_lt s' t'
      else false
  end.

(** [Number.Compare]: -1, 0 or 1; a number without tag is above the same
    number with one. *)
Definition Number_Compare (v w : Number) : Z :=
  if decide (v = w) then 0 else
  let less :=
    if decide (Major v ≠ Major w) then bool_decide (Major v < Major w)
    else if decide (Minor v ≠ Minor w) then bool_decide (Minor v < Minor w)
    else if decide (Tag v ≠ Tag w) then
      if decide (Tag v = "") then false
      else if decide (Tag w = "") then true
      else string_lt (Tag v) (Tag w)
    else if decide (Patch v ≠ Patch w) then bool_decide (Patch v < Patch w)
    else if decide (Build v ≠ Build w) then bool_decide (Build v < Build w)
    else false in
  if less then -1 else 1.

(** Modelled from the spec: [twoDotOh] is declared outside the sources;
    its name and the decoder registered under it give version 2.0. *)
Definition twoDotOh : Number := mkNumber 2 0 "" 0 0.

(** The decoders by name. *)
Inductive deviceDeserializationFunc : Type :=
| device_2_0.

Definition deviceDeserializationFuncs : list (Number * deviceDeserializationFunc) :=
  [(twoDotOh, device_2_0)].

(** The order of [Compare] as a lexicographic order on a key. *)
Definition string_bytes (s : string) : list N :=
  (fix go s := match s with
               | EmptyString => []
               | String a s' => N_of_ascii a :: go s'
               end) s.

Definition Number_key (v : Number) : Z * (Z * ((bool * list N) * (Z * Z))) :=
  (Major v, (Minor v,
    ((bool_decide (Tag v = ""), string_bytes (Tag v)), (Patch v, Build v)))).

(** * The test server: the registry of subnets and the node metadata *)

(** The struct [TestServer] is declared outside the sources; the fields
    below are the ones the functions here use, with the types their uses
    give them: [subnets] a map from [uint] to [Subnet], [subnetNameToID] a
    map from [string] to [uint], [nextSubnet] a [uint], [nodeMetadata] a map
    from [string] to [Node]; the maps are taken to be initialised (a store
    into a nil map panics).  A value of the interface [VLAN] (declared
    outside the sources as well) is an optional value of a type [V].
    Slices of these structs are lists: the functions here read them, and
    [SetNodeNetworkLink] writes to the one of the node it is called for. *)

Module CreateSubnet.
Record t : Type := mk {
  DNSServers : list string;
  Name : string;
  Space : string;
  GatewayIP : string;
  CIDR : string;
  VLAN : option Z;
  Fabric : option Z;
  VID : option Z;
  ID : Z
}.
End CreateSubnet.

(** The struct [Subnet] in full, as the registry holds it;
    [InUseIPAddresses] by its contents (nil is the empty list).  The range
    functions above read its CIDR and its addresses in use only ([run]). *)
Module ServerSubnet.
Record t (V : Type) : Type := mk {
  DNSServers : list string;
  Name : string;
  Space : string;
  VLAN : option V;
  GatewayIP : string;
  CIDR : string;
  ResourceURI : string;
  ID : Z;
  InUseIPAddresses : list IP
}.
Arguments mk {V}.
Arguments DNSServers {V}.
Arguments Name {V}.
Arguments Space {V}.
Arguments VLAN {V}.
Arguments GatewayIP {V}.
Arguments CIDR {V}.
Arguments ResourceURI {V}.
Arguments ID {V}.
Arguments InUseIPAddresses {V}.

(** The zero value, as a map gives it for a key it does not hold. *)
Definition zero {V : Type} : t V := mk [] "" "" None "" "" "" 0 [].
End ServerSubnet.

(** [NetworkLink]; the pointer [Subnet] by what it points to. *)
Module NetworkLink.
Record t (V : Type) : Type := mk {
  ID : Z;
  Mode : string;
  Subnet : option (ServerSubnet.t V)
}.
Arguments mk {V}.
Arguments ID {V}.
Arguments Mode {V}.
Arguments Subnet {V}.
End NetworkLink.

Module NodeNetworkInterface.
Record t (V : Type) : Type := mk {
  Name : string;
  Links : list (NetworkLink.t V)
}.
Arguments mk {V}.
Arguments Name {V}.
Arguments Links {V}.
End NodeNetworkInterface.

Module Node.
Record t (V : Type) : Type := mk {
  SystemID : string;
  Interfaces : list (NodeNetworkInterface.t V)
}.
Arguments mk {V}.
Arguments SystemID {V}.
Arguments Interfaces {V}.

Definition zero {V : Type} : t V := mk "" [].
End Node.

Record TestServer (V : Type) : Type := mkTestServer {
  version : string;
  subnets : gmap Z (ServerSubnet.t V);
  subnetNameToID : gmap string Z;
  nextSubnet : Z;
  nodeMetadata : gmap string (Node.t V)
}.
Arguments mkTestServer {V}.
Arguments version {V}.
Arguments subnets {V}.
Arguments subnetNameToID {V}.
Arguments nextSubnet {V}.
Arguments nodeMetadata {V}.

Definition getSubnetsEndpoint (version : string) : string :=
  "/api/" +:+ version +:+ "/subnets/".

(** [decodePostedSubnet]: [subnetJSON] is the body by what the JSON decoder
    makes of it, an error ([inl]) or the decoded struct ([inr]);
    [checkError] panics with the error. *)
Definition decodePostedSubnet (subnetJSON : string + CreateSubnet.t)
    : outcome CreateSubnet.t :=
  match subnetJSON with
  | inr postedSubnet => Ok postedSubnet
  | inl err => Panic err
  end.

Definition subnetFromCreateSubnet {V : Type} (postedSubnet : CreateSubnet.t)
    : ServerSubnet.t V :=
  {| ServerSubnet.DNSServers := CreateSubnet.DNSServers postedSubnet;
     ServerSubnet.Name := CreateSubnet.Name postedSubnet;
     ServerSubnet.Space := CreateSubnet.Space postedSubnet;
     ServerSubnet.VLAN := None;
     ServerSubnet.GatewayIP := CreateSubnet.GatewayIP postedSubnet;
     ServerSubnet.CIDR := CreateSubnet.CIDR postedSubnet;
     ServerSubnet.ResourceURI := "";
     ServerSubnet.ID := CreateSubnet.ID postedSubnet;
     ServerSubnet.InUseIPAddresses := [] |}.

(** [newSubnet.ID = ...]. *)
Definition withID {V : Type} (s : ServerSubnet.t V) (id : Z) : ServerSubnet.t V :=
  {| ServerSubnet.DNSServers := ServerSubnet.DNSServers s;
     ServerSubnet.Name := ServerSubnet.Name s;
     ServerSubnet.Space := ServerSubnet.Space s;
     ServerSubnet.VLAN := ServerSubnet.VLAN s;
     ServerSubnet.GatewayIP := ServerSubnet.GatewayIP s;
     ServerSubnet.CIDR := ServerSubnet.CIDR s;
     ServerSubnet.ResourceURI := ServerSubnet.ResourceURI s;
     ServerSubnet.ID := id;
     ServerSubnet.InUseIPAddresses := ServerSubnet.InUseIPAddresses s |}.

(** [UpdateSubnet]: the subnet stored, and the server after the call. *)
Definition UpdateSubnet {V : Type} (server : TestServer V)
    (subnetJSON : string + CreateSubnet.t)
    : outcome (ServerSubnet.t V * TestServer V) :=
  match decodePostedSubnet subnetJSON with
  | Panic msg => Panic msg
  | Ok postedSubnet =>
      let updatedSubnet : ServerSubnet.t V := subnetFromCreateSubnet postedSubnet in
      Ok (updatedSubnet,
          {| version := version server;
             subnets := <[ServerSubnet.ID updatedSubnet := updatedSubnet]>
                          (subnets server);
             subnetNameToID := subnetNameToID server;
             nextSubnet := nextSubnet server;
             nodeMetadata := nodeMetadata server |})
  end.

(** [NewSubnet]: the subnet returned (a copy of the one stored), and the
    server after the call. *)
Definition NewSubnet {V : Type} (server : TestServer V)
    (subnetJSON : string + CreateSubnet.t)
    : outcome (ServerSubnet.t V * TestServer V) :=
  match decodePostedSubnet subnetJSON with
  | Panic msg => Panic msg
  | Ok postedSubnet =>
      let newSubnet : ServerSubnet.t V :=
        withID (subnetFromCreateSubnet postedSubnet) (nextSubnet server) in
      Ok (newSubnet,
          {| version := version server;
             subnets := <[nextSubnet server := newSubnet]> (subnets server);
             subnetNameToID :=
               <[ServerSubnet.Name newSubnet := ServerSubnet.ID newSubnet]>
                 (subnetNameToID server);
             nextSubnet := wrap64 (nextSubnet server + 1);
             nodeMetadata := nodeMetadata server |})
  end.

(** The loop of the handler that collects the subnets to list:
    [for i := uint(1); i < server.nextSubnet; i++]. *)
Definition listSubnets {V : Type} (server : TestServer V)
    : list (ServerSubnet.t V) :=
  fold_left (λ listed i,
               match subnets server !! i with
               | Some s => listed ++ [s]
               | None => listed
               end)
            (seqZ 1 (nextSubnet server - 1)) [].

(** [SetNodeNetworkLink]: [stored] is [server.nodeMetadata[node.SystemID]],
    the zero [Node] for a system ID that is not a key.  In the loop the
    assignment goes through the slice of the stored node, at the first
    interface of that name; after the loop the node with one more interface
    is stored. *)
Definition SetNodeNetworkLink {V : Type} (server : TestServer V)
    (node : Node.t V) (nodeNetworkInterface : NodeNetworkInterface.t V)
    : TestServer V :=
  let stored := default Node.zero (nodeMetadata server !! Node.SystemID node) in
  let nodeMetadata' :=
    match list_find (λ ni, NodeNetworkInterface.Name ni
                            = NodeNetworkInterface.Name nodeNetworkInterface)
                    (Node.Interfaces stored) with
    | Some (i, _) =>
        <[Node.SystemID node :=
            Node.mk (Node.SystemID stored)
              (<[i := nodeNetworkInterface]> (Node.Interfaces stored))]>
          (nodeMetadata server)
    | None =>
        <[Node.SystemID node :=
            Node.mk (Node.SystemID stored)
              (Node.Interfaces stored ++ [nodeNetworkInterface])]>
          (nodeMetadata server)
    end in
  {| version := version server;
     subnets := subnets server;
     subnetNameToID := subnetNameToID server;
     nextSubnet := nextSubnet server;
     nodeMetadata := nodeMetadata' |}.

(** *** The handler of [/api/<version>/subnets/] *)

(** [subnetsURLRE.FindStringSubmatch(path)[1]] for the regular expression
    [/subnets/(.+?)/]: at the leftmost place where the path reads
    [/subnets/], then one character, then the fewest further characters up
    to a [/], the group is what stands between; [.] does not match a line
    feed.  [None] is the nil result of no match. *)
Definition line_feed : ascii := ascii_of_N 10.

Fixpoint lazy_group (s : string) : option string :=
  match s with
  | EmptyString => None
  | String c s' =>
      if decide (c = "/"%char) then Some EmptyString
      else if decide (c = line_feed) then None
      else String c <$> lazy_group s'
  end.

Fixpoint strip_prefix (p s : string) : option string :=
  match p, s with
  | EmptyString, _ => Some s
  | String a p', String b s' => if decide (a = b) then strip_prefix p' s' else None
  | String _ _, EmptyString => None
  end.

Definition match_here (s : string) : option string :=
  match strip_prefix "/subnets/" s with
  | Some (String c rest) =>
      if decide (c = line_feed) then None else String c <$> lazy_group rest
  | _ => None
  end.

Fixpoint subnetsURLRE_FindStringSubmatch (path : string) : option string :=
  match match_here path with
  | Some group => Some group
  | None =>
      match path with
      | EmptyString => None
      | String _ path' => subnetsURLRE_FindStringSubmatch path'
      end
  end.

(** What the handler reads of the request: the method, the path, the
    query by what [url.ParseQuery] makes of it (an error, or the values)
    and the body by what the JSON decoder makes of it. *)
Module Request.
Record t : Type := mk {
  Method : string;
  Path : string;
  RawQuery : string + list (string * string);
  Body : string + CreateSubnet.t
}.
End Request.

(** [values.Get(key)]: the first value of the key, the empty string if
    there is none. *)
Fixpoint Values_Get (values : list (string * string)) (key : string) : string :=
  match values with
  | [] => ""
  | (k, v) :: values' => if decide (k = key) then v else Values_Get values' key
  end.

(** [strings.ToLower], on ASCII letters. *)
Definition lower_ascii (c : ascii) : ascii :=
  let n := N_of_ascii c in
  if ((65 <=? n) && (n <=? 90))%N then ascii_of_N (n + 32) else c.

Fixpoint ToLower (s : string) : string :=
  match s with
  | EmptyString => EmptyString
  | String c s' => String (lower_ascii c) (ToLower s')
  end.

(** The values the handler encodes. *)
Inductive Encoded (V : Type) : Type :=
| OfSubnets (l : list (ServerSubnet.t V))
| OfRanges (l : list AddressRange)
| OfStatistics (s : SubnetStats)
| OfSubnet (s : ServerSubnet.t V).
Arguments OfSubnets {V}.
Arguments OfRanges {V}.
Arguments OfStatistics {V}.
Arguments OfSubnet {V}.

(** What the handler does to the response writer [w], call by call. *)
Inductive call (V : Type) : Type :=
| Header_Set (key value : string)
| NotFoundHandler_ServeHTTP
| WriteHeader (statusCode : Z)
| Encoder_Encode (v : Encoded V).
Arguments Header_Set {V}.
Arguments NotFoundHandler_ServeHTTP {V}.
Arguments WriteHeader {V}.
Arguments Encoder_Encode {V}.

(** [json.NewEncoder(w).Encode(v)]: the encoder writes nothing and gives
    an error for a float that is NaN or infinite.  (A [VLAN] value is taken
    to be one the encoder accepts.) *)
Definition json_Encode {V : Type} (v : Encoded V) : string + call V :=
  match v with
  | OfStatistics s =>
      match Usage s with
      | F32Val _ => inr (Encoder_Encode v)
      | F32NaN => inl "json: unsupported value: NaN"
      | F32Inf => inl "json: unsupported value: +Inf"
      end
  | _ => inr (Encoder_Encode v)
  end.

(** [server.subnets[ID]]: the zero value for an ID that is not a key. *)
Definition subnets_index {V : Type} (server : TestServer V) (ID : Z)
    : ServerSubnet.t V :=
  default ServerSubnet.zero (subnets server !! ID).

(** The handler: the calls made on [w], in order, and the server after the
    request; on a panic neither is kept.  [NameOrIDToID] is declared outside
    the sources: it is taken as a function giving an ID or an error.  The
    range functions are run on the CIDR and the addresses in use of the
    subnet ([run]). *)
Definition subnetsHandler {V : Type}
    (NameOrIDToID : string → gmap string Z → Z → Z → option Z)
    (server : TestServer V) (r : Request.t)
    : outcome (list (call V) * TestServer V) :=
  match Request.RawQuery r with
  | inl err => Panic err
  | inr values =>
    let op := Values_Get values "op" in
    let includeRangesString := ToLower (Values_Get values "include_ranges") in
    let subnetsURLMatch := subnetsURLRE_FindStringSubmatch (Request.Path r) in
    let subnetsURL := getSubnetsEndpoint (version server) in
    let lookup : option (Z * bool) :=
      match subnetsURLMatch with
      | Some group =>
          match NameOrIDToID group (subnetNameToID server) 1
                  (Z.of_nat (size (subnets server))) with
          | Some ID => Some (ID, true)
          | None => None
          end
      | None => Some (0, false)
      end in
    match lookup with
    | None => Ok ([NotFoundHandler_ServeHTTP], server)
    | Some (ID, gotID) =>
      let includeRanges :=
        bool_decide (includeRangesString = "true")
        || bool_decide (includeRangesString = "yes")
        || bool_decide (includeRangesString = "1") in
      if decide (Request.Method r = "GET") then
        let header := Header_Set "Content-Type" "application/vnd.api+json" in
        let checked (err : string + call V) :=
          match err with
          | inr written => Ok ([header; written], server)
          | inl msg => Panic msg
          end in
        if decide (size (subnets server) = 0%nat)
        then Ok ([header; NotFoundHandler_ServeHTTP], server)
        else if decide (Request.Path r = subnetsURL) then
          checked (json_Encode (OfSubnets (listSubnets server)))
        else if negb gotID then Ok ([header; WriteHeader 400], server)
        else
          let subnet := subnets_index server ID in
          if decide (op = "unreserved_ip_ranges") then
            match run subnetUnreservedIPRanges (ServerSubnet.CIDR subnet)
                    (ServerSubnet.InUseIPAddresses subnet) with
            | Ok ranges => checked (json_Encode (OfRanges ranges))
            | Panic msg => Panic msg
            end
          else if decide (op = "reserved_ip_ranges") then
            match run subnetReservedIPRanges (ServerSubnet.CIDR subnet)
                    (ServerSubnet.InUseIPAddresses subnet) with
            | Ok ranges => checked (json_Encode (OfRanges ranges))
            | Panic msg => Panic msg
            end
          else if decide (op = "statistics") then
            match run (λ s, subnetStatistics s includeRanges)
                    (ServerSubnet.CIDR subnet)
                    (ServerSubnet.InUseIPAddresses subnet) with
            | Ok stats => checked (json_Encode (OfStatistics stats))
            | Panic msg => Panic msg
            end
          else checked (json_Encode (OfSubnet subnet))
      else if decide (Request.Method r = "POST") then
        match NewSubnet server (Request.Body r) with
        | Ok (_, server') => Ok ([], server')
        | Panic msg => Panic msg
        end
      else if decide (Request.Method r = "PUT") then
        match UpdateSubnet server (Request.Body r) with
        | Ok (_, server') => Ok ([], server')
        | Panic msg => Panic msg
        end
      else if decide (Request.Method r = "DELETE") then
        Ok ([WriteHeader 200],
            {| version := version server;
               subnets := delete ID (subnets server);
               subnetNameToID := subnetNameToID server;
               nextSubnet := nextSubnet server;
               nodeMetadata := nodeMetadata server |})
      else Ok ([WriteHeader 400], server)
    end
  end.

(** ** Notions for the registry *)

(** Every subnet of the registry is stored under its own ID. *)
Definition stored_under_own_ID {V : Type} (server : TestServer V) : Prop :=
  ∀ i s, subnets server !! i = Some s → ServerSubnet.ID s = i.

(** The names of the interfaces of a node, in order. *)
Definition interface_names {V : Type} (n : Node.t V) : list string :=
  NodeNetworkInterface.Name <$> Node.Interfaces n.

(** [server.nodeMetadata[systemID]]. *)
Definition nodeMetadata_index {V : Type} (server : TestServer V)
    (systemID : string) : Node.t V :=
  default Node.zero (nodeMetadata server !! systemID).

(** * The client: devices *)

(** ** Values decoded from JSON *)

(** An [interface{}] holding what the JSON decoder produces: nil, a bool,
    a number, a string, a [[]interface{}] or a [map[string]interface{}] (a
    map by its entries, [m[k]] being the first entry of key [k]). *)
#[local] Set Warnings "-register-all".
Inductive value : Type :=
| VNil
| VBool (b : bool)
| VNumber (x : Q)
| VString (s : string)
| VList (l : list value)
| VMap (m : list (string * value)).

(** [m[k]], with the nil of an absent key. *)
Fixpoint value_index (m : list (string * value)) (k : string) : value :=
  match m with
  | [] => VNil
  | (k', v) :: m' => if decide (k' = k) then v else value_index m' k
  end.

Definition is_VString (v : value) : bool :=
  match v with
  | VString _ => true
  | _ => false
  end.

Definition is_VMap (v : value) : bool :=
  match v with
  | VMap _ => true
  | _ => false
  end.

(** *** The checkers of [github.com/juju/schema] *)

(** The checkers the sources build, of the imported package
    [github.com/juju/schema]: [Any] accepts every value, [String] a string,
    [List] a list whose elements the inner checker accepts, [StringMap] a
    map whose values the inner checker accepts, [FieldMap] (without
    defaults) a map that has, for each field, a value the field's checker
    accepts; the map it gives has these fields only.  [None] is the error
    of the package, its text left out. *)
Inductive Checker : Type :=
| schema_Any
| schema_String
| schema_List (elem : Checker)
| schema_StringMap (elem : Checker)
| schema_FieldMap (fields : list (string * Checker)).

Fixpoint Coerce (c : Checker) (v : value) {struct c} : option value :=
  match c with
  | schema_Any => Some v
  | schema_String =>
      match v with
      | VString _ => Some v
      | _ => None
      end
  | schema_List elem =>
      match v with
      | VList l => VList <$> mapM (Coerce elem) l
      | _ => None
      end
  | schema_StringMap elem =>
      match v with
      | VMap m =>
          VMap <$> mapM (λ kv : string * value,
                           pair kv.1 <$> Coerce elem kv.2) m
      | _ => None
      end
  | schema_FieldMap fields =>
      match v with
      | VMap m =>
          VMap <$>
            (fix go (fields : list (string * Checker)) :=
               match fields with
               | [] => Some []
               | (k, checker) :: fields' =>
                   match Coerce checker (value_index m k), go fields' with
                   | Some newv, Some out => Some ((k, newv) :: out)
                   | _, _ => None
                   end
               end) fields
      | _ => None
      end
  end.

(** ** Strings *)

(** [strings.Replace(s, old, new, 1)] for a non-empty [old]: the first
    occurrence of [old], from the left, is replaced. *)
Fixpoint strings_Replace_1 (s old new : string) : string :=
  match strip_prefix old s with
  | Some rest => new +:+ rest
  | None =>
      match s with
      | EmptyString => EmptyString
      | String c s' => String c (strings_Replace_1 s' old new)
      end
  end.

(** [strings.Join]. *)
Fixpoint strings_Join (elems : list string) (sep : string) : string :=
  match elems with
  | [] => ""
  | [e] => e
  | e :: elems' => e +:+ sep +:+ strings_Join elems' sep
  end.

(** [fmt.Sprint] of an [int]. *)
Definition Sprint_int (n : Z) : string :=
  if n <? 0 then "-" +:+ utoa (- n) else utoa n.

(** [url.Values], by its entries in the order they were added;
    [Values_Get] reads it. *)
Definition Values_Add (key value : string) (v : list (string * string))
    : list (string * string) :=
  v ++ [(key, value)].

(** ** Devices *)

Section Client.
(** Declared outside the sources, and taken as given: the types behind
    [VLAN], [Interface] and [*zone], the result of a request, the errors
    made outside ([E]); the method [ID] of a VLAN; the methods [MaybeAdd],
    [MaybeAddInt] and [MaybeAddBool] of the URL parameters;
    [readInterface], [zone_2_0] and [convertToStringSlice]; and
    [errors.Cause(err).(ServerError)], which gives the status code and the
    body message when the cause of [err] is a [ServerError].  A call that
    returns a value and an error is a sum, the error on the left. *)
Context {VLAN Interface zone Result E : Type}.
Variable VLAN_ID : VLAN → Z.
Variable MaybeAdd : string → string → list (string * string) → list (string * string).
Variable MaybeAddInt : string → Z → list (string * string) → list (string * string).
Variable MaybeAddBool : string → bool → list (string * string) → list (string * string).
Variable readInterface : Number → Result → E + Interface.
Variable zone_2_0 : list (string * value) → E + zone.
Variable convertToStringSlice : value → list string.
Variable Cause_ServerError : E → option (Z * string).

(** The errors, by the calls that make them. *)
Inductive error : Type :=
| External (e : E)
| schema_error
| NotValidf (format : string)
| Trace (err : error)
| Wrap (other newDescriptive : error)
| Annotatef (err : error) (format : string) (arg : nat)
| NewBadRequestError (message : string)
| NewPermissionError (message : string)
| NewCannotCompleteError (message : string)
| NewUnexpectedError (err : error)
| NewUnsupportedVersionError (format : string) (controllerVersion : Number)
| NewDeserializationError (format : string) (i : nat) (v : value)
| WrapWithDeserializationError (err : error) (format : string).

(** The controller, by what the device asks of it: its version, and the
    answer to [post]. *)
Record controller : Type := mkController {
  apiVersion : Number;
  post : string → string → list (string * string) → E + Result
}.

(** The struct [device]; the pointer [controller] may be nil. *)
Record device : Type := mkDevice {
  device_controller : option controller;
  resourceURI : string;
  systemID : string;
  hostname : string;
  fqdn : string;
  ipAddresses : list string;
  device_zone : zone
}.

(** The struct [CreatePhysicalInterfaceArgs]; the interface [VLAN] may be
    nil. *)
Record CreatePhysicalInterfaceArgs : Type := mkCreatePhysicalInterfaceArgs {
  args_Name : string;
  args_MACAddress : string;
  args_VLAN : option VLAN;
  args_Tags : list string;
  args_MTU : Z;
  args_AcceptRA : bool;
  args_Autoconf : bool
}.

(** [Validate]: [None] is the nil error. *)
Definition Validate (a : CreatePhysicalInterfaceArgs) : option error :=
  if decide (args_Name a = "") then Some (NotValidf "missing Name")
  else if decide (args_MACAddress a = "") then Some (NotValidf "missing MACAddress")
  else if args_VLAN a is None then Some (NotValidf "missing VLAN")
  else None.

Definition interfacesURI (d : device) : string :=
  strings_Replace_1 (resourceURI d) "devices" "nodes" +:+ "interfaces/".

(** A call of [controller.post]. *)
Record post_call : Type := Post {
  call_uri : string;
  call_operation : string;
  call_params : list (string * string)
}.

(** [CreatePhysicalInterface]: the requests made, and the pair returned.
    The method [ID] of a nil VLAN panics; for a device without controller,
    [post] is called on the nil pointer and panics. *)
Definition CreatePhysicalInterface (d : device) (args : CreatePhysicalInterfaceArgs)
    : outcome (list post_call * (option Interface * option error)) :=
  match Validate args with
  | Some err => Ok ([], (None, Some (Trace err)))
  | None =>
    match args_VLAN args, device_controller d with
    | None, _ => Panic "invalid memory address or nil pointer dereference"
    | _, None => Panic "invalid memory address or nil pointer dereference"
    | Some vlan, Some c =>
      let params := [] in
      let params := Values_Add "name" (args_Name args) params in
      let params := Values_Add "mac_address" (args_MACAddress args) params in
      let params := Values_Add "vlan" (Sprint_int (VLAN_ID vlan)) params in
      let params := MaybeAdd "tags" (strings_Join (args_Tags args) ",") params in
      let params := MaybeAddInt "mtu" (args_MTU args) params in
      let params := MaybeAddBool "accept_ra" (args_AcceptRA args) params in
      let params := MaybeAddBool "autoconf" (args_Autoconf args) params in
      let sent := [Post (interfacesURI d) "create_physical" params] in
      match post c (interfacesURI d) "create_physical" params with
      | inl e =>
          let err := External e in
          let returned :=
            match Cause_ServerError e with
            | Some (StatusCode, BodyMessage) =>
                if decide (StatusCode = 404 ∨ StatusCode = 409)
                then Wrap err (NewBadRequestError BodyMessage)
                else if decide (StatusCode = 403)
                then Wrap err (NewPermissionError BodyMessage)
                else if decide (StatusCode = 503)
                then Wrap err (NewCannotCompleteError BodyMessage)
                else NewUnexpectedError err
            | None => NewUnexpectedError err
            end in
          Ok (sent, (None, Some returned))
      | inr result =>
          match readInterface (apiVersion c) result with
          | inl e => Ok (sent, (None, Some (Trace (External e))))
          | inr iface => Ok (sent, (Some iface, None))
          end
      end
    end
  end.

(** [deviceDeserializationFunc]: a function value, nil ([None]) or not; a
    call of nil panics. *)
Definition deserializationFunc : Type :=
  option (list (string * value) → outcome (error + device)).

Definition call_func (readFunc : deserializationFunc)
    (source : list (string * value)) : outcome (error + device) :=
  match readFunc with
  | Some f => f source
  | None => Panic "invalid memory address or nil pointer dereference"
  end.

(** [readDeviceList]: the loop from index [i] on, with [result] so far. *)
Fixpoint readDeviceList_from (i : nat) (sourceList : list value)
    (readFunc : deserializationFunc) (result : list device)
    : outcome (error + list device) :=
  match sourceList with
  | [] => Ok (inr result)
  | value :: sourceList' =>
      match value with
      | VMap source =>
          match call_func readFunc source with
          | Panic msg => Panic msg
          | Ok (inl err) => Ok (inl (Annotatef err "device %d" i))
          | Ok (inr device) =>
              readDeviceList_from (S i) sourceList' readFunc (result ++ [device])
          end
      | _ => Ok (inl (NewDeserializationError
                        "unexpected value for device %d, %T" i value))
      end
  end.

Definition readDeviceList (sourceList : list value)
    (readFunc : deserializationFunc) : outcome (error + list device) :=
  readDeviceList_from 0 sourceList readFunc [].

(** The type assertions [v.(string)], [v.(map[string]interface{})] and
    [v.([]interface{})], which panic on another type. *)
Definition assert_string (v : value) : outcome string :=
  match v with
  | VString s => Ok s
  | _ => Panic "interface conversion: interface {} is not string"
  end.

Definition assert_map (v : value) : outcome (list (string * value)) :=
  match v with
  | VMap m => Ok m
  | _ => Panic "interface conversion: interface {} is not map[string]interface {}"
  end.

Definition assert_list (v : value) : outcome (list value) :=
  match v with
  | VList l => Ok l
  | _ => Panic "interface conversion: interface {} is not []interface {}"
  end.

(** Sequencing of calls that may panic. *)
Definition and_then {A B : Type} (o : outcome A) (f : A → outcome B) : outcome B :=
  match o with
  | Ok a => f a
  | Panic msg => Panic msg
  end.

(** The function [device_2_0] (the name is taken by the entry of the
    table). *)
Definition device_2_0_fields : list (string * Checker) :=
  [("resource_uri", schema_String);
   ("system_id", schema_String);
   ("hostname", schema_String);
   ("fqdn", schema_String);
   ("ip_addresses", schema_List schema_String);
   ("zone", schema_StringMap schema_Any)].

Definition read_device_2_0 (source : list (string * value))
    : outcome (error + device) :=
  let checker := schema_FieldMap device_2_0_fields in
  match Coerce checker (VMap source) with
  | None => Ok (inl (WrapWithDeserializationError schema_error
                       "device 2.0 schema check failed"))
  | Some coerced =>
      and_then (assert_map coerced) (λ valid,
      and_then (assert_map (value_index valid "zone")) (λ zoneSource,
      match zone_2_0 zoneSource with
      | inl e => Ok (inl (Trace (External e)))
      | inr zone' =>
          and_then (assert_string (value_index valid "resource_uri")) (λ uri,
          and_then (assert_string (value_index valid "system_id")) (λ id,
          and_then (assert_string (value_index valid "hostname")) (λ host,
          and_then (assert_string (value_index valid "fqdn")) (λ name,
          Ok (inr {| device_controller := None;
                     resourceURI := uri;
                     systemID := id;
                     hostname := host;
                     fqdn := name;
                     ipAddresses :=
                       convertToStringSlice (value_index valid "ip_addresses");
                     device_zone := zone' |})))))
      end))
  end.

(** What [device_2_0] asks of a source, and the device it then gives:
    strings under [resource_uri], [system_id], [hostname] and [fqdn], a list
    of strings under [ip_addresses] and, under [zone], a map that [zone_2_0]
    reads. *)
Definition device_2_0_accepts (source : list (string * value)) (d : device)
    : Prop :=
  ∃ uri id host name addrs zoneSource z,
    value_index source "resource_uri" = VString uri ∧
    value_index source "system_id" = VString id ∧
    value_index source "hostname" = VString host ∧
    value_index source "fqdn" = VString name ∧
    value_index source "ip_addresses" = VList addrs ∧
    forallb is_VString addrs = true ∧
    value_index source "zone" = VMap zoneSource ∧
    zone_2_0 zoneSource = inr z ∧
    d = {| device_controller := None;
           resourceURI := uri;
           systemID := id;
           hostname := host;
           fqdn := name;
           ipAddresses := convertToStringSlice (VList addrs);
           device_zone := z |}.

(** The function behind an entry of [deviceDeserializationFuncs]. *)
Definition func_of (f : option deviceDeserializationFunc) : deserializationFunc :=
  match f with
  | Some device_2_0 => Some read_device_2_0
  | None => None
  end.

(** [readDevice] and [readDevices]; [enum] is the order in which [range]
    visits the keys of the table. *)
Definition selected (enum : list Number) (controllerVersion : Number)
    : error + deserializationFunc :=
  match getDeviceDeserializationFunc Number_Compare version_Zero
          deviceDeserializationFuncs enum controllerVersion with
  | UnsupportedVersionError v =>
      inl (NewUnsupportedVersionError "no device read func for version %s" v)
  | Decoder f => inr (func_of f)
  end.

Definition readDevice (enum : list Number) (controllerVersion : Number)
    (source : value) : outcome (error + device) :=
  match selected enum controllerVersion with
  | inl err => Ok (inl (Trace err))
  | inr readFunc =>
      let checker := schema_StringMap schema_Any in
      match Coerce checker source with
      | None => Ok (inl (WrapWithDeserializationError schema_error
                           "device base schema check failed"))
      | Some coerced =>
          and_then (assert_map coerced) (λ valid, call_func readFunc valid)
      end
  end.

Definition readDevices (enum : list Number) (controllerVersion : Number)
    (source : value) : outcome (error + list device) :=
  match selected enum controllerVersion with
  | inl err => Ok (inl (Trace err))
  | inr readFunc =>
      let checker := schema_List (schema_StringMap schema_Any) in
      match Coerce checker source with
      | None => Ok (inl (WrapWithDeserializationError schema_error
                           "device base schema check failed"))
      | Some coerced =>
          and_then (assert_list coerced) (λ valid, readDeviceList valid readFunc)
      end
  end.

End Client.

(** ** Examples: a server, requests *)

(** For the examples: a [NameOrIDToID] that resolves the registered names
    within the bounds. *)
Definition resolve_name (v : string) (nameToID : gmap string Z)
    (minID maxID : Z) : option Z :=
  match nameToID !! v with
  | Some ID => if decide (minID <= ID <= maxID) then Some ID else None
  | None => None
  end.

Definition posted (name cidr : string) (ID : Z) : CreateSubnet.t :=
  {| CreateSubnet.DNSServers := []; CreateSubnet.Name := name;
     CreateSubnet.Space := "default"; CreateSubnet.GatewayIP := "";
     CreateSubnet.CIDR := cidr; CreateSubnet.VLAN := None;
     CreateSubnet.Fabric := None; CreateSubnet.VID := None;
     CreateSubnet.ID := ID |}.

Definition stored (name cidr : string) (ID : Z) (inUse : list IP)
    : ServerSubnet.t unit :=
  {| ServerSubnet.DNSServers := []; ServerSubnet.Name := name;
     ServerSubnet.Space := "default"; ServerSubnet.VLAN := None;
     ServerSubnet.GatewayIP := ""; ServerSubnet.CIDR := cidr;
     ServerSubnet.ResourceURI := ""; ServerSubnet.ID := ID;
     ServerSubnet.InUseIPAddresses := inUse |}.

(** A server without subnets, and one with two, a /31 and a /28, after a
    third one was deleted. *)
Definition empty_server : TestServer unit :=
  {| version := "2.0"; subnets := ∅; subnetNameToID := ∅; nextSubnet := 1;
     nodeMetadata := ∅ |}.

Definition two_subnets : TestServer unit :=
  {| version := "2.0";
     subnets := <[1 := stored "link" "10.0.1.0/31" 1 []]>
                  (<[3 := stored "lan" "10.0.0.0/28" 3 [ip4 10 0 0 3]]> ∅);
     subnetNameToID := <["link" := 1]> (<["gone" := 2]> (<["lan" := 3]> ∅));
     nextSubnet := 4;
     nodeMetadata := ∅ |}.

Definition request (method path : string) (query : list (string * string))
    (body : string + CreateSubnet.t) : Request.t :=
  {| Request.Method := method; Request.Path := path;
     Request.RawQuery := inr query; Request.Body := body |}.

(** [old] occurs in [s] at one of the first [n] places. *)
Fixpoint occurs_before (n : nat) (old s : string) : bool :=
  match n with
  | O => false
  | S n' =>
      match strip_prefix old s with
      | Some _ => true
      | None =>
          match s with
          | EmptyString => false
          | String _ s' => occurs_before n' old s'
          end
      end
  end.

(** For the examples: a controller that answers every request with the
    error [refused] or with a result, VLANs that are their IDs, and simple
    stand-ins for the functions declared outside the sources. *)
Definition a_controller (answer : string + string) : @controller string string :=
  {| apiVersion := twoDotOh; post := λ _ _ _, answer |}.

Definition a_device (c : option (@controller string string)) (uri : string)
    : @device string string string :=
  {| device_controller := c; resourceURI := uri; systemID := "4y3ha8";
     hostname := "printer"; fqdn := "printer.maas"; ipAddresses := [];
     device_zone := "default" |}.

Definition add_if_set (key value : string) (v : list (string * string))
    : list (string * string) :=
  if decide (value = "") then v else Values_Add key value v.

Definition add_if_nonzero (key : string) (value : Z) (v : list (string * string))
    : list (string * string) :=
  if decide (value = 0) then v else Values_Add key (Sprint_int value) v.

Definition add_if_true (key : string) (value : bool) (v : list (string * string))
    : list (string * string) :=
  if value then Values_Add key "true" v else v.

Definition zone_by_name (source : list (string * value)) : string + string :=
  match value_index source "name" with
  | VString name => inr name
  | _ => inl "zone schema check failed"
  end.

Definition strings_of (v : value) : list string :=
  match v with
  | VList l => omap (λ x, match x with VString s => Some s | _ => None end) l
  | _ => []
  end.

Definition a_source (uri : string) : list (string * value) :=
  [("system_id", VString "4y3ha8"); ("hostname", VString "printer");
   ("fqdn", VString "printer.maas"); ("resource_uri", VString uri);
   ("ip_addresses", VList [VString "10.0.0.7"]);
   ("zone", VMap [("name", VString "default")])].

(** * Properties *)

(** ** The sorted copy and the caller's slice *)

Lemma sortedCopy_run (subnet : Subnet) (h : heap) :
  (InUseIPAddresses subnet < length h)%nat →
  sortedCopy subnet h =
    (Ok (length h), h ++ [sort_list (deref h (InUseIPAddresses subnet))]).
Proof.
  intros Hlt. unfold sortedCopy, mbind, M_bind, mret, M_ret, go_len, go_make,
    go_copy, sort_Sort; simpl.
  set (src := InUseIPAddresses subnet) in *.
  set (xs := deref h src).
  assert (Hsrc : deref (h ++ [replicate (length xs) zeroIP]) src = xs).
  { unfold deref, xs. by rewrite lookup_app_l. }
  assert (Hdst : deref (h ++ [replicate (length xs) zeroIP]) (length h)
                 = replicate (length xs) zeroIP).
  { unfold deref. by rewrite list_lookup_middle. }
  rewrite Hsrc, Hdst, length_replicate, Nat.min_id.
  rewrite firstn_all, drop_replicate, Nat.sub_diag, app_nil_r.
  f_equal.
  assert (Hins : ∀ (ys zs : list IP),
             <[length h := zs]> (h ++ [ys]) = h ++ [zs]).
  { intros ys zs. rewrite insert_app_r_alt by lia.
    by rewrite Nat.sub_diag. }
  rewrite Hins. unfold deref at 1.
  rewrite list_lookup_middle by done. simpl. apply Hins.
Qed.

Lemma deref_app_l (h : heap) (cell : list IP) (s : slice) :
  (s < length h)%nat → deref (h ++ [cell]) s = deref h s.
Proof. intros Hlt. unfold deref. by rewrite lookup_app_l. Qed.

Lemma deref_app_new (h : heap) (cell : list IP) :
  deref (h ++ [cell]) (length h) = cell.
Proof. unfold deref. by rewrite list_lookup_middle. Qed.

Lemma subnetUnreservedIPRanges_run (subnet : Subnet) (h : heap) :
  (InUseIPAddresses subnet < length h)%nat →
  subnetUnreservedIPRanges subnet h =
    (match ParseCIDR (CIDR subnet) with
     | Some ipNet =>
         Ok (unreservedRanges ipNet
               (sort_list (deref h (InUseIPAddresses subnet))))
     | None => Panic "invalid CIDR address"
     end,
     h ++ [sort_list (deref h (InUseIPAddresses subnet))]).
Proof.
  intros Hlt. unfold subnetUnreservedIPRanges, mbind, M_bind.
  rewrite sortedCopy_run by done.
  destruct (ParseCIDR (CIDR subnet)) as [ipNet|]; simpl; [|done].
  unfold go_read, mret, M_ret. by rewrite deref_app_new.
Qed.

Lemma subnetReservedIPRanges_run (subnet : Subnet) (h : heap) :
  (InUseIPAddresses subnet < length h)%nat →
  subnetReservedIPRanges subnet h =
    (reservedRanges (sort_list (deref h (InUseIPAddresses subnet))),
     h ++ [sort_list (deref h (InUseIPAddresses subnet))]).
Proof.
  intros Hlt. unfold subnetReservedIPRanges, mbind, M_bind.
  rewrite sortedCopy_run by done. unfold go_read.
  rewrite deref_app_new.
  by destruct (reservedRanges _).
Qed.

Lemma repeatable_of_run {A} (op : Subnet → M A) (subnet : Subnet) (h : heap)
    (f : list IP → outcome A) :
  (∀ h' : heap, (InUseIPAddresses subnet < length h')%nat →
     op subnet h' =
       (f (sort_list (deref h' (InUseIPAddresses subnet))),
        h' ++ [sort_list (deref h' (InUseIPAddresses subnet))])) →
  (InUseIPAddresses subnet < length h)%nat →
  repeatable op subnet h.
Proof.
  intros Hrun Hlive. unfold repeatable.
  rewrite (Hrun h Hlive). cbn [fst snd].
  rewrite Hrun by (rewrite length_app; simpl; lia). cbn [fst snd].
  rewrite (deref_app_l h _ _ Hlive). split; [done|].
  intros s Hs. split; [by apply deref_app_l|].
  rewrite deref_app_l by (rewrite length_app; simpl; lia).
  by apply deref_app_l.
Qed.

(** C9.  Either range computation, run twice in a row on the same subnet,
    gives the same outcome both times, and every slice of the store the
    caller could hold (the subnet's addresses in use among them) has the
    contents it had before. *)
Theorem range_computations_repeatable (subnet : Subnet) (h : heap)
    (Hlive : (InUseIPAddresses subnet < length h)%nat) :
  repeatable subnetUnreservedIPRanges subnet h ∧
  repeatable subnetReservedIPRanges subnet h.
Proof.
  split.
  - apply (repeatable_of_run _ _ _
      (λ sorted, match ParseCIDR (CIDR subnet) with
                 | Some ipNet => Ok (unreservedRanges ipNet sorted)
                 | None => Panic "invalid CIDR address"
                 end)); [|done].
    intros h' Hh'. by apply subnetUnreservedIPRanges_run.
  - apply (repeatable_of_run _ _ _ reservedRanges); [|done].
    intros h' Hh'. by apply subnetReservedIPRanges_run.
Qed.

Lemma range_computations_repeatable_witness :
  let subnet := mkSubnet "10.0.0.0/28" 0%nat in
  let h : heap := [[ip4 10 0 0 9; ip4 10 0 0 3; ip4 10 0 0 5; ip4 10 0 0 4]] in
  repeatable subnetUnreservedIPRanges subnet h ∧
  repeatable subnetReservedIPRanges subnet h.
Proof.
  apply (range_computations_repeatable (mkSubnet "10.0.0.0/28" 0%nat)
           [[ip4 10 0 0 9; ip4 10 0 0 3; ip4 10 0 0 5; ip4 10 0 0 4]]).
  simpl; lia.
Defined.

(** ** Statistics *)

Lemma subnetUnreservedIPRanges_returns (subnet : Subnet) (h : heap) (ipNet : IPNet) :
  ParseCIDR (CIDR subnet) = Some ipNet →
  ∃ sorted h', subnetUnreservedIPRanges subnet h
               = (Ok (unreservedRanges ipNet sorted), h').
Proof.
  intros Hcidr.
  unfold subnetUnreservedIPRanges, sortedCopy, mbind, M_bind, mret, M_ret,
    go_len, go_make, go_copy, sort_Sort, go_read. simpl.
  rewrite Hcidr. simpl. eauto.
Qed.

Lemma subnetStatistics_returns (subnet : Subnet) (includeRanges : bool)
    (h : heap) (ipNet : IPNet) :
  ParseCIDR (CIDR subnet) = Some ipNet →
  ∃ reserved h',
    subnetStatistics subnet includeRanges h =
      (Ok (let total := wrap64 (shl64 1 (Mask_bits ipNet - Mask_ones ipNet) - 2) in
           let unavailable :=
             Z.of_nat (length (deref h (InUseIPAddresses subnet))) in
           {| NumAvailable := wrap64 (total - unavailable);
              LargestAvailable := largestOf reserved;
              NumUnavailable := unavailable;
              TotalAddresses := total;
              Usage := float32_div unavailable total;
              Ranges := if includeRanges then reserved else [] |}), h').
Proof.
  intros Hcidr.
  destruct (subnetUnreservedIPRanges_returns subnet h ipNet Hcidr)
    as (sorted & h' & Hrun).
  exists (unreservedRanges ipNet sorted), h'.
  unfold subnetStatistics, mbind, M_bind. rewrite Hcidr. simpl.
  unfold go_len. by rewrite Hrun.
Qed.



(** ** The defects, at concrete subnets *)

(** C2.  On [10.0.0.0/30] with [10.0.0.1] in use the cursor reaches the
    last usable address [10.0.0.2] and the closing test [start != last]
    drops it: no range is returned, and the largest available block is 0
    (total 2, unavailable 1, available 1 and usage 1/2 are as expected). *)
Theorem boundary_scenario_loses_last_address :
  run subnetUnreservedIPRanges "10.0.0.0/30" [ip4 10 0 0 1] = Ok [] ∧
  ∀ includeRanges : bool,
    run (λ s, subnetStatistics s includeRanges) "10.0.0.0/30" [ip4 10 0 0 1]
    = Ok {| NumAvailable := 1; LargestAvailable := 0; NumUnavailable := 1;
            TotalAddresses := 2; Usage := F32Val (1 # 2); Ranges := [] |}.
Proof.
  split; [vm_compute; reflexivity|].
  intros []; vm_compute; reflexivity.
Qed.

(** C1.  On [10.0.0.0/29] (usable [10.0.0.1] to [10.0.0.6]) with the last
    usable address in use, the single range returned runs from
    [10.0.0.1] to [10.0.0.6]: it contains the address in use, so the
    guarantee of the unreserved ranges fails. *)
Theorem unreserved_range_contains_address_in_use :
  let ipNet := mkIPNet (ip4 10 0 0 0) 29 32 in
  ParseCIDR "10.0.0.0/29" = Some ipNet ∧
  IP_UInt64 (firstUsable ipNet) = ipval (ip4 10 0 0 1) ∧
  IP_UInt64 (lastUsable ipNet) = ipval (ip4 10 0 0 6) ∧
  ∃ rs, run subnetUnreservedIPRanges "10.0.0.0/29" [ip4 10 0 0 6] = Ok rs ∧
        rs = [mkRange (ip4 10 0 0 1) (ip4 10 0 0 6)] ∧
        ¬ unreserved_guarantee (IP_UInt64 (firstUsable ipNet))
            (IP_UInt64 (lastUsable ipNet)) [ipval (ip4 10 0 0 6)] rs.
Proof.
  cbv zeta. split; [vm_compute; reflexivity|].
  split; [vm_compute; reflexivity|]. split; [vm_compute; reflexivity|].
  eexists. split; [vm_compute; reflexivity|]. split; [vm_compute; reflexivity|].
  intros (_ & _ & Hcover).
  destruct (Hcover (ipval (ip4 10 0 0 6))) as [Hfree _].
  { vm_compute. split; discriminate. }
  apply Hfree; [|constructor].
  eexists. split; [constructor|]. vm_compute. split; discriminate.
Qed.

(** C3.  With no address in use the reserved-range computation indexes
    the first element of an empty array: a run-time panic, no error value,
    whatever the CIDR. *)
Theorem reserved_ranges_panic_on_empty (cidr : string) :
  run subnetReservedIPRanges cidr [] = Panic "runtime error: index out of range".
Proof. reflexivity. Qed.

(** C4.  With the addresses in use forming one run ([10.0.0.3] alone, or
    [10.0.0.3] to [10.0.0.5]), the loop appends no range and the test after
    it indexes the last element of an empty list: a run-time panic instead
    of the one range. *)
Theorem reserved_ranges_panic_on_single_run (cidr : string) :
  run subnetReservedIPRanges cidr [ip4 10 0 0 3]
    = Panic "runtime error: index out of range" ∧
  run subnetReservedIPRanges cidr [ip4 10 0 0 4; ip4 10 0 0 3; ip4 10 0 0 5]
    = Panic "runtime error: index out of range".
Proof. split; vm_compute; reflexivity. Qed.

(** C6.  On [10.0.0.0/29] with [10.0.0.6] in use, the largest available
    block is 6 and the number of available addresses is 5. *)
Theorem largest_available_exceeds_available :
  ∃ stats,
    run (λ s, subnetStatistics s false) "10.0.0.0/29" [ip4 10 0 0 6] = Ok stats ∧
    LargestAvailable stats = 6 ∧ NumAvailable stats = 5 ∧
    ¬ LargestAvailable stats <= NumAvailable stats.
Proof.
  eexists. split; [vm_compute; reflexivity|]. cbn. repeat split; lia.
Qed.

(** C7.  On [10.0.0.0/31] with no address in use, the unreserved ranges
    are one range from [10.0.0.1] down to [10.0.0.0] with 0 addresses, not
    the empty list, and the usage is NaN (0/0); on [10.0.0.0/32] the total
    is [2^64 - 1].  Neither call panics. *)
Theorem degenerate_prefixes :
  run subnetUnreservedIPRanges "10.0.0.0/31" []
    = Ok [mkRange (ip4 10 0 0 1) (ip4 10 0 0 0)] ∧
  NumAddresses (mkRange (ip4 10 0 0 1) (ip4 10 0 0 0)) = 0 ∧
  run (λ s, subnetStatistics s false) "10.0.0.0/31" []
    = Ok {| NumAvailable := 0; LargestAvailable := 0; NumUnavailable := 0;
            TotalAddresses := 0; Usage := F32NaN; Ranges := [] |} ∧
  run (λ s, subnetStatistics s false) "10.0.0.0/32" []
    = Ok {| NumAvailable := 2 ^ 64 - 1; LargestAvailable := 0;
            NumUnavailable := 0; TotalAddresses := 2 ^ 64 - 1;
            Usage := F32Val (0 # 18446744073709551615); Ranges := [] |}.
Proof. repeat split; vm_compute; reflexivity. Qed.

(** C8.  On [10.0.0.0/28] with [10.0.0.3] in use twice, the unreserved
    ranges carry a range from [10.0.0.4] down to [10.0.0.2] of [2^64 - 1]
    addresses, absent with the address in use once, and the statistics
    count 2 unavailable addresses instead of 1. *)
Theorem duplicates_change_results :
  let twice := [ip4 10 0 0 3; ip4 10 0 0 3] in
  remove_dups twice = [ip4 10 0 0 3] ∧
  run subnetUnreservedIPRanges "10.0.0.0/28" twice
    = Ok [mkRange (ip4 10 0 0 1) (ip4 10 0 0 2);
          mkRange (ip4 10 0 0 4) (ip4 10 0 0 2);
          mkRange (ip4 10 0 0 4) (ip4 10 0 0 14)] ∧
  NumAddresses (mkRange (ip4 10 0 0 4) (ip4 10 0 0 2)) = 2 ^ 64 - 1 ∧
  run subnetUnreservedIPRanges "10.0.0.0/28" (remove_dups twice)
    = Ok [mkRange (ip4 10 0 0 1) (ip4 10 0 0 2);
          mkRange (ip4 10 0 0 4) (ip4 10 0 0 14)] ∧
  (∃ stats, run (λ s, subnetStatistics s false) "10.0.0.0/28" twice = Ok stats
            ∧ NumUnavailable stats = 2 ∧ NumAvailable stats = 12) ∧
  (∃ stats, run (λ s, subnetStatistics s false) "10.0.0.0/28" (remove_dups twice)
              = Ok stats
            ∧ NumUnavailable stats = 1 ∧ NumAvailable stats = 13).
Proof.
  cbv zeta. split; [vm_compute; reflexivity|].
  split; [vm_compute; reflexivity|]. split; [vm_compute; reflexivity|].
  split; [vm_compute; reflexivity|].
  split; eexists; (split; [vm_compute; reflexivity|]); split; reflexivity.
Qed.

(** ** Sorting, and what the loops compute *)

Lemma sort_insert_perm (x : IP) (l : list IP) : sort_insert x l ≡ₚ x :: l.
Proof.
  induction l as [|y l IH]; simpl; [done|].
  destruct (addressList_Less y x); [|done].
  by rewrite IH, Permutation_swap.
Qed.

Lemma sort_list_perm (l : list IP) : sort_list l ≡ₚ l.
Proof.
  induction l as [|x l IH]; simpl; [done|].
  by rewrite sort_insert_perm, IH.
Qed.

Lemma sort_insert_sorted (x : IP) (l : list IP) :
  StronglySorted IP_le l → StronglySorted IP_le (sort_insert x l).
Proof.
  induction l as [|y l IH]; simpl; intros Hs.
  - repeat constructor.
  - apply StronglySorted_cons in Hs as [Hy Hs].
    unfold addressList_Less, IP_UInt64.
    destruct (Z.ltb_spec (ipval y) (ipval x)) as [Hlt|Hge].
    + apply StronglySorted_cons. split; [|by apply IH].
      rewrite sort_insert_perm. constructor; [unfold IP_le; lia|done].
    + apply StronglySorted_cons. split; [|by apply StronglySorted_cons].
      constructor; [done|].
      eapply Forall_impl; [exact Hy|]. unfold IP_le. intros; lia.
Qed.

Lemma sort_list_sorted (l : list IP) : StronglySorted IP_le (sort_list l).
Proof.
  induction l as [|x l IH]; simpl; [constructor|].
  by apply sort_insert_sorted.
Qed.

(** Any sort of the addresses by [Less] gives the array [sort_list]
    gives. *)
Lemma sort_list_unique (l xs : list IP) :
  xs ≡ₚ l → StronglySorted IP_le xs → xs = sort_list l.
Proof.
  intros Hperm Hs.
  assert (Hanti : AntiSymm (=) IP_le).
  { intros [x] [y]. unfold IP_le; simpl. intros. f_equal. lia. }
  apply (StronglySorted_unique IP_le); [done|apply sort_list_sorted|].
  by rewrite sort_list_perm.
Qed.

Lemma wrap32_small (v : Z) : 0 <= v < 2 ^ 32 → wrap32 v = v.
Proof. intros. unfold wrap32. apply Z.mod_small; lia. Qed.

Lemma wrap64_small (v : Z) : 0 <= v < 2 ^ 64 → wrap64 v = v.
Proof. intros. unfold wrap64. apply Z.mod_small; lia. Qed.

Lemma IP_SetUInt64_small (ip : IP) (v : Z) :
  0 <= v < 2 ^ 32 → IP_SetUInt64 ip (wrap64 v) = mkIP v.
Proof.
  intros. unfold IP_SetUInt64.
  rewrite (wrap64_small v) by lia. by rewrite wrap32_small.
Qed.

Lemma mkRange_fields (s e : Z) :
  0 <= s <= e → e < 2 ^ 32 →
  mkRange (mkIP s) (mkIP e) =
    {| Start := IP_String (mkIP s); startUint := s;
       End_ := IP_String (mkIP e); endUint := e;
       Purpose := []; NumAddresses := e - s + 1 |}.
Proof.
  intros. unfold mkRange, IP_UInt64; simpl.
  rewrite (wrap64_small (1 + e)) by lia.
  rewrite wrap64_small by lia. f_equal. lia.
Qed.

Lemma separated_le (lo hi : Z) (rs : list AddressRange) :
  separated lo rs hi → lo <= hi.
Proof.
  revert lo. induction rs as [|r rs IH]; simpl; intros lo.
  - lia.
  - intros (b & e & _ & ? & Hc). apply IH in Hc. lia.
Qed.

Lemma separated_mono (lo lo' hi hi' : Z) (rs : list AddressRange) :
  separated lo rs hi → lo' <= lo → hi <= hi' → separated lo' rs hi'.
Proof.
  destruct rs as [|r rs]; simpl; [lia|].
  intros (b & e & -> & ? & Hc) Hlo Hhi. exists b, e.
  split; [done|]. split; [lia|].
  revert Hc. generalize (e + 2). clear -Hhi.
  induction rs as [|r rs IH]; simpl; intros lo; [lia|].
  intros (b & e & -> & ? & Hc). exists b, e. eauto.
Qed.

Lemma separated_elem (lo hi : Z) (rs : list AddressRange) (r : AddressRange) :
  separated lo rs hi → r ∈ rs →
  lo <= startUint r ∧ startUint r <= endUint r ∧ endUint r + 2 <= hi.
Proof.
  revert lo. induction rs as [|r0 rs IH]; simpl; intros lo Hc Hin.
  - by apply elem_of_nil in Hin.
  - destruct Hc as (b & e & -> & ? & Hc).
    pose proof (separated_le _ _ _ Hc).
    apply elem_of_cons in Hin as [-> | Hin].
    + simpl. unfold IP_UInt64; simpl. lia.
    + destruct (IH _ Hc Hin) as (? & ? & ?). lia.
Qed.

Lemma separated_sorted (lo hi : Z) (rs : list AddressRange) :
  separated lo rs hi →
  StronglySorted (λ r1 r2, endUint r1 < startUint r2) rs.
Proof.
  revert lo. induction rs as [|r0 rs IH]; simpl; intros lo Hc; [constructor|].
  destruct Hc as (b & e & -> & ? & Hc).
  apply StronglySorted_cons. split; [|by eapply IH].
  apply Forall_forall. intros r Hin.
  destruct (separated_elem _ _ _ _ Hc Hin) as (? & ? & ?).
  simpl. unfold IP_UInt64; simpl. lia.
Qed.

Lemma separated_snoc (lo hi b e : Z) (rs : list AddressRange) :
  separated lo rs hi → hi <= b <= e →
  separated lo (rs ++ [mkRange (mkIP b) (mkIP e)]) (e + 2).
Proof.
  revert lo. induction rs as [|r rs IH]; simpl; intros lo Hc He.
  - exists b, e. split; [done|]. split; lia.
  - destruct Hc as (b0 & e0 & -> & ? & Hc).
    exists b0, e0. repeat split; [lia..|]. by apply IH.
Qed.

Lemma separated_counts (lo hi : Z) (rs : list AddressRange) :
  0 <= lo → hi <= 2 ^ 32 + 1 → separated lo rs hi →
  Forall (λ r, NumAddresses r = endUint r - startUint r + 1) rs.
Proof.
  revert lo. induction rs as [|r rs IH]; simpl; intros lo Hlo Hhi Hc; [constructor|].
  destruct Hc as (b & e & -> & ? & Hc).
  pose proof (separated_le _ _ _ Hc).
  constructor; [|apply (IH (e + 2)); (done || lia)].
  rewrite mkRange_fields by lia. done.
Qed.

Lemma StronglySorted_ascending (rs : list AddressRange) :
  StronglySorted (λ r1 r2, endUint r1 < startUint r2) rs →
  ∀ (i j : nat) r1 r2, rs !! i = Some r1 → rs !! j = Some r2 →
    (i < j)%nat → endUint r1 < startUint r2.
Proof.
  induction 1 as [|r rs Hs IH Hall]; intros i j r1 r2 Hi Hj Hij.
  - done.
  - destruct j as [|j]; [lia|]. simpl in Hj.
    destruct i as [|i]; simpl in Hi.
    + injection Hi as <-. rewrite Forall_forall in Hall.
      apply Hall. by eapply list_elem_of_lookup_2.
    + eapply IH; eauto. lia.
Qed.

Lemma separated_ascending_disjoint (lo hi : Z) (rs : list AddressRange) :
  separated lo rs hi → ascending_disjoint rs.
Proof.
  intros Hc. split.
  - intros r Hin. by destruct (separated_elem _ _ _ _ Hc Hin) as (_ & ? & _).
  - apply StronglySorted_ascending. by eapply separated_sorted.
Qed.

Lemma chain_separated (lo hi : Z) (rs : list AddressRange) :
  chain lo rs hi → separated lo rs hi.
Proof.
  revert lo. induction rs as [|r rs IH]; simpl; intros lo; [lia|].
  intros (e & next & -> & ? & ? & Hc). exists lo, e.
  split; [done|]. split; [lia|].
  eapply separated_mono; [by apply IH|lia|lia].
Qed.

Lemma chain_le (lo hi : Z) (rs : list AddressRange) : chain lo rs hi → lo <= hi.
Proof. intros Hc. by eapply separated_le, chain_separated. Qed.

Lemma chain_elem (lo hi : Z) (rs : list AddressRange) (r : AddressRange) :
  chain lo rs hi → r ∈ rs →
  lo <= startUint r ∧ startUint r <= endUint r ∧ endUint r + 1 < hi.
Proof.
  intros Hc Hin.
  destruct (separated_elem _ _ _ _ (chain_separated _ _ _ Hc) Hin) as (? & ? & ?).
  lia.
Qed.

Lemma reserved_step_same (ranges : list AddressRange) (startIP thisIP elem : IP)
    (lastIP : Z) :
  0 <= lastIP < 2 ^ 32 →
  ipval elem = lastIP ∨ ipval elem = lastIP + 1 →
  reserved_step (ranges, startIP, thisIP, lastIP) elem
  = (ranges, startIP, elem, ipval elem).
Proof.
  intros Hlast Hv. unfold reserved_step, IP_UInt64.
  rewrite (wrap64_small (lastIP + 1)) by lia.
  destruct (Z.eqb_spec (ipval elem) lastIP); simpl; [done|].
  destruct (Z.eqb_spec (ipval elem) (lastIP + 1)); simpl; [done|lia].
Qed.

Lemma reserved_step_gap (ranges : list AddressRange) (startIP thisIP elem : IP)
    (lastIP : Z) :
  0 <= lastIP < 2 ^ 32 → ipv4 elem →
  lastIP + 1 < ipval elem →
  reserved_step (ranges, startIP, thisIP, lastIP) elem
  = (ranges ++ [mkRange startIP (mkIP lastIP)], mkIP (ipval elem),
     mkIP lastIP, ipval elem).
Proof.
  intros Hlast Helem Hv. unfold reserved_step, IP_UInt64.
  rewrite (wrap64_small (lastIP + 1)) by lia.
  destruct (Z.eqb_spec (ipval elem) lastIP); simpl; [lia|].
  destruct (Z.eqb_spec (ipval elem) (lastIP + 1)); simpl; [lia|].
  unfold IP_SetUInt64. rewrite !wrap32_small by (unfold ipv4 in *; lia).
  done.
Qed.

(** The loop of [subnetReservedIPRanges] over sorted addresses, from a
    state whose current run is [start .. last]. *)
Lemma reserved_fold (xs : list IP) :
  ∀ (ranges : list AddressRange) (start last : Z) (thisIP : IP),
    StronglySorted IP_le xs → Forall ipv4 xs →
    Forall (λ x, last <= ipval x) xs →
    0 <= start <= last → last < 2 ^ 32 →
    ∃ new start' last' thisIP',
      fold_left reserved_step xs (ranges, mkIP start, thisIP, last)
        = (ranges ++ new, mkIP start', thisIP', last') ∧
      chain start new start' ∧ start' <= last' < 2 ^ 32 ∧
      (∀ a, ((∃ r, r ∈ new ∧ covers r a) ∨ start' <= a <= last')
            ↔ (start <= a <= last ∨ a ∈ ipval <$> xs)).
Proof.
  induction xs as [|elem xs IH]; intros ranges start last thisIP Hs H4 Hge Hsl Hl.
  - exists [], start, last, thisIP. simpl. rewrite app_nil_r.
    split; [done|]. split; [done|]. split; [lia|].
    intros a. rewrite elem_of_nil. split.
    + intros [(r & Hr & _)|?]; [by apply elem_of_nil in Hr|by left].
    + intros [?|[]]. by right.
  - apply StronglySorted_cons in Hs as [Hhd Hs].
    apply Forall_cons in H4 as [He H4].
    apply Forall_cons in Hge as [Hle Hge].
    assert (Hge' : Forall (λ x, ipval elem <= ipval x) xs).
    { eapply Forall_impl; [exact Hhd|]. done. }
    destruct (Z_le_gt_dec (ipval elem) (last + 1)) as [Hrun|Hgap].
    + assert (Hstep := reserved_step_same ranges (mkIP start) thisIP elem last
                         ltac:(lia) ltac:(lia)).
      destruct (IH ranges start (ipval elem) elem Hs H4 Hge')
        as (new & start' & last' & thisIP' & Hfold & Hchain & Hb & Hcov);
        [lia|unfold ipv4 in He; lia|].
      exists new, start', last', thisIP'.
      split; [cbn [fold_left]; by rewrite Hstep|]. split; [done|]. split; [done|].
      intros a. rewrite Hcov, fmap_cons, elem_of_cons.
      clear -Hrun Hle Hsl. split; intros [?|?]; try (right; right; done).
      * destruct (decide (a = ipval elem)); [right; by left|left; lia].
      * left; lia.
      * destruct H as [->|?]; [left; lia|by right].
    + assert (Hstep := reserved_step_gap ranges (mkIP start) thisIP elem last
                         ltac:(lia) He ltac:(lia)).
      destruct (IH (ranges ++ [mkRange (mkIP start) (mkIP last)])
                  (ipval elem) (ipval elem) (mkIP last) Hs H4 Hge')
        as (new & start' & last' & thisIP' & Hfold & Hchain & Hb & Hcov);
        [unfold ipv4 in He; lia|unfold ipv4 in He; lia|].
      exists (mkRange (mkIP start) (mkIP last) :: new), start', last', thisIP'.
      split; [cbn [fold_left]; by rewrite Hstep, Hfold, <- app_assoc|].
      split; [simpl; exists last, (ipval elem); repeat split; (done || lia)|].
      split; [done|].
      intros a. rewrite fmap_cons, elem_of_cons.
      assert (Hr : covers (mkRange (mkIP start) (mkIP last)) a ↔ start <= a <= last).
      { unfold covers; simpl. unfold IP_UInt64; simpl. done. }
      split.
      * intros [(r & Hin & Hc)|Hrun].
        -- apply elem_of_cons in Hin as [->|Hin]; [left; by apply Hr|].
           assert (Hx : ipval elem <= a <= ipval elem ∨ a ∈ ipval <$> xs)
             by (apply Hcov; left; eauto).
           destruct Hx; [right; left; lia|right; by right].
        -- assert (Hx : ipval elem <= a <= ipval elem ∨ a ∈ ipval <$> xs)
             by (apply Hcov; by right).
           destruct Hx; [right; left; lia|right; by right].
      * intros [Hin|[->|Hin]].
        -- left. eexists. split; [by left|by apply Hr].
        -- assert (Hx : (∃ r, r ∈ new ∧ covers r (ipval elem))
                        ∨ start' <= ipval elem <= last')
             by (apply Hcov; left; lia).
           destruct Hx as [(r & ? & ?)|?]; [left; exists r; split; [by right|done]|by right].
        -- assert (Hx : (∃ r, r ∈ new ∧ covers r a) ∨ start' <= a <= last')
             by (apply Hcov; by right).
           destruct Hx as [(r & ? & ?)|?]; [left; exists r; split; [by right|done]|by right].
Qed.

Lemma chain_snoc (lo hi e next : Z) (rs : list AddressRange) :
  chain lo rs hi → hi <= e → e + 1 < next →
  chain lo (rs ++ [mkRange (mkIP hi) (mkIP e)]) next.
Proof.
  revert lo. induction rs as [|r rs IH]; simpl; intros lo Hc He Hn.
  - subst. exists e, next. done.
  - destruct Hc as (e0 & next0 & -> & ? & ? & Hc).
    exists e0, next0. repeat split; [done..|]. by apply IH.
Qed.

(** What [subnetReservedIPRanges] does on IPv4 addresses: it panics when
    they form no gap, and returns the maximal runs when they do. *)
Lemma reservedRanges_cases (inUse : list IP) :
  Forall ipv4 inUse →
  (reservedRanges (sort_list inUse) = Panic "runtime error: index out of range"
   ∧ ¬ has_gap (ipval <$> inUse)) ∨
  (∃ rs, reservedRanges (sort_list inUse) = Ok rs ∧
         has_gap (ipval <$> inUse) ∧
         reserved_guarantee (ipval <$> inUse) rs ∧
         Forall (λ r, NumAddresses r = endUint r - startUint r + 1) rs ∧
         ∃ lo hi, chain lo rs hi).
Proof.
  intros H4.
  assert (Hperm := sort_list_perm inUse).
  assert (Hs := sort_list_sorted inUse).
  assert (Hvals : ∀ a, a ∈ ipval <$> sort_list inUse ↔ a ∈ ipval <$> inUse)
    by (intros a; by rewrite Hperm).
  rewrite <- Hperm in H4.
  assert (Hgap : has_gap (ipval <$> sort_list inUse) ↔ has_gap (ipval <$> inUse)).
  { unfold has_gap. by setoid_rewrite Hvals. }
  unfold reserved_guarantee. setoid_rewrite <- Hvals. setoid_rewrite <- Hgap.
  clear Hperm Hvals Hgap.
  destruct (sort_list inUse) as [|first xs] eqn:Hxs.
  { left. split; [done|]. intros (a & b & c & Ha & _). by apply elem_of_nil in Ha. }
  unfold reservedRanges.
  assert (H1 : ipv4 first) by (by apply Forall_cons in H4 as [? _]).
  assert (Hge : Forall (λ x, ipval first <= ipval x) (first :: xs)).
  { apply StronglySorted_cons in Hs as [Hhd _].
    constructor; [lia|]. eapply Forall_impl; [exact Hhd|done]. }
  destruct (reserved_fold (first :: xs) [] (ipval first) (ipval first) zeroIP
              Hs H4 Hge) as (new & start' & last' & thisIP' & Hfold & Hchain & Hb & Hcov);
    [unfold ipv4 in H1; lia..|].
  assert (Hfirst : first = mkIP (ipval first)) by (by destruct first).
  rewrite <- Hfirst in Hfold. unfold IP_UInt64. rewrite Hfold. simpl app.
  assert (Hcov' : ∀ a, ((∃ r, r ∈ new ∧ covers r a) ∨ start' <= a <= last')
                       ↔ a ∈ ipval <$> first :: xs).
  { intros a. rewrite Hcov. split; [|by right].
    intros [?|?]; [|done]. rewrite fmap_cons. apply elem_of_cons. left; lia. }
  clear Hcov.
  destruct new as [|r0 new] using rev_ind.
  - left. simpl. split; [done|].
    simpl in Hchain. subst start'.
    intros (a & b & c & Ha & Hc & Habc & Hb').
    apply Hcov' in Ha as [(r & Hr & _)|Ha]; [by apply elem_of_nil in Hr|].
    apply Hcov' in Hc as [(r & Hr & _)|Hc]; [by apply elem_of_nil in Hr|].
    apply Hb', Hcov'. right. lia.
  - clear IHnew. right. rewrite last_snoc.
    pose proof (chain_le _ _ _ Hchain) as Hlo.
    assert (Hr0 : endUint r0 + 1 < start').
    { eapply chain_elem; [exact Hchain|]. apply elem_of_app. right. by left. }
    destruct (Z.eqb_spec (endUint r0) last') as [Heq|_]; [lia|]. simpl.
    assert (Hset : IP_SetUInt64 thisIP' last' = mkIP last').
    { unfold IP_SetUInt64. by rewrite wrap32_small by (unfold ipv4 in H1; lia). }
    rewrite Hset. eexists. split; [done|].
    assert (Hchain' : chain (ipval first)
              ((new ++ [r0]) ++ [mkRange (mkIP start') (mkIP last')]) (last' + 2))
      by (apply chain_snoc; (done || lia)).
    assert (Hcover : ∀ a,
      (∃ r, r ∈ (new ++ [r0]) ++ [mkRange (mkIP start') (mkIP last')] ∧ covers r a)
      ↔ a ∈ ipval <$> first :: xs).
    { intros a. rewrite <- Hcov'. split.
      - intros (r & Hin & Hc). apply elem_of_app in Hin as [Hin|Hin].
        + left. eauto.
        + apply list_elem_of_singleton in Hin as ->. right. exact Hc.
      - intros [(r & Hin & Hc)|Hrun].
        + exists r. split; [|done]. apply elem_of_app. by left.
        + eexists. split; [apply elem_of_app; right; by left|]. exact Hrun. }
    split; [|split; [split|split; [|eauto]]].
    + (* a gap follows the first range *)
      destruct (new ++ [r0]) as [|r1 rest] eqn:Hnew; [by destruct new|].
      simpl in Hchain. destruct Hchain as (e & next & -> & He & Hnext & Hrest).
      pose proof (chain_le _ _ _ Hrest) as Hnext'.
      exists e, (e + 1), start'. split; [|split; [|split; [lia|]]].
      * apply Hcov'. left. eexists. split; [by left|].
        unfold covers; simpl; unfold IP_UInt64; simpl. lia.
      * apply Hcov'. right. lia.
      * intros Hin. apply Hcov' in Hin as [(r & Hin & Hc)|Hrun]; [|lia].
        unfold covers in Hc.
        apply elem_of_cons in Hin as [->|Hin].
        -- simpl in Hc. unfold IP_UInt64 in Hc; simpl in Hc. lia.
        -- destruct (chain_elem _ _ _ _ Hrest Hin) as (? & ? & ?). lia.
    + by eapply separated_ascending_disjoint, chain_separated.
    + exact Hcover.
    + apply (separated_counts (ipval first) (last' + 2)); [unfold ipv4 in H1; lia|lia|by apply chain_separated].
Qed.

(** Maximal runs are determined by the addresses they cover. *)
Lemma chain_unique (rs1 : list AddressRange) :
  ∀ (rs2 : list AddressRange) (lo1 hi1 lo2 hi2 : Z),
    chain lo1 rs1 hi1 → chain lo2 rs2 hi2 →
    (∀ a, (∃ r, r ∈ rs1 ∧ covers r a) ↔ (∃ r, r ∈ rs2 ∧ covers r a)) →
    rs1 = rs2.
Proof.
  assert (Hhead : ∀ la ea na ra ha lb eb nb rb hb,
    la <= ea → ea + 1 < na → chain na ra ha →
    lb <= eb → eb + 1 < nb → chain nb rb hb →
    (∀ a, (∃ r, r ∈ mkRange (mkIP la) (mkIP ea) :: ra ∧ covers r a)
          → (∃ r, r ∈ mkRange (mkIP lb) (mkIP eb) :: rb ∧ covers r a)) →
    lb <= la ∧ (la = lb → ea <= eb)).
  { intros la ea na ra ha lb eb nb rb hb ? ? Hca ? ? Hcb Hsub.
    assert (Hin : ∀ a, la <= a <= ea → lb <= a <= eb ∨ nb <= a).
    { intros a Ha. destruct (Hsub a) as (r & Hr & Hcov).
      - eexists. split; [by left|]. unfold covers; simpl. by unfold IP_UInt64.
      - apply elem_of_cons in Hr as [->|Hr].
        + left. unfold covers in Hcov; simpl in Hcov. by unfold IP_UInt64 in Hcov.
        + right. destruct (chain_elem _ _ _ _ Hcb Hr) as (? & ? & ?).
          unfold covers in Hcov. lia. }
    split.
    - destruct (Hin la); lia.
    - intros ->. destruct (Z_le_gt_dec ea eb) as [|Hgt]; [done|].
      destruct (Hin (eb + 1)); lia. }
  induction rs1 as [|r1 rs1 IH]; intros [|r2 rs2] lo1 hi1 lo2 hi2 Hc1 Hc2 Hcov.
  - done.
  - simpl in Hc2. destruct Hc2 as (e & next & -> & ? & ? & _).
    destruct (proj2 (Hcov lo2)) as (r & Hr & _); [|by apply elem_of_nil in Hr].
    eexists. split; [by left|]. unfold covers; simpl. unfold IP_UInt64; simpl. lia.
  - simpl in Hc1. destruct Hc1 as (e & next & -> & ? & ? & _).
    destruct (proj1 (Hcov lo1)) as (r & Hr & _); [|by apply elem_of_nil in Hr].
    eexists. split; [by left|]. unfold covers; simpl. unfold IP_UInt64; simpl. lia.
  - simpl in Hc1, Hc2.
    destruct Hc1 as (e1 & n1 & -> & ? & ? & Hc1).
    destruct Hc2 as (e2 & n2 & -> & ? & ? & Hc2).
    destruct (Hhead lo1 e1 n1 rs1 hi1 lo2 e2 n2 rs2 hi2) as [Hlo Hend];
      [done..|intros a; apply Hcov|].
    destruct (Hhead lo2 e2 n2 rs2 hi2 lo1 e1 n1 rs1 hi1) as [Hlo' Hend'];
      [done..|intros a; apply Hcov|].
    assert (lo1 = lo2) as -> by lia.
    assert (e1 = e2) as ->
      by (specialize (Hend eq_refl); specialize (Hend' eq_refl); lia).
    f_equal. apply (IH rs2 n1 hi1 n2 hi2); [done..|].
    assert (Htail : ∀ n rs hi n' rs' hi' a,
      chain n rs hi → e2 + 1 < n → chain n' rs' hi' → e2 + 1 < n' →
      ((∃ r, r ∈ mkRange (mkIP lo2) (mkIP e2) :: rs ∧ covers r a)
       → (∃ r, r ∈ mkRange (mkIP lo2) (mkIP e2) :: rs' ∧ covers r a)) →
      (∃ r, r ∈ rs ∧ covers r a) → (∃ r, r ∈ rs' ∧ covers r a)).
    { intros n rs hi n' rs' hi' a Hc ? Hc' ? Himp (r & Hr & Hcv).
      destruct (chain_elem _ _ _ _ Hc Hr) as (? & ? & ?).
      destruct Himp as (r' & Hr' & Hcv'); [exists r; split; [by right|done]|].
      apply elem_of_cons in Hr' as [->|Hr']; [|eauto].
      unfold covers in Hcv, Hcv'. simpl in Hcv'.
      unfold IP_UInt64 in Hcv'; simpl in Hcv'. lia. }
    intros a. split.
    + eapply Htail; [exact Hc1|done|exact Hc2|done|apply Hcov].
    + eapply Htail; [exact Hc2|done|exact Hc1|done|apply Hcov].
Qed.

(** The reserved ranges depend on the set of addresses in use only. *)
Lemma reservedRanges_same_set (l1 l2 : list IP) :
  Forall ipv4 l1 → Forall ipv4 l2 →
  (∀ a, a ∈ ipval <$> l1 ↔ a ∈ ipval <$> l2) →
  reservedRanges (sort_list l1) = reservedRanges (sort_list l2).
Proof.
  intros H1 H2 Hset.
  assert (Hgap : has_gap (ipval <$> l1) ↔ has_gap (ipval <$> l2)).
  { unfold has_gap. by setoid_rewrite Hset. }
  destruct (reservedRanges_cases l1 H1)
    as [[-> Hno1]|(rs1 & -> & Hg1 & [_ Hcov1] & _ & lo1 & hi1 & Hc1)];
  destruct (reservedRanges_cases l2 H2)
    as [[-> Hno2]|(rs2 & -> & Hg2 & [_ Hcov2] & _ & lo2 & hi2 & Hc2)].
  - done.
  - by destruct Hno1; apply Hgap.
  - by destruct Hno2; apply Hgap.
  - f_equal. eapply chain_unique; [exact Hc1|exact Hc2|].
    intros a. by rewrite Hcov1, Hcov2.
Qed.

Lemma run_subnetReservedIPRanges (cidr : string) (inUse : list IP) :
  run subnetReservedIPRanges cidr inUse = reservedRanges (sort_list inUse).
Proof.
  unfold run, oneSubnet.
  by rewrite subnetReservedIPRanges_run by (simpl; lia).
Qed.

(** The reserved ranges with repeated addresses in use are those of the
    addresses without the repetitions (the same panic included). *)
Lemma reserved_ranges_ignore_duplicates (cidr : string) (inUse : list IP) :
  Forall ipv4 inUse →
  run subnetReservedIPRanges cidr inUse
  = run subnetReservedIPRanges cidr (remove_dups inUse).
Proof.
  intros H4. rewrite !run_subnetReservedIPRanges.
  apply reservedRanges_same_set; [done| |].
  - rewrite Forall_forall in H4. apply Forall_forall.
    intros x Hx. rewrite elem_of_remove_dups in Hx. by apply H4.
  - intros a. rewrite !list_elem_of_fmap. by setoid_rewrite elem_of_remove_dups.
Qed.

(** On IPv4 addresses in use that leave a gap, the reserved ranges are
    returned and are the runs of the addresses in use; with no gap (one
    run, or no address at all) the call panics. *)
Lemma reserved_ranges_characterised (cidr : string) (inUse : list IP) :
  Forall ipv4 inUse →
  (has_gap (ipval <$> inUse) →
   ∃ rs, run subnetReservedIPRanges cidr inUse = Ok rs ∧
         reserved_guarantee (ipval <$> inUse) rs ∧
         Forall (λ r, NumAddresses r = endUint r - startUint r + 1) rs) ∧
  (¬ has_gap (ipval <$> inUse) →
   run subnetReservedIPRanges cidr inUse
   = Panic "runtime error: index out of range").
Proof.
  intros H4. rewrite run_subnetReservedIPRanges.
  destruct (reservedRanges_cases inUse H4)
    as [[-> Hno]|(rs & -> & Hgap & Hg & Hn & _)].
  - split; [by intros ?|done].
  - split; [eauto|by intros ?].
Qed.

(** ** The unreserved ranges where the closing test does no harm *)

Lemma sorted_nodup_strict (xs : list IP) :
  StronglySorted IP_le xs → NoDup (ipval <$> xs) → StronglySorted IP_lt xs.
Proof.
  induction 1 as [|x xs Hs IH Hall]; intros Hnd; [constructor|].
  rewrite fmap_cons in Hnd. apply NoDup_cons in Hnd as [Hnotin Hnd].
  constructor; [by apply IH|].
  rewrite Forall_forall in Hall. apply Forall_forall. intros y Hy.
  specialize (Hall y Hy). unfold IP_le, IP_lt in *.
  assert (ipval y ≠ ipval x); [|lia].
  intros Heq. apply Hnotin. rewrite <- Heq. apply list_elem_of_fmap. eauto.
Qed.

Section UnreservedLoop.
Variable l : Z.
Hypothesis l_bound : l + 1 < 2 ^ 32.

Lemma unreserved_step_advance (s : Z) (ranges : list AddressRange) (elem : IP) :
  0 <= s → ipval elem = s → s < l →
  unreserved_step (mkIP l) (mkIP s, ranges) elem = (mkIP (s + 1), ranges).
Proof.
  intros Hs Hv Hl. unfold unreserved_step, IP_UInt64; simpl. rewrite Hv.
  rewrite Z.eqb_refl. destruct (Z.eqb_spec s l); [lia|]. simpl.
  by rewrite IP_SetUInt64_small by lia.
Qed.

Lemma unreserved_step_stuck (s : Z) (ranges : list AddressRange) (elem : IP) :
  ipval elem = l →
  unreserved_step (mkIP l) (mkIP s, ranges) elem = (mkIP s, ranges).
Proof.
  intros Hv. unfold unreserved_step, IP_UInt64; simpl. rewrite Hv.
  rewrite Z.eqb_refl. simpl. by destruct (l =? s).
Qed.

Lemma unreserved_step_emit (s : Z) (ranges : list AddressRange) (elem : IP) :
  0 <= s → s < ipval elem → ipval elem < l →
  unreserved_step (mkIP l) (mkIP s, ranges) elem
  = (mkIP (ipval elem + 1),
     ranges ++ [mkRange (mkIP s) (mkIP (ipval elem - 1))]).
Proof.
  intros Hs Hv Hl. unfold unreserved_step, IP_UInt64; simpl.
  destruct (Z.eqb_spec (ipval elem) s); [lia|].
  destruct (Z.eqb_spec (ipval elem) l); [lia|].
  by rewrite !IP_SetUInt64_small by lia.
Qed.

(** The loop of [subnetUnreservedIPRanges] over distinct sorted addresses
    between the cursor [s] and the last usable address [l], where the
    last usable address is in use only if the one before it is in use or
    behind the cursor. *)
Lemma unreserved_fold (xs : list IP) :
  ∀ (s : Z) (ranges : list AddressRange),
    StronglySorted IP_lt xs → Forall (λ x, s <= ipval x <= l) xs →
    0 <= s <= l →
    (l ∈ ipval <$> xs → s = l ∨ l - 1 ∈ ipval <$> xs) →
    ∃ new s',
      fold_left (unreserved_step (mkIP l)) xs (mkIP s, ranges)
        = (mkIP s', ranges ++ new) ∧
      s <= s' <= l ∧ separated s new s' ∧
      (∀ a, s <= a < s' → ((∃ r, r ∈ new ∧ covers r a) ↔ a ∉ ipval <$> xs)) ∧
      (l ∈ ipval <$> xs → s' = l) ∧
      (l ∉ ipval <$> xs →
         (∀ a, a ∈ ipval <$> xs → a < s') ∧ (s' = s ∨ s' - 1 ∈ ipval <$> xs)).
Proof.
  induction xs as [|elem xs IH]; intros s ranges Hs Hin Hsl Hlast.
  - exists [], s. simpl. rewrite app_nil_r. split; [done|]. split; [lia|].
    split; [lia|]. split; [intros; lia|].
    split; [by intros ?%elem_of_nil|].
    intros _. split; [by intros a ?%elem_of_nil|by left].
  - apply StronglySorted_cons in Hs as [Hhd Hs].
    apply Forall_cons in Hin as [Hv Hin].
    rewrite Forall_forall in Hhd, Hin. unfold IP_lt in Hhd.
    assert (Hrest : ∀ a, a ∈ ipval <$> xs → ipval elem < a <= l).
    { intros a (x & -> & Hx)%list_elem_of_fmap.
      specialize (Hhd x Hx). specialize (Hin x Hx). lia. }
    rewrite fmap_cons in Hlast. setoid_rewrite fmap_cons.
    setoid_rewrite elem_of_cons. rewrite !elem_of_cons in Hlast.
    cbn [fold_left].
    destruct (Z.eq_dec (ipval elem) l) as [Hvl|Hvl].
    + (* the last usable address: nothing can follow it *)
      assert (xs = []) as ->.
      { destruct xs as [|x xs]; [done|].
        specialize (Hrest (ipval x)). rewrite fmap_cons in Hrest.
        specialize (Hrest ltac:(by left)). lia. }
      rewrite unreserved_step_stuck by done.
      assert (s = l) as ->.
      { destruct Hlast as [?|[?|Hx]]; [by left|done|lia|].
        by apply elem_of_nil in Hx. }
      exists [], l. simpl. rewrite app_nil_r. split; [done|]. split; [lia|].
      split; [lia|]. split; [intros; lia|]. split; [done|].
      intros Hno. destruct Hno. by left.
    + destruct (Z.eq_dec (ipval elem) s) as [Hvs|Hvs].
      * (* the cursor is in use *)
        rewrite unreserved_step_advance by lia.
        destruct (IH (s + 1) ranges Hs) as (new & s' & Hfold & Hb & Hsep & Hcov & Hl & Hnl).
        { apply Forall_forall. intros x Hx.
          specialize (Hhd x Hx). specialize (Hin x Hx). lia. }
        { lia. }
        { intros Hlx. destruct Hlast as [?|[?|?]]; [by right|lia|left; lia|by right]. }
        exists new, s'. split; [done|]. split; [lia|].
        split; [eapply separated_mono; [exact Hsep|lia|lia]|].
        split; [|split].
        -- intros a Ha. destruct (Z.eq_dec a s) as [->|Hne].
           ++ split.
              ** intros (r & Hr & Hc).
                 destruct (separated_elem _ _ _ _ Hsep Hr) as (? & ? & ?).
                 unfold covers in Hc. exfalso; lia.
              ** intros Hno. destruct Hno. left. lia.
           ++ rewrite Hcov by lia. split.
              ** intros Hno [?|?]; [lia|done].
              ** intros Hno ?. apply Hno. by right.
        -- intros [?|?]; [lia|by apply Hl].
        -- intros Hno. destruct Hnl as [Hlt Hs']; [intros ?; apply Hno; by right|].
           split.
           ++ intros a [->|Ha]; [lia|by apply Hlt].
           ++ right. destruct Hs' as [->|?]; [left; lia|by right].
      * (* a free run ends before this address *)
        rewrite unreserved_step_emit by lia.
        destruct (IH (ipval elem + 1)
                    (ranges ++ [mkRange (mkIP s) (mkIP (ipval elem - 1))]) Hs)
          as (new & s' & Hfold & Hb & Hsep & Hcov & Hl & Hnl).
        { apply Forall_forall. intros x Hx.
          specialize (Hhd x Hx). specialize (Hin x Hx). lia. }
        { lia. }
        { intros Hlx. destruct Hlast as [?|[?|?]]; [by right|lia|left; lia|by right]. }
        exists (mkRange (mkIP s) (mkIP (ipval elem - 1)) :: new), s'.
        split; [by rewrite Hfold, <- app_assoc|]. split; [lia|].
        split.
        { simpl. exists s, (ipval elem - 1). split; [done|]. split; [lia|].
          by replace (ipval elem - 1 + 2) with (ipval elem + 1) by lia. }
        assert (Hr : ∀ a, covers (mkRange (mkIP s) (mkIP (ipval elem - 1))) a
                          ↔ s <= a <= ipval elem - 1).
        { intros a. unfold covers; simpl. by unfold IP_UInt64. }
        split; [|split].
        -- intros a Ha. destruct (Z_lt_le_dec a (ipval elem)) as [Hlt|Hge].
           ++ split.
              ** intros _ [?|Hx]; [lia|]. apply Hrest in Hx. exfalso; lia.
              ** intros _. eexists. split; [by left|]. apply (proj2 (Hr _)). lia.
           ++ destruct (Z.eq_dec a (ipval elem)) as [->|Hne].
              ** split; [|intros Hno; destruct Hno; by left].
                 intros (r & Hin' & Hc). apply elem_of_cons in Hin' as [->|Hin'].
                 --- apply (proj1 (Hr _)) in Hc. exfalso; lia.
                 --- destruct (separated_elem _ _ _ _ Hsep Hin') as (? & ? & ?).
                     unfold covers in Hc. exfalso; lia.
              ** split.
                 --- intros (r & Hin' & Hc) [?|Hx]; [lia|].
                     apply elem_of_cons in Hin' as [->|Hin'].
                     +++ apply (proj1 (Hr _)) in Hc. exfalso; lia.
                     +++ revert Hx. apply Hcov; [lia|eauto].
                 --- intros Hno.
                     destruct (proj2 (Hcov a ltac:(lia))) as (r & ? & ?).
                     { intros ?. apply Hno. by right. }
                     exists r. split; [by right|done].
        -- intros [?|?]; [lia|by apply Hl].
        -- intros Hno. destruct Hnl as [Hlt Hs']; [intros ?; apply Hno; by right|].
           split.
           ++ intros a [->|Ha]; [lia|by apply Hlt].
           ++ right. destruct Hs' as [->|?]; [left; lia|by right].
Qed.
End UnreservedLoop.

Lemma run_subnetUnreservedIPRanges (cidr : string) (inUse : list IP) (ipNet : IPNet) :
  ParseCIDR cidr = Some ipNet →
  run subnetUnreservedIPRanges cidr inUse
  = Ok (unreservedRanges ipNet (sort_list inUse)).
Proof.
  intros Hcidr. unfold run, oneSubnet.
  rewrite subnetUnreservedIPRanges_run by (simpl; lia). simpl.
  by rewrite Hcidr.
Qed.

(** Where the last usable address and the one before it are both in use
    or both free, the unreserved ranges are the free runs of the usable
    span. *)
Lemma unreservedRanges_correct (ipNet : IPNet) (inUse : list IP) (f l : Z) :
  firstUsable ipNet = mkIP f → lastUsable ipNet = mkIP l →
  0 <= f < l → l + 1 < 2 ^ 32 →
  NoDup (ipval <$> inUse) →
  Forall (λ x, f <= ipval x <= l) inUse →
  (l ∈ ipval <$> inUse ↔ l - 1 ∈ ipval <$> inUse) →
  unreserved_guarantee f l (ipval <$> inUse)
    (unreservedRanges ipNet (sort_list inUse)) ∧
  Forall (λ r, NumAddresses r = endUint r - startUint r + 1)
    (unreservedRanges ipNet (sort_list inUse)).
Proof.
  intros Hf Hl Hfl Hbound Hnd Hin Hlast.
  assert (Hperm := sort_list_perm inUse).
  assert (Hvals : ∀ a, a ∈ ipval <$> sort_list inUse ↔ a ∈ ipval <$> inUse)
    by (intros a; by rewrite Hperm).
  rewrite <- Hperm in Hnd, Hin.
  assert (Hs := sorted_nodup_strict _ (sort_list_sorted inUse) Hnd).
  unfold unreserved_guarantee. setoid_rewrite <- Hvals.
  rewrite <- !Hvals in Hlast. clear Hperm Hvals Hnd.
  unfold unreservedRanges. rewrite Hf, Hl.
  destruct (unreserved_fold l Hbound (sort_list inUse) f [] Hs Hin)
    as (new & s' & -> & Hb & Hsep & Hcov & Hin_l & Hout_l);
    [lia|intros ?; right; by apply Hlast|].
  simpl app. unfold IP_UInt64; simpl ipval.
  destruct (decide (l ∈ ipval <$> sort_list inUse)) as [Hused|Hfree].
  - (* the last usable address is in use: the cursor has reached it *)
    rewrite (Hin_l Hused), Z.eqb_refl. simpl.
    specialize (Hin_l Hused). subst s'.
    split; [split; [by eapply separated_ascending_disjoint|split]|].
    + intros r Hr. destruct (separated_elem _ _ _ _ Hsep Hr) as (? & ? & ?). lia.
    + intros a Ha. destruct (Z.eq_dec a l) as [->|Hne].
      * split; [|done]. intros (r & Hr & Hc).
        destruct (separated_elem _ _ _ _ Hsep Hr) as (? & ? & ?).
        unfold covers in Hc. exfalso; lia.
      * apply Hcov. lia.
    + eapply separated_counts; [|
        |exact Hsep]; lia.
  - (* both free: the cursor is below the last usable address *)
    destruct (Hout_l Hfree) as [Hbelow Hs'].
    assert (Hs'l : s' < l).
    { destruct (Z.eq_dec s' l) as [->|]; [|lia].
      destruct Hs' as [?|Hprev]; [lia|]. destruct Hfree. by apply Hlast. }
    destruct (Z.eqb_spec s' l) as [?|_]; [lia|]. simpl.
    assert (Hsep' := separated_snoc _ _ s' l _ Hsep ltac:(lia)).
    assert (Hr : ∀ a, covers (mkRange (mkIP s') (mkIP l)) a ↔ s' <= a <= l).
    { intros a. unfold covers; simpl. by unfold IP_UInt64. }
    split; [split; [by eapply separated_ascending_disjoint|split]|].
    + intros r Hr'. destruct (separated_elem _ _ _ _ Hsep' Hr') as (? & ? & ?). lia.
    + intros a Ha. destruct (Z_lt_le_dec a s') as [Hlt|Hge].
      * rewrite <- Hcov by lia. split.
        -- intros (r & Hr' & Hc). apply elem_of_app in Hr' as [Hr'|Hr']; [eauto|].
           apply list_elem_of_singleton in Hr' as ->.
           apply (proj1 (Hr _)) in Hc. exfalso; lia.
        -- intros (r & Hr' & Hc). exists r. split; [|done].
           apply elem_of_app. by left.
      * split.
        -- intros _ Hx. apply Hbelow in Hx. lia.
        -- intros _. eexists. split; [apply elem_of_app; right; by left|].
           apply (proj2 (Hr _)). lia.
    + eapply separated_counts; [| |exact Hsep']; lia.
Qed.

(** ** The usable span of a parsed CIDR *)

Lemma digit_val_bound (c : ascii) (d : Z) : digit_val c = Some d → 0 <= d <= 9.
Proof.
  unfold digit_val.
  destruct (Z.leb_spec 48 (Z.of_N (N_of_ascii c)));
    destruct (Z.leb_spec (Z.of_N (N_of_ascii c)) 57); simpl; intros [= <-]; lia.
Qed.

Lemma dtoi_from_nonneg (s : string) :
  ∀ acc n, 0 <= acc → dtoi_from acc s = Some n → 0 <= n.
Proof.
  induction s as [|c s IH]; simpl; intros acc n Hacc.
  - intros [= <-]. done.
  - destruct (digit_val c) as [d|] eqn:Hd; [|done].
    apply digit_val_bound in Hd. apply IH. lia.
Qed.

Lemma dtoi_bound (bound : Z) (s : string) (n : Z) :
  dtoi bound s = Some n → 0 <= n <= bound.
Proof.
  unfold dtoi. destruct s as [|c s]; [done|].
  destruct (dtoi_from 0 (String c s)) as [m|] eqn:Hm; [|done].
  apply dtoi_from_nonneg in Hm; [|done].
  destruct (Z.leb_spec m bound); intros [= <-]. lia.
Qed.

Lemma parseIPv4_bound (s : string) (ip : Z) :
  parseIPv4 s = Some ip → 0 <= ip < 2 ^ 32.
Proof.
  unfold parseIPv4.
  destruct (cut "." s) as [a [r1|]]; [|done].
  destruct (cut "." r1) as [b [r2|]]; [|done].
  destruct (cut "." r2) as [c [d|]]; [|done].
  destruct (dtoi 255 a) as [va|] eqn:Ha; [|done].
  destruct (dtoi 255 b) as [vb|] eqn:Hb; [|done].
  destruct (dtoi 255 c) as [vc|] eqn:Hc; [|done].
  destruct (dtoi 255 d) as [vd|] eqn:Hd; [|done].
  apply dtoi_bound in Ha, Hb, Hc, Hd. intros [= <-]. lia.
Qed.

Lemma ParseCIDR_inv (cidr : string) (ipNet : IPNet) :
  ParseCIDR cidr = Some ipNet →
  ∃ ip n, 0 <= ip < 2 ^ 32 ∧ 0 <= n <= 32 ∧
          ipNet = mkIPNet (mkIP (Z.land ip (2 ^ 32 - 2 ^ (32 - n)))) n 32.
Proof.
  unfold ParseCIDR. destruct (cut "/" cidr) as [addr [mask|]]; [|done].
  destruct (parseIPv4 addr) as [ip|] eqn:Hip; [|done].
  destruct (dtoi 32 mask) as [n|] eqn:Hn; [|done].
  apply parseIPv4_bound in Hip. apply dtoi_bound in Hn.
  intros [= <-]. eauto.
Qed.

Section Span.
Variable k : Z.
Hypothesis k_range : 2 <= k <= 32.

Lemma pow2_k_bounds : 4 <= 2 ^ k <= 2 ^ 32 ∧ 2 ^ 32 = 2 ^ k * 2 ^ (32 - k).
Proof.
  split.
  - split; [change 4 with (2 ^ 2)|]; apply Z.pow_le_mono_r; lia.
  - rewrite <- Z.pow_add_r by lia. f_equal. lia.
Qed.

(** [^((^uint64(0)) << k)]: the low [k] bits. *)
Lemma host_bits : not64 (shl64 (not64 0) k) = 2 ^ k - 1.
Proof.
  destruct pow2_k_bounds as [Hk _].
  unfold not64, shl64, wrap64. change (Z.lnot 0 mod 2 ^ 64) with (2 ^ 64 - 1).
  rewrite Z.shiftl_mul_pow2 by lia.
  replace ((2 ^ 64 - 1) * 2 ^ k) with (2 ^ 64 - 2 ^ k + (2 ^ k - 1) * 2 ^ 64) by lia.
  rewrite Z_mod_plus_full, (Z.mod_small (2 ^ 64 - 2 ^ k)) by lia.
  rewrite Z.lnot_eq_pred_opp.
  replace (- (2 ^ 64 - 2 ^ k) - 1) with (2 ^ k - 1 + (-1) * 2 ^ 64) by lia.
  rewrite Z_mod_plus_full. apply Z.mod_small. lia.
Qed.

Variable ip : Z.
Hypothesis ip_range : 0 <= ip < 2 ^ 32.

#[local] Abbreviation net := (Z.land ip (2 ^ 32 - 2 ^ k)).

Lemma net_aligned : Z.land net (Z.ones k) = 0.
Proof.
  destruct pow2_k_bounds as [Hk Hsplit].
  rewrite <- Z.land_assoc.
  replace (Z.land (2 ^ 32 - 2 ^ k) (Z.ones k)) with 0; [apply Z.land_0_r|].
  rewrite Z.land_ones by lia.
  replace (2 ^ 32 - 2 ^ k) with ((2 ^ (32 - k) - 1) * 2 ^ k) by lia.
  symmetry. apply Z_mod_mult.
Qed.

Lemma net_range : 0 <= net ∧ net + 2 ^ k <= 2 ^ 32.
Proof.
  destruct pow2_k_bounds as [Hk Hsplit].
  assert (Hnn : 0 <= net) by (apply Z.land_nonneg; lia).
  split; [done|].
  assert (Hlt : net < 2 ^ 32).
  { assert (Hip : ip = Z.land ip (Z.ones 32)).
    { rewrite Z.land_ones by lia. symmetry. apply Z.mod_small. lia. }
    rewrite Hip at 1. rewrite <- Z.land_assoc, (Z.land_comm (Z.ones 32)),
      Z.land_assoc, Z.land_ones by lia.
    apply Z.mod_pos_bound. lia. }
  pose proof net_aligned as Hal. rewrite Z.land_ones in Hal by lia.
  apply Z.mod_divide in Hal as [q Hq]; [|lia].
  assert (q < 2 ^ (32 - k)) by nia. nia.
Qed.

Lemma broadcast_of_first :
  Z.lor (net + 1) (2 ^ k - 1) = net + 2 ^ k - 1.
Proof.
  destruct pow2_k_bounds as [Hk Hsplit].
  pose proof net_aligned as Hal.
  assert (Hodd : Z.land net 1 = 0).
  { change 1 with (Z.ones 1). rewrite Z.land_ones by lia.
    rewrite Z.land_ones in Hal by lia.
    apply Z.mod_divide in Hal as [q Hq]; [|lia].
    rewrite Hq. replace (2 ^ k) with (2 ^ (k - 1) * 2 ^ 1).
    - rewrite Z.mul_assoc. apply Z_mod_mult.
    - rewrite <- Z.pow_add_r by lia. f_equal. lia. }
  assert (Hplus : net + 1 = Z.lor net 1).
  { rewrite <- (Z.add_lor_land net 1), Hodd. lia. }
  rewrite Hplus, <- Z.lor_assoc. change (2 ^ k - 1) with (Z.pred (2 ^ k)).
  rewrite <- Z.ones_equiv.
  rewrite (Z.lor_ones_low 1 k) by (simpl; lia).
  assert (Hlor : Z.lor net (Z.ones k) = net + Z.ones k)
    by (rewrite <- (Z.add_lor_land net (Z.ones k)), Hal; lia).
  rewrite Hlor, Z.ones_equiv. lia.
Qed.
End Span.

(** For a prefix of at most 30 bits the first usable address is one above
    the network address, the last usable one two below the end of the
    block, and the first is below the last. *)
Lemma usable_span (cidr : string) (ipNet : IPNet) :
  ParseCIDR cidr = Some ipNet → Mask_ones ipNet <= 30 →
  ∃ f l, firstUsable ipNet = mkIP f ∧ lastUsable ipNet = mkIP l ∧
         0 <= f < l ∧ l + 1 < 2 ^ 32 ∧
         l - f + 1 = 2 ^ (Mask_bits ipNet - Mask_ones ipNet) - 2.
Proof.
  intros (ip & n & Hip & Hn & ->)%ParseCIDR_inv Hones. simpl in Hones.
  set (k := 32 - n). assert (Hk : 2 <= k <= 32) by lia.
  destruct (pow2_k_bounds k Hk) as [Hpow _].
  destruct (net_range k Hk ip Hip) as [Hn0 Hn1].
  set (net := Z.land ip (2 ^ 32 - 2 ^ k)) in *.
  assert (Hf : firstUsable (mkIPNet (mkIP net) n 32) = mkIP (net + 1)).
  { unfold firstUsable, IPFromNetIP, IP_UInt64; simpl.
    apply IP_SetUInt64_small. lia. }
  exists (net + 1), (net + 2 ^ k - 2).
  split; [done|]. split.
  - unfold lastUsable. rewrite Hf. cbn [Mask_bits Mask_ones].
    fold k. rewrite (host_bits k Hk). unfold IP_UInt64; simpl ipval.
    rewrite (broadcast_of_first k Hk ip
               : Z.lor (net + 1) (2 ^ k - 1) = net + 2 ^ k - 1).
    replace (net + 2 ^ k - 1 - 1) with (net + 2 ^ k - 2) by lia.
    apply IP_SetUInt64_small. lia.
  - cbn [Mask_bits Mask_ones]. fold k. lia.
Qed.

(** The unreserved ranges of a subnet with a prefix of at most 30 bits,
    with distinct usable addresses in use of which the last usable one and
    the one before it are both in use or both free: the call returns, and
    the ranges are exactly the free runs of the usable span. *)
Lemma unreserved_ranges_where_correct (cidr : string) (ipNet : IPNet)
    (inUse : list IP) :
  ParseCIDR cidr = Some ipNet → Mask_ones ipNet <= 30 →
  let f := ipval (firstUsable ipNet) in
  let l := ipval (lastUsable ipNet) in
  NoDup (ipval <$> inUse) →
  Forall (λ x, f <= ipval x <= l) inUse →
  (l ∈ ipval <$> inUse ↔ l - 1 ∈ ipval <$> inUse) →
  ∃ rs, run subnetUnreservedIPRanges cidr inUse = Ok rs ∧
        unreserved_guarantee f l (ipval <$> inUse) rs ∧
        Forall (λ r, NumAddresses r = endUint r - startUint r + 1) rs.
Proof.
  intros Hcidr Hones f l.
  destruct (usable_span cidr ipNet Hcidr Hones)
    as (f' & l' & Hf & Hl & Hfl & Hbound & _).
  subst f l. rewrite Hf, Hl. simpl ipval. intros Hnd Hin Hlast.
  rewrite (run_subnetUnreservedIPRanges cidr inUse ipNet Hcidr).
  eexists. split; [done|].
  by apply (unreservedRanges_correct ipNet inUse f' l').
Qed.

(** ** Statistics where the unreserved ranges are right *)

Lemma run_subnetStatistics (cidr : string) (inUse : list IP) (ipNet : IPNet)
    (includeRanges : bool) :
  ParseCIDR cidr = Some ipNet →
  run (λ s, subnetStatistics s includeRanges) cidr inUse
  = Ok (let total := wrap64 (shl64 1 (Mask_bits ipNet - Mask_ones ipNet) - 2) in
        let unavailable := Z.of_nat (length inUse) in
        let reserved := unreservedRanges ipNet (sort_list inUse) in
        {| NumAvailable := wrap64 (total - unavailable);
           LargestAvailable := largestOf reserved;
           NumUnavailable := unavailable;
           TotalAddresses := total;
           Usage := float32_div unavailable total;
           Ranges := if includeRanges then reserved else [] |}).
Proof.
  intros Hcidr. unfold run, oneSubnet, subnetStatistics, mbind, M_bind.
  cbn [CIDR InUseIPAddresses]. rewrite Hcidr. simpl checkError.
  unfold mret at 1, M_ret at 1, go_len.
  rewrite subnetUnreservedIPRanges_run by (simpl; lia).
  cbn [CIDR InUseIPAddresses]. rewrite Hcidr. done.
Qed.

Lemma largestOf_bound (m : Z) (reserved : list AddressRange) :
  0 <= m → Forall (λ r, NumAddresses r <= m) reserved → largestOf reserved <= m.
Proof.
  intros Hm. unfold largestOf. generalize 0 Hm.
  induction reserved as [|r rs IH]; simpl; intros acc Hacc Hall; [done|].
  apply Forall_cons in Hall as [Hr Hall].
  apply IH; [|done]. destruct (Z.gtb_spec (NumAddresses r) acc); lia.
Qed.

Lemma largestOf_nonneg (reserved : list AddressRange) : 0 <= largestOf reserved.
Proof.
  unfold largestOf.
  assert (Hacc : ∀ acc, 0 <= acc →
    0 <= fold_left (λ largest addressRange,
                      if NumAddresses addressRange >? largest
                      then NumAddresses addressRange else largest)
                   reserved acc); [|by apply Hacc].
  induction reserved as [|r rs IH]; simpl; intros acc Hacc; [done|].
  apply IH. destruct (Z.gtb_spec (NumAddresses r) acc); lia.
Qed.

(** Distinct integers of [f, l] outside [b, e] are at most
    [(l - f + 1) - (e - b + 1)]. *)
Lemma distinct_outside_range (vals : list Z) (f l b e : Z) :
  f <= b → b <= e → e <= l → NoDup vals →
  Forall (λ a, f <= a <= l ∧ ¬ b <= a <= e) vals →
  Z.of_nat (length vals) <= (l - f + 1) - (e - b + 1).
Proof.
  intros Hfb Hbe Hel Hnd Hall.
  assert (Hsub : vals ⊆+ seqZ f (b - f) ++ seqZ (e + 1) (l - e)).
  { apply NoDup_submseteq; [done|]. intros a Ha.
    rewrite Forall_forall in Hall. specialize (Hall a Ha).
    apply elem_of_app. rewrite !elem_of_seqZ. lia. }
  apply submseteq_length in Hsub.
  rewrite length_app, !length_seqZ in Hsub. lia.
Qed.

(** Under the conditions of [unreserved_ranges_where_correct] the
    statistics agree with the ranges: the total is the size of the usable
    span, and the largest available block is at most the number of
    available addresses. *)
Lemma statistics_where_correct (cidr : string) (ipNet : IPNet)
    (inUse : list IP) (includeRanges : bool) :
  ParseCIDR cidr = Some ipNet → Mask_ones ipNet <= 30 →
  let f := ipval (firstUsable ipNet) in
  let l := ipval (lastUsable ipNet) in
  NoDup (ipval <$> inUse) →
  Forall (λ x, f <= ipval x <= l) inUse →
  (l ∈ ipval <$> inUse ↔ l - 1 ∈ ipval <$> inUse) →
  ∃ stats,
    run (λ s, subnetStatistics s includeRanges) cidr inUse = Ok stats ∧
    TotalAddresses stats = l - f + 1 ∧
    NumAvailable stats + NumUnavailable stats = TotalAddresses stats ∧
    0 <= LargestAvailable stats <= NumAvailable stats.
Proof.
  intros Hcidr Hones f l Hnd Hin Hlast.
  destruct (usable_span cidr ipNet Hcidr Hones)
    as (f' & l' & Hf & Hl & Hfl & Hbound & Htotal).
  assert (f = f') as Ef by (unfold f; by rewrite Hf).
  assert (l = l') as El by (unfold l; by rewrite Hl).
  clearbody f l. subst f' l'.
  destruct (unreservedRanges_correct ipNet inUse f l Hf Hl Hfl Hbound
              Hnd Hin Hlast) as [Hg Hcount].
  set (rs := unreservedRanges ipNet (sort_list inUse)) in *.
  rewrite (run_subnetStatistics _ _ _ _ Hcidr). eexists. split; [done|].
  cbn [TotalAddresses NumAvailable NumUnavailable LargestAvailable]. fold rs.
  assert (Hk : 2 <= Mask_bits ipNet - Mask_ones ipNet <= 32).
  { apply ParseCIDR_inv in Hcidr as (ip & n & _ & ? & ->). simpl in *. lia. }
  destruct (pow2_k_bounds _ Hk) as [Hpow _].
  assert (Htot : wrap64 (shl64 1 (Mask_bits ipNet - Mask_ones ipNet) - 2)
                 = l - f + 1).
  { rewrite Htotal. unfold shl64.
    rewrite Z.shiftl_mul_pow2, Z.mul_1_l by lia.
    rewrite (wrap64_small (2 ^ _)) by lia. apply wrap64_small. lia. }
  rewrite Htot.
  assert (Hlen : Z.of_nat (length inUse) <= l - f + 1).
  { rewrite <- (length_fmap ipval).
    assert (Hsub : (ipval <$> inUse) ⊆+ seqZ f (l - f + 1)).
    { apply NoDup_submseteq; [done|]. intros a (x & -> & Hx)%list_elem_of_fmap.
      rewrite Forall_forall in Hin. specialize (Hin x Hx).
      apply elem_of_seqZ. lia. }
    apply submseteq_length in Hsub. rewrite length_seqZ in Hsub. lia. }
  rewrite (wrap64_small (l - f + 1 - _)) by lia.
  split; [done|]. split; [lia|].
  destruct Hg as ((Hwf & _) & Hspan & Hcover).
  split.
  { apply largestOf_nonneg. }
  apply largestOf_bound; [lia|].
  apply Forall_forall. intros r Hr.
  rewrite Forall_forall in Hcount. rewrite (Hcount r Hr).
  destruct (Hspan r Hr) as [Hlo Hhi]. specialize (Hwf r Hr).
  rewrite <- (length_fmap ipval).
  pose proof (distinct_outside_range (ipval <$> inUse) f l
                (startUint r) (endUint r) Hlo Hwf Hhi Hnd) as Hout.
  assert (Hall : Forall (λ a, f <= a <= l ∧ ¬ startUint r <= a <= endUint r)
                   (ipval <$> inUse)).
  { apply Forall_forall. intros a Ha. split.
    - apply list_elem_of_fmap in Ha as (x & -> & Hx).
      rewrite Forall_forall in Hin. by apply Hin.
    - intros Hc. assert (Hfl' : f <= a <= l) by lia.
      apply (proj1 (Hcover a Hfl')); [|done]. by exists r. }
  specialize (Hout Hall). lia.
Qed.

(** ** The scenarios of the specification that the code meets *)

(** Fragmented usage: [10.0.0.0/28] with [.3], [.4], [.5] and [.9] in
    use. *)
Example fragmented_scenario :
  let inUse := [ip4 10 0 0 9; ip4 10 0 0 4; ip4 10 0 0 3; ip4 10 0 0 5] in
  run subnetReservedIPRanges "10.0.0.0/28" inUse
    = Ok [mkRange (ip4 10 0 0 3) (ip4 10 0 0 5);
          mkRange (ip4 10 0 0 9) (ip4 10 0 0 9)] ∧
  run subnetUnreservedIPRanges "10.0.0.0/28" inUse
    = Ok [mkRange (ip4 10 0 0 1) (ip4 10 0 0 2);
          mkRange (ip4 10 0 0 6) (ip4 10 0 0 8);
          mkRange (ip4 10 0 0 10) (ip4 10 0 0 14)] ∧
  NumAddresses <$> [mkRange (ip4 10 0 0 1) (ip4 10 0 0 2);
                    mkRange (ip4 10 0 0 6) (ip4 10 0 0 8);
                    mkRange (ip4 10 0 0 10) (ip4 10 0 0 14)] = [2; 3; 5] ∧
  ∃ stats, run (λ s, subnetStatistics s false) "10.0.0.0/28" inUse = Ok stats
           ∧ LargestAvailable stats = 5.
Proof.
  cbv zeta. repeat split; try (vm_compute; reflexivity).
  eexists. split; vm_compute; reflexivity.
Qed.

(** Full usage: [10.0.0.0/29] with its six usable addresses in use. *)
Example full_usage_scenario :
  let inUse := [ip4 10 0 0 1; ip4 10 0 0 2; ip4 10 0 0 3;
                ip4 10 0 0 4; ip4 10 0 0 5; ip4 10 0 0 6] in
  run subnetUnreservedIPRanges "10.0.0.0/29" inUse = Ok [] ∧
  run (λ s, subnetStatistics s false) "10.0.0.0/29" inUse
    = Ok {| NumAvailable := 0; LargestAvailable := 0; NumUnavailable := 6;
            TotalAddresses := 6; Usage := F32Val (6 # 6); Ranges := [] |}.
Proof. split; vm_compute; reflexivity. Qed.

(** Empty usage: [192.168.1.0/24] with no address in use. *)
Example empty_usage_scenario :
  run subnetUnreservedIPRanges "192.168.1.0/24" []
    = Ok [mkRange (ip4 192 168 1 1) (ip4 192 168 1 254)] ∧
  NumAddresses (mkRange (ip4 192 168 1 1) (ip4 192 168 1 254)) = 254.
Proof. split; vm_compute; reflexivity. Qed.

(** The conditions of [unreserved_ranges_where_correct] hold in the
    fragmented scenario. *)
Lemma unreserved_ranges_where_correct_witness :
  let ipNet := mkIPNet (ip4 10 0 0 0) 28 32 in
  let inUse := [ip4 10 0 0 9; ip4 10 0 0 4; ip4 10 0 0 3; ip4 10 0 0 5] in
  ∃ rs, run subnetUnreservedIPRanges "10.0.0.0/28" inUse = Ok rs ∧
        unreserved_guarantee (ipval (firstUsable ipNet))
          (ipval (lastUsable ipNet)) (ipval <$> inUse) rs ∧
        Forall (λ r, NumAddresses r = endUint r - startUint r + 1) rs.
Proof.
  apply (unreserved_ranges_where_correct "10.0.0.0/28"
           (mkIPNet (ip4 10 0 0 0) 28 32)).
  - vm_compute; reflexivity.
  - simpl; lia.
  - apply (bool_decide_unpack _). vm_compute. exact I.
  - apply (bool_decide_unpack _). vm_compute. exact I.
  - apply (bool_decide_unpack _). vm_compute. exact I.
Defined.

(** ** The decoder of devices, by controller version *)

Section DispatchProofs.
Context {Number : Type} `{EqDecision Number}.
Variable Compare : Number → Number → Z.
Variable Zero : Number.
Context {decoder : Type}.

Hypothesis Compare_eq : ∀ v w, Compare v w = 0 ↔ v = w.
Hypothesis Compare_opp : ∀ v w, Compare v w > 0 ↔ Compare w v < 0.
Hypothesis Compare_trans :
  ∀ u v w, Compare u v <= 0 → Compare v w <= 0 → Compare u w <= 0.

#[local] Abbreviation select_step := (select_step Compare).
#[local] Abbreviation getDeviceDeserializationFunc :=
  (getDeviceDeserializationFunc Compare Zero).

Lemma Compare_refl v : Compare v v = 0.
Proof. by apply Compare_eq. Qed.

Lemma Compare_gt_le v w : Compare v w > 0 → Compare w v <= 0.
Proof. intros Hgt. apply Compare_opp in Hgt. lia. Qed.

Lemma Compare_antisym v w : Compare v w <= 0 → Compare w v <= 0 → v = w.
Proof.
  intros Hvw Hwv. apply Compare_eq.
  destruct (Z.eq_dec (Compare v w) 0) as [|Hne]; [done|].
  assert (Hlt : Compare v w < 0) by lia.
  apply Compare_opp in Hlt. lia.
Qed.

(** The loop keeps the greatest key seen that does not exceed the
    controller's version and exceeds the initial one. *)
Lemma select_fold (cv : Number) (enum : list Number) (d0 : Number) :
  let r := fold_left (select_step cv) enum d0 in
  (r = d0 ∨ (r ∈ enum ∧ Compare r cv <= 0 ∧ Compare r d0 > 0)) ∧
  Compare d0 r <= 0 ∧
  (∀ k, k ∈ enum → Compare k cv <= 0 → Compare k r <= 0).
Proof.
  revert d0. induction enum as [|v enum IH]; intros d0; simpl.
  - split; [by left|]. split; [rewrite Compare_refl; lia|].
    intros k Hk. by apply elem_of_nil in Hk.
  - destruct (IH (select_step cv d0 v)) as (Hr & Hle & Hmax).
    set (r := fold_left (select_step cv) enum (select_step cv d0 v)) in *.
    unfold select_step in Hr, Hle.
    destruct (Compare v d0 >? 0) eqn:Hgt; simpl in Hr, Hle.
    + destruct (Compare v cv <=? 0) eqn:Hcv; simpl in Hr, Hle.
      * apply Z.gtb_lt in Hgt. apply Z.leb_le in Hcv.
        assert (Hd0v : Compare d0 v <= 0) by (apply Compare_gt_le; lia).
        assert (Hrd0 : Compare d0 r <= 0) by eauto.
        split; [|split; [done|]].
        -- right. destruct Hr as [-> | (Hin & Hrcv & Hrv)].
           ++ split; [by left|]. split; [done|lia].
           ++ split; [by right|]. split; [done|].
              destruct (Z_gt_le_dec (Compare r d0) 0) as [|Hle']; [done|].
              assert (r = d0) as -> by (by apply Compare_antisym).
              apply Compare_opp in Hrv. lia.
        -- intros k Hk Hkcv. apply elem_of_cons in Hk as [-> | Hk]; eauto.
      * apply Z.leb_gt in Hcv.
        split; [|split; [done|]].
        -- destruct Hr as [-> | (Hin & Hrcv & Hrv)]; [by left|].
           right. split; [by right|]. done.
        -- intros k Hk Hkcv. apply elem_of_cons in Hk as [-> | Hk]; [lia|eauto].
    + assert (Hvd0 : Compare v d0 <= 0).
      { destruct (Z_gt_le_dec (Compare v d0) 0) as [Hp|]; [|done].
        apply Z.gt_lt, Z.gtb_lt in Hp. congruence. }
      split; [|split; [done|]].
      * destruct Hr as [-> | (Hin & Hrcv & Hrv)]; [by left|].
        right. split; [by right|]. done.
      * intros k Hk Hkcv. apply elem_of_cons in Hk as [-> | Hk]; eauto.
Qed.

Lemma map_index_elem (m : list (Number * decoder)) (k : Number) (f : decoder) :
  NoDup m.*1 → (k, f) ∈ m → map_index m k = Some f.
Proof.
  induction m as [|[k' f'] m IH]; simpl; intros Hnd Hin.
  - by apply elem_of_nil in Hin.
  - apply NoDup_cons in Hnd as [Hnotin Hnd].
    apply elem_of_cons in Hin as [Heq | Hin].
    + injection Heq as -> ->. by rewrite decide_True.
    + rewrite decide_False; [by apply IH|].
      intros ->. apply Hnotin. apply list_elem_of_fmap. by exists (k, f).
Qed.

Section Selection.
Variable funcs : list (Number * decoder).
Variable enum : list Number.
Variable controllerVersion : Number.
Hypothesis funcs_keys : NoDup funcs.*1.
Hypothesis enum_keys : enum ≡ₚ funcs.*1.
Hypothesis keys_positive : ∀ k, k ∈ funcs.*1 → Compare k Zero > 0.

Lemma selection_greatest (k : Number) (f : decoder) :
  (k, f) ∈ funcs →
  Compare k controllerVersion <= 0 →
  (∀ k', k' ∈ funcs.*1 → Compare k' controllerVersion <= 0 →
         Compare k' k <= 0) →
  getDeviceDeserializationFunc funcs enum controllerVersion = Decoder (Some f).
Proof.
  intros Hin Hk Hgreatest. unfold getDeviceDeserializationFunc.
  destruct (select_fold controllerVersion enum Zero) as (Hr & _ & Hmax).
  set (r := fold_left (select_step controllerVersion) enum Zero) in *.
  assert (Hkin : k ∈ funcs.*1).
  { apply list_elem_of_fmap. by exists (k, f). }
  assert (Hkr : Compare k r <= 0).
  { apply Hmax; [|done]. by rewrite enum_keys. }
  destruct Hr as [Hr0 | (Hrin & Hrcv & _)].
  - rewrite Hr0 in Hkr. specialize (keys_positive k Hkin). lia.
  - rewrite enum_keys in Hrin.
    assert (r = k) as ->.
    { apply Compare_antisym; [|done]. by apply Hgreatest. }
    rewrite decide_False.
    + by rewrite (map_index_elem funcs k f).
    + intros Hz. specialize (keys_positive k Hkin).
      rewrite Hz, Compare_refl in keys_positive. lia.
Qed.

Lemma selection_unsupported :
  getDeviceDeserializationFunc funcs enum controllerVersion
    = UnsupportedVersionError controllerVersion
  ↔ ∀ k, k ∈ funcs.*1 → ¬ Compare k controllerVersion <= 0.
Proof.
  unfold getDeviceDeserializationFunc.
  destruct (select_fold controllerVersion enum Zero) as (Hr & _ & Hmax).
  set (r := fold_left (select_step controllerVersion) enum Zero) in *.
  split.
  - destruct (decide (r = Zero)) as [Hz|]; [|done].
    intros _ k Hkin Hk.
    assert (Hkr : Compare k r <= 0).
    { apply Hmax; [|done]. by rewrite enum_keys. }
    rewrite Hz in Hkr. specialize (keys_positive k Hkin). lia.
  - intros Hnone. destruct Hr as [-> | (Hrin & Hrcv & _)].
    + by rewrite decide_True.
    + rewrite enum_keys in Hrin. by destruct (Hnone r Hrin).
Qed.

(** Some registered key is the greatest one not exceeding the
    controller's version, unless there is none at all. *)
Lemma selection_cases :
  (∀ k, k ∈ funcs.*1 → ¬ Compare k controllerVersion <= 0) ∨
  (∃ k f, (k, f) ∈ funcs ∧ Compare k controllerVersion <= 0 ∧
          ∀ k', k' ∈ funcs.*1 → Compare k' controllerVersion <= 0 →
                Compare k' k <= 0).
Proof.
  destruct (select_fold controllerVersion enum Zero) as (Hr & _ & Hmax).
  set (r := fold_left (select_step controllerVersion) enum Zero) in *.
  destruct Hr as [Hz | (Hrin & Hrcv & _)].
  - left. intros k Hkin Hk.
    assert (Hkr : Compare k r <= 0).
    { apply Hmax; [|done]. by rewrite enum_keys. }
    rewrite Hz in Hkr. specialize (keys_positive k Hkin). lia.
  - right. rewrite enum_keys in Hrin.
    apply list_elem_of_fmap in Hrin as ([k f] & -> & Hin).
    exists k, f. split; [done|]. split; [done|].
    intros k' Hk' Hk'cv. apply Hmax; [|done]. by rewrite enum_keys.
Qed.
End Selection.

(** C10.  With the registered keys above [version.Zero]: the selection
    returns the decoder registered under the greatest key that does not
    exceed the controller's version; it returns the unsupported-version
    error exactly when no registered key is at or below that version;
    and the order in which the keys are enumerated does not change what
    it returns. *)
Theorem decoder_selection (funcs : list (Number * decoder))
    (enum : list Number) (controllerVersion : Number)
    (funcs_keys : NoDup funcs.*1)
    (enum_keys : enum ≡ₚ funcs.*1)
    (keys_positive : ∀ k, k ∈ funcs.*1 → Compare k Zero > 0) :
  (∀ k f, (k, f) ∈ funcs →
     Compare k controllerVersion <= 0 →
     (∀ k', k' ∈ funcs.*1 → Compare k' controllerVersion <= 0 →
            Compare k' k <= 0) →
     getDeviceDeserializationFunc funcs enum controllerVersion
       = Decoder (Some f)) ∧
  (getDeviceDeserializationFunc funcs enum controllerVersion
     = UnsupportedVersionError controllerVersion
   ↔ ∀ k, k ∈ funcs.*1 → ¬ Compare k controllerVersion <= 0) ∧
  (∀ enum', enum' ≡ₚ funcs.*1 →
     getDeviceDeserializationFunc funcs enum' controllerVersion
       = getDeviceDeserializationFunc funcs enum controllerVersion).
Proof.
  split; [|split].
  - intros k f. by apply selection_greatest.
  - by apply selection_unsupported.
  - intros enum' enum'_keys.
    destruct (selection_cases funcs enum controllerVersion enum_keys
                keys_positive) as [Hnone | (k & f & Hin & Hk & Hgreatest)].
    + assert (Hrun : getDeviceDeserializationFunc funcs enum controllerVersion
                     = UnsupportedVersionError controllerVersion)
        by (by apply selection_unsupported).
      assert (Hrun' : getDeviceDeserializationFunc funcs enum' controllerVersion
                      = UnsupportedVersionError controllerVersion)
        by (by apply selection_unsupported).
      by rewrite Hrun, Hrun'.
    + rewrite (selection_greatest funcs enum controllerVersion
                 funcs_keys enum_keys keys_positive k f) by done.
      by apply (selection_greatest funcs enum' controllerVersion
                  funcs_keys enum'_keys keys_positive k f).
Qed.
End DispatchProofs.

(** ** The order of [Number.Compare] *)

Lemma string_bytes_inj (s t : string) : string_bytes s = string_bytes t → s = t.
Proof.
  revert t. induction s as [|a s IH]; intros [|b t]; simpl; try done.
  intros [= Hab Hst]. f_equal; [|by apply IH].
  by rewrite <- (ascii_N_embedding a), <- (ascii_N_embedding b), Hab.
Qed.

Lemma Number_key_inj (v w : Number) : Number_key v = Number_key w → v = w.
Proof.
  destruct v, w. unfold Number_key; simpl.
  intros [= -> -> _ Htag%string_bytes_inj -> ->]. by subst.
Qed.

Lemma string_lt_lexico (s t : string) :
  string_lt s t = true ↔ lexico (string_bytes s) (string_bytes t).
Proof.
  revert t. induction s as [|a s IH]; intros [|b t]; simpl; try done.
  unfold lexico at 1; simpl. fold (string_bytes s) (string_bytes t).
  change (list_lexico (string_bytes s) (string_bytes t))
    with (lexico (string_bytes s) (string_bytes t)).
  unfold lexico at 1, prod_lexico, lexico at 1, N_lexico; simpl.
  destruct (N.ltb_spec (N_of_ascii a) (N_of_ascii b)) as [Hlt|Hge].
  - split; [by left|done].
  - destruct (N.eqb_spec (N_of_ascii a) (N_of_ascii b)) as [Heq|Hne].
    + rewrite IH. split; [by right|]. intros [Hlt | [_ Hrec]]; [lia|done].
    + split; [done|]. intros [Hlt | [Heq _]]; [lia|done].
Qed.

Lemma prod_lexico_ne `{Lexico A, Lexico B} (x1 x2 : A) (y1 y2 : B) :
  x1 ≠ x2 → lexico (x1, y1) (x2, y2) ↔ lexico x1 x2.
Proof. intros Hne. unfold lexico at 1, prod_lexico; simpl. tauto. Qed.

Lemma prod_lexico_eq `{Lexico A, Lexico B, !Irreflexive (@lexico A _)}
    (x : A) (y1 y2 : B) :
  lexico (x, y1) (x, y2) ↔ lexico y1 y2.
Proof.
  unfold lexico at 1, prod_lexico; simpl. split; [|by right].
  intros [Hlt | [_ Hlt]]; [|done]. by apply irreflexivity in Hlt.
Qed.

Lemma less_lt (less : bool) : (if less then -1 else 1) < 0 ↔ less = true.
Proof. destruct less; split; (lia || done). Qed.

Lemma Number_Compare_lt (v w : Number) :
  Number_Compare v w < 0 ↔ lexico (Number_key v) (Number_key w).
Proof.
  unfold Number_Compare. destruct (decide (v = w)) as [->|Hne].
  { split; [lia|]. intros Hlt. by apply (irreflexivity lexico) in Hlt. }
  rewrite less_lt.
  destruct v as [a b t c d], w as [a' b' t' c' d'].
  unfold Number_key; simpl.
  destruct (decide (a ≠ a')) as [Ha|Ha].
  { rewrite prod_lexico_ne by done. apply bool_decide_eq_true. }
  apply dec_stable in Ha as <-. rewrite prod_lexico_eq.
  destruct (decide (b ≠ b')) as [Hb|Hb].
  { rewrite prod_lexico_ne by done. apply bool_decide_eq_true. }
  apply dec_stable in Hb as <-. rewrite prod_lexico_eq.
  destruct (decide (t ≠ t')) as [Ht|Ht].
  { rewrite prod_lexico_ne
      by (intros [= _ Hbytes%string_bytes_inj]; done).
    destruct (decide (t = "")) as [->|Ht0].
    - rewrite bool_decide_eq_true_2 by done.
      rewrite (bool_decide_eq_false_2 (t' = "")) by done.
      rewrite prod_lexico_ne by done. done.
    - rewrite (bool_decide_eq_false_2 (t = "")) by done.
      destruct (decide (t' = "")) as [->|Ht0'].
      + rewrite bool_decide_eq_true_2 by done.
        rewrite prod_lexico_ne by done. done.
      + rewrite (bool_decide_eq_false_2 (t' = "")) by done.
        rewrite prod_lexico_eq. apply string_lt_lexico. }
  apply dec_stable in Ht as <-. rewrite prod_lexico_eq.
  destruct (decide (c ≠ c')) as [Hc|Hc].
  { rewrite prod_lexico_ne by done. apply bool_decide_eq_true. }
  apply dec_stable in Hc as <-. rewrite prod_lexico_eq.
  destruct (decide (d ≠ d')) as [Hd|Hd].
  { apply bool_decide_eq_true. }
  apply dec_stable in Hd as <-. done.
Qed.

Lemma Number_Compare_eq (v w : Number) : Number_Compare v w = 0 ↔ v = w.
Proof.
  unfold Number_Compare. destruct (decide (v = w)) as [->|Hne]; [done|].
  split; [|done]. by destruct (if decide _ then _ else _).
Qed.

Lemma Number_Compare_gt (v w : Number) :
  Number_Compare v w > 0 ↔ lexico (Number_key w) (Number_key v).
Proof.
  pose proof (Number_Compare_lt v w) as Hlt.
  pose proof (Number_Compare_eq v w) as Heq.
  destruct (trichotomyT lexico (Number_key v) (Number_key w))
    as [[Hvw | Hkey] | Hwv].
  - split; [intros; apply Hlt in Hvw; lia|].
    intros Hwv. destruct (irreflexivity lexico (Number_key v)).
    by transitivity (Number_key w).
  - apply Number_key_inj in Hkey as ->.
    split; [intros; assert (Number_Compare w w = 0) by (by apply Number_Compare_eq); lia|].
    intros Hww. by apply (irreflexivity lexico) in Hww.
  - split; [done|]. intros _.
    destruct (Z_dec (Number_Compare v w) 0) as [[Hneg|Hpos]|Hz]; [|lia|].
    + apply Hlt in Hneg. destruct (irreflexivity lexico (Number_key v)).
      by transitivity (Number_key w).
    + apply Heq in Hz as ->. by apply (irreflexivity lexico) in Hwv.
Qed.

Lemma Number_Compare_le (v w : Number) :
  Number_Compare v w <= 0 ↔ v = w ∨ lexico (Number_key v) (Number_key w).
Proof.
  rewrite <- Number_Compare_lt, <- Number_Compare_eq. lia.
Qed.

Lemma Number_Compare_opp (v w : Number) :
  Number_Compare v w > 0 ↔ Number_Compare w v < 0.
Proof. by rewrite Number_Compare_gt, Number_Compare_lt. Qed.

Lemma Number_Compare_trans (u v w : Number) :
  Number_Compare u v <= 0 → Number_Compare v w <= 0 → Number_Compare u w <= 0.
Proof.
  rewrite !Number_Compare_le.
  intros [->|Huv] [->|Hvw]; eauto.
  right. by transitivity (Number_key v).
Qed.

(** The selection on the registered table, for a controller at 2.1. *)
Lemma decoder_selection_witness :
  (∀ k f, (k, f) ∈ deviceDeserializationFuncs →
     Number_Compare k (mkNumber 2 1 "" 0 0) <= 0 →
     (∀ k', k' ∈ deviceDeserializationFuncs.*1 →
            Number_Compare k' (mkNumber 2 1 "" 0 0) <= 0 →
            Number_Compare k' k <= 0) →
     getDeviceDeserializationFunc Number_Compare version_Zero
       deviceDeserializationFuncs [twoDotOh] (mkNumber 2 1 "" 0 0)
       = Decoder (Some f)) ∧
  (getDeviceDeserializationFunc Number_Compare version_Zero
     deviceDeserializationFuncs [twoDotOh] (mkNumber 2 1 "" 0 0)
     = UnsupportedVersionError (mkNumber 2 1 "" 0 0)
   ↔ ∀ k, k ∈ deviceDeserializationFuncs.*1 →
          ¬ Number_Compare k (mkNumber 2 1 "" 0 0) <= 0) ∧
  (∀ enum', enum' ≡ₚ deviceDeserializationFuncs.*1 →
     getDeviceDeserializationFunc Number_Compare version_Zero
       deviceDeserializationFuncs enum' (mkNumber 2 1 "" 0 0)
       = getDeviceDeserializationFunc Number_Compare version_Zero
           deviceDeserializationFuncs [twoDotOh] (mkNumber 2 1 "" 0 0)).
Proof.
  apply (decoder_selection Number_Compare version_Zero
           Number_Compare_eq Number_Compare_opp Number_Compare_trans
           deviceDeserializationFuncs [twoDotOh] (mkNumber 2 1 "" 0 0)).
  - apply NoDup_singleton.
  - reflexivity.
  - intros k Hk. apply list_elem_of_singleton in Hk as ->. reflexivity.
Defined.

(** The registered table at work: a controller at 2.1 gets [device_2_0],
    a controller at 1.9 the error. *)
Example selection_on_registered_table :
  getDeviceDeserializationFunc Number_Compare version_Zero
    deviceDeserializationFuncs [twoDotOh] (mkNumber 2 1 "" 0 0)
    = Decoder (Some device_2_0) ∧
  getDeviceDeserializationFunc Number_Compare version_Zero
    deviceDeserializationFuncs [twoDotOh] (mkNumber 1 9 "" 0 0)
    = UnsupportedVersionError (mkNumber 1 9 "" 0 0).
Proof. split; reflexivity. Qed.

(** On the registered table, whatever the controller's version and the
    order of enumeration: [device_2_0] from version 2.0 on, the error
    below. *)
Lemma selection_on_registered_table_all (enum : list Number)
    (controllerVersion : Number) :
  enum ≡ₚ deviceDeserializationFuncs.*1 →
  getDeviceDeserializationFunc Number_Compare version_Zero
    deviceDeserializationFuncs enum controllerVersion
  = if decide (Number_Compare twoDotOh controllerVersion <= 0)
    then Decoder (Some device_2_0)
    else UnsupportedVersionError controllerVersion.
Proof.
  intros Henum.
  assert (Hkeys : NoDup deviceDeserializationFuncs.*1) by apply NoDup_singleton.
  assert (Hpos : ∀ k, k ∈ deviceDeserializationFuncs.*1 →
                      Number_Compare k version_Zero > 0).
  { intros k Hk. apply list_elem_of_singleton in Hk as ->. reflexivity. }
  destruct (decide (Number_Compare twoDotOh controllerVersion <= 0)) as [Hle|Hgt].
  - apply (selection_greatest Number_Compare version_Zero
             Number_Compare_eq Number_Compare_opp Number_Compare_trans
             deviceDeserializationFuncs enum controllerVersion
             Hkeys Henum Hpos twoDotOh device_2_0); [by left|done|].
    intros k Hk _. apply list_elem_of_singleton in Hk as ->.
    simpl. by rewrite (proj2 (Number_Compare_eq twoDotOh twoDotOh) eq_refl).
  - apply (selection_unsupported Number_Compare version_Zero
             Number_Compare_eq Number_Compare_opp Number_Compare_trans
             deviceDeserializationFuncs enum controllerVersion Henum Hpos).
    intros k Hk. by apply list_elem_of_singleton in Hk as ->.
Qed.

(** * Further properties of the subnet accounting *)

Lemma reserved_ranges_characterised_witness :
  let inUse := [ip4 10 0 0 9; ip4 10 0 0 4; ip4 10 0 0 3; ip4 10 0 0 5] in
  ∃ rs, run subnetReservedIPRanges "10.0.0.0/28" inUse = Ok rs ∧
        reserved_guarantee (ipval <$> inUse) rs ∧
        Forall (λ r, NumAddresses r = endUint r - startUint r + 1) rs.
Proof.
  cbv zeta.
  refine (proj1 (reserved_ranges_characterised "10.0.0.0/28" _ _) _).
  - apply (bool_decide_unpack _). vm_compute. exact I.
  - exists (ipval (ip4 10 0 0 5)), (ipval (ip4 10 0 0 6)), (ipval (ip4 10 0 0 9)).
    repeat split; try (vm_compute; discriminate).
    + apply (bool_decide_unpack _). vm_compute. exact I.
    + apply (bool_decide_unpack _). vm_compute. exact I.
    + apply (bool_decide_unpack _). vm_compute. exact I.
Defined.

Lemma reserved_ranges_ignore_duplicates_witness :
  run subnetReservedIPRanges "10.0.0.0/28"
    [ip4 10 0 0 9; ip4 10 0 0 3; ip4 10 0 0 9; ip4 10 0 0 3; ip4 10 0 0 4]
  = run subnetReservedIPRanges "10.0.0.0/28"
      (remove_dups
         [ip4 10 0 0 9; ip4 10 0 0 3; ip4 10 0 0 9; ip4 10 0 0 3; ip4 10 0 0 4]).
Proof.
  apply (reserved_ranges_ignore_duplicates "10.0.0.0/28"
           [ip4 10 0 0 9; ip4 10 0 0 3; ip4 10 0 0 9; ip4 10 0 0 3; ip4 10 0 0 4]).
  apply (bool_decide_unpack _). vm_compute. exact I.
Defined.

Lemma statistics_where_correct_witness :
  ∃ stats,
    run (λ s, subnetStatistics s true) "10.0.0.0/28"
      [ip4 10 0 0 9; ip4 10 0 0 4; ip4 10 0 0 3; ip4 10 0 0 5] = Ok stats ∧
    TotalAddresses stats
      = ipval (lastUsable (mkIPNet (ip4 10 0 0 0) 28 32))
        - ipval (firstUsable (mkIPNet (ip4 10 0 0 0) 28 32)) + 1 ∧
    NumAvailable stats + NumUnavailable stats = TotalAddresses stats ∧
    0 <= LargestAvailable stats <= NumAvailable stats.
Proof.
  apply (statistics_where_correct "10.0.0.0/28" (mkIPNet (ip4 10 0 0 0) 28 32)
           [ip4 10 0 0 9; ip4 10 0 0 4; ip4 10 0 0 3; ip4 10 0 0 5] true).
  - vm_compute; reflexivity.
  - simpl; lia.
  - apply (bool_decide_unpack _). vm_compute. exact I.
  - apply (bool_decide_unpack _). vm_compute. exact I.
  - apply (bool_decide_unpack _). vm_compute. exact I.
Defined.

(** ** The order of the addresses in use *)

Lemma sort_list_of_permutation (l1 l2 : list IP) :
  l1 ≡ₚ l2 → sort_list l1 = sort_list l2.
Proof.
  intros Hperm. apply sort_list_unique; [|apply sort_list_sorted].
  by rewrite sort_list_perm.
Qed.

Lemma run_subnetUnreservedIPRanges_any (cidr : string) (inUse : list IP) :
  run subnetUnreservedIPRanges cidr inUse
  = match ParseCIDR cidr with
    | Some ipNet => Ok (unreservedRanges ipNet (sort_list inUse))
    | None => Panic "invalid CIDR address"
    end.
Proof.
  unfold run, oneSubnet.
  by rewrite subnetUnreservedIPRanges_run by (simpl; lia).
Qed.

Lemma run_subnetStatistics_malformed (cidr : string) (inUse : list IP)
    (includeRanges : bool) :
  ParseCIDR cidr = None →
  run (λ s, subnetStatistics s includeRanges) cidr inUse
  = Panic "invalid CIDR address".
Proof.
  intros Hcidr. unfold run, oneSubnet, subnetStatistics, mbind, M_bind.
  cbn [CIDR]. by rewrite Hcidr.
Qed.

(** The three results are those of any other order of the same addresses
    in use. *)
Theorem results_ignore_order (cidr : string) (inUse inUse' : list IP)
    (includeRanges : bool) (Hperm : inUse ≡ₚ inUse') :
  run subnetUnreservedIPRanges cidr inUse
    = run subnetUnreservedIPRanges cidr inUse' ∧
  run subnetReservedIPRanges cidr inUse
    = run subnetReservedIPRanges cidr inUse' ∧
  run (λ s, subnetStatistics s includeRanges) cidr inUse
    = run (λ s, subnetStatistics s includeRanges) cidr inUse'.
Proof.
  pose proof (sort_list_of_permutation _ _ Hperm) as Hsort.
  split; [|split].
  - by rewrite !run_subnetUnreservedIPRanges_any, Hsort.
  - by rewrite !run_subnetReservedIPRanges, Hsort.
  - destruct (ParseCIDR cidr) as [ipNet|] eqn:Hcidr.
    + rewrite !(run_subnetStatistics _ _ ipNet) by done.
      by rewrite Hsort, (Permutation_length Hperm).
    + by rewrite !run_subnetStatistics_malformed.
Qed.

Lemma results_ignore_order_witness :
  run subnetUnreservedIPRanges "10.0.0.0/28"
      [ip4 10 0 0 9; ip4 10 0 0 4; ip4 10 0 0 3]
    = run subnetUnreservedIPRanges "10.0.0.0/28"
        [ip4 10 0 0 3; ip4 10 0 0 9; ip4 10 0 0 4] ∧
  run subnetReservedIPRanges "10.0.0.0/28"
      [ip4 10 0 0 9; ip4 10 0 0 4; ip4 10 0 0 3]
    = run subnetReservedIPRanges "10.0.0.0/28"
        [ip4 10 0 0 3; ip4 10 0 0 9; ip4 10 0 0 4] ∧
  run (λ s, subnetStatistics s true) "10.0.0.0/28"
      [ip4 10 0 0 9; ip4 10 0 0 4; ip4 10 0 0 3]
    = run (λ s, subnetStatistics s true) "10.0.0.0/28"
        [ip4 10 0 0 3; ip4 10 0 0 9; ip4 10 0 0 4].
Proof.
  apply (results_ignore_order "10.0.0.0/28"
           [ip4 10 0 0 9; ip4 10 0 0 4; ip4 10 0 0 3]
           [ip4 10 0 0 3; ip4 10 0 0 9; ip4 10 0 0 4] true).
  apply (bool_decide_unpack _). vm_compute. exact I.
Defined.

(** ** The usable span and the total *)

Lemma usable_span_explicit (cidr : string) (ipNet : IPNet) :
  ParseCIDR cidr = Some ipNet → Mask_ones ipNet <= 30 →
  let net := ipval (IPNet_IP ipNet) in
  let k := Mask_bits ipNet - Mask_ones ipNet in
  2 <= k <= 32 ∧ 0 <= net ∧ net + 2 ^ k <= 2 ^ 32 ∧
  firstUsable ipNet = mkIP (net + 1) ∧
  lastUsable ipNet = mkIP (net + 2 ^ k - 2).
Proof.
  intros (ip & n & Hip & Hn & ->)%ParseCIDR_inv Hones. simpl in Hones.
  cbn [IPNet_IP ipval Mask_bits Mask_ones].
  set (k := 32 - n). assert (Hk : 2 <= k <= 32) by lia.
  destruct (pow2_k_bounds k Hk) as [Hpow _].
  destruct (net_range k Hk ip Hip) as [Hn0 Hn1].
  set (net := Z.land ip (2 ^ 32 - 2 ^ k)) in *.
  assert (Hf : firstUsable (mkIPNet (mkIP net) n 32) = mkIP (net + 1)).
  { unfold firstUsable, IPFromNetIP, IP_UInt64; simpl.
    apply IP_SetUInt64_small. lia. }
  repeat split; try done; try lia.
  unfold lastUsable. rewrite Hf. cbn [Mask_bits Mask_ones].
  fold k. rewrite (host_bits k Hk). unfold IP_UInt64; simpl ipval.
  rewrite (broadcast_of_first k Hk ip
             : Z.lor (net + 1) (2 ^ k - 1) = net + 2 ^ k - 1).
  replace (net + 2 ^ k - 1 - 1) with (net + 2 ^ k - 2) by lia.
  apply IP_SetUInt64_small. lia.
Qed.

Lemma total_of_prefix (k : Z) :
  2 <= k <= 32 → wrap64 (shl64 1 k - 2) = 2 ^ k - 2.
Proof.
  intros Hk. destruct (pow2_k_bounds k Hk) as [Hpow _].
  unfold shl64. rewrite Z.shiftl_mul_pow2, Z.mul_1_l by lia.
  rewrite (wrap64_small (2 ^ k)) by lia. apply wrap64_small. lia.
Qed.

(** For a prefix of at most 30 bits the first usable address is one above
    the network address, the last usable one is above the first, and the
    total of the statistics is the number of addresses from the first to
    the last, [2^(32 - prefix) - 2], whatever is in use. *)
Theorem total_is_usable_span (cidr : string) (ipNet : IPNet)
    (inUse : list IP) (includeRanges : bool)
    (Hcidr : ParseCIDR cidr = Some ipNet) (Hones : Mask_ones ipNet <= 30) :
  ipval (firstUsable ipNet) = ipval (IPNet_IP ipNet) + 1 ∧
  ipval (firstUsable ipNet) < ipval (lastUsable ipNet) ∧
  ∃ stats,
    run (λ s, subnetStatistics s includeRanges) cidr inUse = Ok stats ∧
    TotalAddresses stats
      = ipval (lastUsable ipNet) - ipval (firstUsable ipNet) + 1 ∧
    TotalAddresses stats = 2 ^ (32 - Mask_ones ipNet) - 2.
Proof.
  destruct (usable_span_explicit cidr ipNet Hcidr Hones)
    as (Hk & Hnet & Hblock & Hf & Hl).
  assert (Hbits : Mask_bits ipNet = 32).
  { apply ParseCIDR_inv in Hcidr as (ip & n & _ & _ & ->). done. }
  destruct (pow2_k_bounds _ Hk) as [Hpow _].
  rewrite Hf, Hl. simpl ipval. split; [done|]. split; [lia|].
  rewrite (run_subnetStatistics _ _ _ _ Hcidr). eexists. split; [done|].
  cbn [TotalAddresses]. rewrite (total_of_prefix _ Hk), Hbits. lia.
Qed.

Lemma total_is_usable_span_witness :
  ipval (firstUsable (mkIPNet (ip4 192 168 1 0) 24 32))
    = ipval (IPNet_IP (mkIPNet (ip4 192 168 1 0) 24 32)) + 1 ∧
  ipval (firstUsable (mkIPNet (ip4 192 168 1 0) 24 32))
    < ipval (lastUsable (mkIPNet (ip4 192 168 1 0) 24 32)) ∧
  ∃ stats,
    run (λ s, subnetStatistics s false) "192.168.1.77/24" [ip4 192 168 1 9]
      = Ok stats ∧
    TotalAddresses stats
      = ipval (lastUsable (mkIPNet (ip4 192 168 1 0) 24 32))
        - ipval (firstUsable (mkIPNet (ip4 192 168 1 0) 24 32)) + 1 ∧
    TotalAddresses stats
      = 2 ^ (32 - Mask_ones (mkIPNet (ip4 192 168 1 0) 24 32)) - 2.
Proof.
  apply (total_is_usable_span "192.168.1.77/24"
           (mkIPNet (ip4 192 168 1 0) 24 32) [ip4 192 168 1 9] false).
  - vm_compute; reflexivity.
  - simpl; lia.
Defined.

(** ** A subnet with no address in use *)

(** With a prefix of at most 30 bits and no address in use there is one
    unreserved range, from the first to the last usable address; it has as
    many addresses as the subnet has in total, which is also the number of
    available addresses and the largest available block, and the usage is
    zero. *)
Theorem unused_subnet (cidr : string) (ipNet : IPNet) (includeRanges : bool)
    (Hcidr : ParseCIDR cidr = Some ipNet) (Hones : Mask_ones ipNet <= 30) :
  let whole := mkRange (firstUsable ipNet) (lastUsable ipNet) in
  let total := 2 ^ (32 - Mask_ones ipNet) - 2 in
  run subnetUnreservedIPRanges cidr [] = Ok [whole] ∧
  NumAddresses whole = total ∧
  ∃ stats,
    run (λ s, subnetStatistics s includeRanges) cidr [] = Ok stats ∧
    TotalAddresses stats = total ∧ NumUnavailable stats = 0 ∧
    NumAvailable stats = total ∧ LargestAvailable stats = total ∧
    Ranges stats = (if includeRanges then [whole] else []) ∧
    ∃ q, Usage stats = F32Val q ∧ Qeq q 0.
Proof.
  destruct (usable_span_explicit cidr ipNet Hcidr Hones)
    as (Hk & Hnet & Hblock & Hf & Hl).
  assert (Hbits : Mask_bits ipNet = 32).
  { apply ParseCIDR_inv in Hcidr as (ip & n & _ & _ & ->). done. }
  destruct (pow2_k_bounds _ Hk) as [Hpow _].
  rewrite Hbits in *.
  set (net := ipval (IPNet_IP ipNet)) in *.
  set (k := 32 - Mask_ones ipNet) in *.
  assert (Hranges : unreservedRanges ipNet (sort_list [])
                    = [mkRange (mkIP (net + 1)) (mkIP (net + 2 ^ k - 2))]).
  { unfold unreservedRanges. cbn [sort_list fold_left]. rewrite Hf, Hl.
    unfold IP_UInt64; cbn [ipval].
    destruct (Z.eqb_spec (net + 1) (net + 2 ^ k - 2)); [lia|done]. }
  assert (Hcount : NumAddresses (mkRange (mkIP (net + 1)) (mkIP (net + 2 ^ k - 2)))
                   = 2 ^ k - 2).
  { rewrite mkRange_fields by lia. simpl. lia. }
  cbv zeta. rewrite Hf, Hl.
  split; [by rewrite (run_subnetUnreservedIPRanges _ _ _ Hcidr), Hranges|].
  split; [done|].
  rewrite (run_subnetStatistics _ _ _ _ Hcidr). eexists. split; [done|].
  cbn [TotalAddresses NumUnavailable NumAvailable LargestAvailable Ranges Usage].
  rewrite Hbits. fold k. rewrite (total_of_prefix _ Hk), Hranges.
  simpl length. change (Z.of_nat 0) with 0. rewrite Z.sub_0_r.
  rewrite wrap64_small by lia.
  split; [done|]. split; [done|]. split; [done|].
  split.
  { unfold largestOf. cbn [fold_left]. rewrite Hcount.
    destruct (Z.gtb_spec (2 ^ k - 2) 0); lia. }
  split; [done|].
  unfold float32_div. destruct (Z.eqb_spec (2 ^ k - 2) 0); [lia|].
  eexists. split; [done|]. reflexivity.
Qed.

Lemma unused_subnet_witness :
  let whole := mkRange (firstUsable (mkIPNet (ip4 192 168 1 0) 24 32))
                 (lastUsable (mkIPNet (ip4 192 168 1 0) 24 32)) in
  let total := 2 ^ (32 - Mask_ones (mkIPNet (ip4 192 168 1 0) 24 32)) - 2 in
  run subnetUnreservedIPRanges "192.168.1.0/24" [] = Ok [whole] ∧
  NumAddresses whole = total ∧
  ∃ stats,
    run (λ s, subnetStatistics s true) "192.168.1.0/24" [] = Ok stats ∧
    TotalAddresses stats = total ∧ NumUnavailable stats = 0 ∧
    NumAvailable stats = total ∧ LargestAvailable stats = total ∧
    Ranges stats = (if true then [whole] else []) ∧
    ∃ q, Usage stats = F32Val q ∧ Qeq q 0.
Proof.
  apply (unused_subnet "192.168.1.0/24" (mkIPNet (ip4 192 168 1 0) 24 32) true).
  - vm_compute; reflexivity.
  - simpl; lia.
Defined.

(** ** The largest available block *)

Lemma unreserved_step_counts (lastUsableIP : IP) (st : IP * list AddressRange)
    (endIP : IP) :
  Forall (λ r, 0 <= NumAddresses r) st.2 →
  Forall (λ r, 0 <= NumAddresses r) (unreserved_step lastUsableIP st endIP).2.
Proof.
  destruct st as [startIP ranges]. unfold unreserved_step. simpl. intros Hall.
  repeat (match goal with |- context [if ?b then _ else _] => destruct b end);
    simpl; try done.
  apply Forall_app. split; [done|]. constructor; [|done].
  simpl. apply Z.mod_pos_bound. lia.
Qed.

Lemma unreservedRanges_counts (ipNet : IPNet) (ipAddresses : list IP) :
  Forall (λ r, 0 <= NumAddresses r) (unreservedRanges ipNet ipAddresses).
Proof.
  unfold unreservedRanges.
  assert (Hfold : ∀ st, Forall (λ r, 0 <= NumAddresses r) st.2 →
            Forall (λ r, 0 <= NumAddresses r)
              (fold_left (unreserved_step (lastUsable ipNet)) ipAddresses st).2).
  { induction ipAddresses as [|x xs IH]; intros st Hst; [done|].
    simpl. by apply IH, unreserved_step_counts. }
  specialize (Hfold (firstUsable ipNet, []) ltac:(constructor)).
  destruct (fold_left _ _ _) as [startIP ranges]. simpl in Hfold.
  destruct (negb _); [|done].
  apply Forall_app. split; [done|]. constructor; [|done].
  simpl. apply Z.mod_pos_bound. lia.
Qed.

Lemma largestOf_max (reserved : list AddressRange) :
  Forall (λ r, 0 <= NumAddresses r) reserved →
  (∀ r, r ∈ reserved → NumAddresses r <= largestOf reserved) ∧
  (reserved = [] → largestOf reserved = 0) ∧
  (reserved ≠ [] → ∃ r, r ∈ reserved ∧ NumAddresses r = largestOf reserved).
Proof.
  intros Hall. unfold largestOf.
  set (f := λ (largest : Z) (addressRange : AddressRange),
              if NumAddresses addressRange >? largest
              then NumAddresses addressRange else largest).
  assert (Hfold : ∀ rs acc,
    acc <= fold_left f rs acc ∧
    (∀ r, r ∈ rs → NumAddresses r <= fold_left f rs acc) ∧
    (fold_left f rs acc = acc ∨
     ∃ r, r ∈ rs ∧ NumAddresses r = fold_left f rs acc)).
  { induction rs as [|r rs IH]; intros acc; simpl.
    - split; [lia|]. split; [by intros r ?%elem_of_nil|by left].
    - destruct (IH (f acc r)) as (Hge & Hmax & Hatt).
      assert (Hstep : acc <= f acc r ∧ NumAddresses r <= f acc r ∧
                      (f acc r = acc ∨ f acc r = NumAddresses r)).
      { unfold f. destruct (Z.gtb_spec (NumAddresses r) acc); lia. }
      split; [lia|]. split.
      + intros r' [->|Hr']%elem_of_cons; [lia|by apply Hmax].
      + destruct Hatt as [Heq|(r' & Hr' & Heq)].
        * destruct Hstep as (_ & _ & [Hacc|Hr]).
          -- left. lia.
          -- right. exists r. split; [by left|lia].
        * right. exists r'. split; [by right|done]. }
  destruct (Hfold reserved 0) as (Hge & Hmax & Hatt).
  split; [done|]. split; [by intros ->|].
  intros Hne. destruct Hatt as [Hzero|?]; [|done].
  destruct reserved as [|r rs]; [done|]. exists r. split; [by left|].
  apply Forall_cons in Hall as [Hr _].
  specialize (Hmax r ltac:(by left)). lia.
Qed.

(** The statistics carry the unreserved ranges of the same subnet when
    asked to and none otherwise, and their largest available block is the
    greatest number of addresses of an unreserved range: at least that of
    every range, that of some range if there is one, 0 if there is none. *)
Theorem largest_available_is_maximum (cidr : string) (ipNet : IPNet)
    (inUse : list IP) (includeRanges : bool)
    (Hcidr : ParseCIDR cidr = Some ipNet) :
  ∃ stats rs,
    run (λ s, subnetStatistics s includeRanges) cidr inUse = Ok stats ∧
    run subnetUnreservedIPRanges cidr inUse = Ok rs ∧
    Ranges stats = (if includeRanges then rs else []) ∧
    (∀ r, r ∈ rs → NumAddresses r <= LargestAvailable stats) ∧
    (rs = [] → LargestAvailable stats = 0) ∧
    (rs ≠ [] → ∃ r, r ∈ rs ∧ NumAddresses r = LargestAvailable stats).
Proof.
  rewrite (run_subnetStatistics _ _ _ _ Hcidr),
    (run_subnetUnreservedIPRanges _ _ _ Hcidr).
  eexists _, _. split; [done|]. split; [done|].
  cbn [Ranges LargestAvailable]. split; [done|].
  apply largestOf_max, unreservedRanges_counts.
Qed.

Lemma largest_available_is_maximum_witness :
  ∃ stats rs,
    run (λ s, subnetStatistics s true) "10.0.0.0/28"
      [ip4 10 0 0 9; ip4 10 0 0 3] = Ok stats ∧
    run subnetUnreservedIPRanges "10.0.0.0/28"
      [ip4 10 0 0 9; ip4 10 0 0 3] = Ok rs ∧
    Ranges stats = (if true then rs else []) ∧
    (∀ r, r ∈ rs → NumAddresses r <= LargestAvailable stats) ∧
    (rs = [] → LargestAvailable stats = 0) ∧
    (rs ≠ [] → ∃ r, r ∈ rs ∧ NumAddresses r = LargestAvailable stats).
Proof.
  apply (largest_available_is_maximum "10.0.0.0/28"
           (mkIPNet (ip4 10 0 0 0) 28 32) [ip4 10 0 0 9; ip4 10 0 0 3] true).
  vm_compute; reflexivity.
Defined.

(** ** A CIDR that does not parse *)



(** * The registry of subnets *)

Lemma seqZ_sorted (m n : Z) : StronglySorted Z.lt (seqZ m n).
Proof.
  destruct (Z_le_gt_dec n 0) as [Hn|Hn]; [rewrite seqZ_nil by lia; constructor|].
  rewrite <- (Z2Nat.id n) by lia. generalize (Z.to_nat n) as k. clear Hn.
  intros k. revert m. induction k as [|k IH]; intros m.
  - rewrite seqZ_nil by lia. constructor.
  - rewrite seqZ_cons by lia. constructor.
    + replace (Z.pred (Z.of_nat (S k))) with (Z.of_nat k) by lia. apply IH.
    + apply Forall_forall. intros i Hi%elem_of_seqZ. lia.
Qed.

Lemma StronglySorted_filter_list {A} (R : relation A) (P : A → Prop)
    `{∀ x, Decision (P x)} (l : list A) :
  StronglySorted R l → StronglySorted R (filter P l).
Proof.
  induction 1 as [|x l Hl IH Hx]; [constructor|].
  rewrite filter_cons. destruct (decide (P x)); [|done].
  constructor; [done|]. apply Forall_forall. intros y Hy.
  apply list_elem_of_filter in Hy as [_ Hy].
  by apply (proj1 (Forall_forall _ _) Hx).
Qed.

Lemma filter_omap_Forall2 {A B} (g : A → option B) (l : list A) :
  Forall2 (λ i s, g i = Some s) (filter (λ i, is_Some (g i)) l) (omap g l).
Proof.
  induction l as [|i l IH]; simpl; [constructor|].
  rewrite filter_cons. destruct (decide (is_Some (g i))) as [[s Hs]|Hn].
  - rewrite Hs. by constructor.
  - destruct (g i) as [s|] eqn:Hg; [|done]. destruct Hn. by exists s.
Qed.

Lemma listSubnets_omap {V : Type} (server : TestServer V) :
  listSubnets server
  = omap (λ i, subnets server !! i) (seqZ 1 (nextSubnet server - 1)).
Proof.
  unfold listSubnets.
  assert (Hfold : ∀ l acc,
    fold_left (λ listed i, match subnets server !! i with
                           | Some s => listed ++ [s]
                           | None => listed
                           end) l acc
    = acc ++ omap (λ i, subnets server !! i) l).
  { induction l as [|i l IH]; intros acc; simpl; [by rewrite app_nil_r|].
    rewrite IH. destruct (subnets server !! i); [|done].
    by rewrite <- app_assoc. }
  by rewrite Hfold.
Qed.

(** The listing of the handler holds the subnets stored under the IDs from
    1 to below [nextSubnet], one for each such ID and by ascending ID; a
    subnet stored under another ID is not listed. *)
Theorem listing_by_ascending_id {V : Type} (server : TestServer V) :
  ∃ ids : list Z,
    StronglySorted Z.lt ids ∧
    (∀ i, i ∈ ids ↔ 1 <= i < nextSubnet server ∧ is_Some (subnets server !! i)) ∧
    Forall2 (λ i s, subnets server !! i = Some s) ids (listSubnets server).
Proof.
  exists (filter (λ i, is_Some (subnets server !! i))
            (seqZ 1 (nextSubnet server - 1))).
  split; [|split].
  - apply StronglySorted_filter_list, seqZ_sorted.
  - intros i. rewrite list_elem_of_filter, elem_of_seqZ.
    split; intros [? ?]; (split; [done || lia|done || lia]).
  - rewrite listSubnets_omap. apply filter_omap_Forall2.
Qed.

Lemma omap_lookup_ext {V : Type} (m m' : gmap Z V) (l : list Z) :
  (∀ i, i ∈ l → m' !! i = m !! i) →
  omap (λ i, m' !! i) l = omap (λ i, m !! i) l.
Proof.
  intros Hl. apply list_omap_ext. induction l as [|i l IH]; [constructor|].
  constructor; [apply Hl; left|]. apply IH. intros j Hj. apply Hl. by right.
Qed.

(** [NewSubnet] on a decodable body, with [nextSubnet] at least 1 and below
    the largest [uint]: the new subnet gets [nextSubnet] as its ID whatever
    ID was posted, is stored under it and reached by its name, no other ID
    changes, [nextSubnet] goes up by one, and the listing is the one before
    followed by the new subnet. *)
Theorem NewSubnet_extends_listing {V : Type} (server : TestServer V)
    (postedSubnet : CreateSubnet.t)
    (Hnext : 1 <= nextSubnet server < 2 ^ 64 - 1) :
  ∃ (newSubnet : ServerSubnet.t V) (server' : TestServer V),
    NewSubnet server (inr postedSubnet) = Ok (newSubnet, server') ∧
    ServerSubnet.ID newSubnet = nextSubnet server ∧
    ServerSubnet.CIDR newSubnet = CreateSubnet.CIDR postedSubnet ∧
    ServerSubnet.InUseIPAddresses newSubnet = [] ∧
    subnets server' !! nextSubnet server = Some newSubnet ∧
    (∀ i, i ≠ nextSubnet server → subnets server' !! i = subnets server !! i) ∧
    subnetNameToID server' !! CreateSubnet.Name postedSubnet
      = Some (nextSubnet server) ∧
    nextSubnet server' = nextSubnet server + 1 ∧
    listSubnets server' = listSubnets server ++ [newSubnet].
Proof.
  eexists _, _. split; [reflexivity|]. cbn.
  assert (Hw : wrap64 (nextSubnet server + 1) = nextSubnet server + 1).
  { unfold wrap64. apply Z.mod_small. lia. }
  repeat split.
  - by rewrite lookup_insert_eq.
  - intros i Hi. by rewrite lookup_insert_ne.
  - by rewrite lookup_insert_eq.
  - done.
  - rewrite !listSubnets_omap. cbn. rewrite Hw.
    replace (nextSubnet server + 1 - 1)
      with (Z.of_nat (S (Z.to_nat (nextSubnet server - 1)))) by lia.
    rewrite seqZ_S, omap_app. cbn.
    replace (1 + Z.of_nat (Z.to_nat (nextSubnet server - 1)))
      with (nextSubnet server) by lia.
    rewrite lookup_insert_eq. rewrite Z2Nat.id by lia. f_equal.
    apply omap_lookup_ext. intros i Hi%elem_of_seqZ.
    rewrite lookup_insert_ne by lia. done.
Qed.

Lemma omap_lookup_insert_present {V : Type} (m : gmap Z (ServerSubnet.t V))
    (k : Z) (s : ServerSubnet.t V) (l : list Z) :
  is_Some (m !! k) →
  (∀ i x, m !! i = Some x → ServerSubnet.ID x = i) →
  omap (λ i, <[k := s]> m !! i) l
  = (λ x, if decide (ServerSubnet.ID x = k) then s else x)
      <$> omap (λ i, m !! i) l.
Proof.
  intros [old Hold] Hown. induction l as [|i l IH]; [done|]. cbn.
  destruct (decide (i = k)) as [->|Hik].
  - rewrite lookup_insert_eq, Hold. cbn.
    rewrite decide_True by (by apply Hown). by rewrite IH.
  - rewrite lookup_insert_ne by done. destruct (m !! i) as [x|] eqn:Hx; [|done].
    cbn. rewrite decide_False; [by rewrite IH|].
    rewrite (Hown _ _ Hx). done.
Qed.

(** [UpdateSubnet] on a decodable body stores under the posted ID a subnet
    made of the posted fields alone: it has no address in use and no VLAN,
    whatever the subnet stored there had.  [nextSubnet] and the names are
    left as they are, so a new name is not reachable.  An ID outside 1 ..
    [nextSubnet] - 1 does not show in the listing; an ID that was stored
    (every subnet under its own ID) has its subnet replaced in place. *)
Theorem UpdateSubnet_replaces {V : Type} (server : TestServer V)
    (postedSubnet : CreateSubnet.t) :
  ∃ (updatedSubnet : ServerSubnet.t V) (server' : TestServer V),
    UpdateSubnet server (inr postedSubnet) = Ok (updatedSubnet, server') ∧
    subnets server' !! CreateSubnet.ID postedSubnet = Some updatedSubnet ∧
    ServerSubnet.ID updatedSubnet = CreateSubnet.ID postedSubnet ∧
    ServerSubnet.InUseIPAddresses updatedSubnet = [] ∧
    ServerSubnet.VLAN updatedSubnet = None ∧
    (∀ i, i ≠ CreateSubnet.ID postedSubnet →
          subnets server' !! i = subnets server !! i) ∧
    subnetNameToID server' = subnetNameToID server ∧
    nextSubnet server' = nextSubnet server ∧
    (¬ 1 <= CreateSubnet.ID postedSubnet < nextSubnet server →
       listSubnets server' = listSubnets server) ∧
    (is_Some (subnets server !! CreateSubnet.ID postedSubnet) →
     stored_under_own_ID server →
       listSubnets server'
       = (λ s, if decide (ServerSubnet.ID s = CreateSubnet.ID postedSubnet)
               then updatedSubnet else s) <$> listSubnets server).
Proof.
  eexists _, _. split; [reflexivity|]. cbn.
  repeat split.
  - by rewrite lookup_insert_eq.
  - intros i Hi. by rewrite lookup_insert_ne.
  - intros Hout. rewrite !listSubnets_omap. cbn.
    apply omap_lookup_ext. intros i Hi%elem_of_seqZ.
    rewrite lookup_insert_ne by lia. done.
  - intros Hsome Hown. rewrite !listSubnets_omap. cbn.
    by apply omap_lookup_insert_present.
Qed.

(** ** The handler *)

(** The server after a request: as before, or after [NewSubnet],
    [UpdateSubnet] or a [delete]. *)
Lemma handler_server_cases {V : Type}
    (NameOrIDToID : string → gmap string Z → Z → Z → option Z)
    (server server' : TestServer V) (r : Request.t) (calls : list (call V)) :
  subnetsHandler NameOrIDToID server r = Ok (calls, server') →
  server' = server ∨
  (Request.Method r = "POST" ∧
   ∃ s, NewSubnet server (Request.Body r) = Ok (s, server')) ∨
  (Request.Method r = "PUT" ∧
   ∃ s, UpdateSubnet server (Request.Body r) = Ok (s, server')) ∨
  (Request.Method r = "DELETE" ∧
   ∃ ID, server' = {| version := version server;
                      subnets := delete ID (subnets server);
                      subnetNameToID := subnetNameToID server;
                      nextSubnet := nextSubnet server;
                      nodeMetadata := nodeMetadata server |}).
Proof.
  unfold subnetsHandler. intros Hrun.
  destruct (Request.RawQuery r) as [err|values]; [done|].
  set (found := match subnetsURLRE_FindStringSubmatch (Request.Path r) with
                | Some group => _
                | None => _
                end) in Hrun.
  destruct found as [[ID gotID]|]; [|left; by simplify_eq].
  destruct (decide (Request.Method r = "GET")) as [Hget|Hget].
  { left. repeat (case_decide || case_match); by simplify_eq. }
  destruct (decide (Request.Method r = "POST")) as [Hpost|Hpost].
  { right; left. split; [done|].
    destruct (NewSubnet server (Request.Body r)) as [[s server'']|]; [|done].
    exists s. by simplify_eq. }
  destruct (decide (Request.Method r = "PUT")) as [Hput|Hput].
  { right; right; left. split; [done|].
    destruct (UpdateSubnet server (Request.Body r)) as [[s server'']|]; [|done].
    exists s. by simplify_eq. }
  destruct (decide (Request.Method r = "DELETE")) as [Hdel|Hdel].
  { right; right; right. split; [done|]. exists ID. by simplify_eq. }
  left. by simplify_eq.
Qed.

(** The handler keeps every subnet stored under its own ID, whatever the
    request. *)
Theorem handler_keeps_own_IDs {V : Type}
    (NameOrIDToID : string → gmap string Z → Z → Z → option Z)
    (server server' : TestServer V) (r : Request.t) (calls : list (call V))
    (Hown : stored_under_own_ID server)
    (Hrun : subnetsHandler NameOrIDToID server r = Ok (calls, server')) :
  stored_under_own_ID server'.
Proof.
  apply handler_server_cases in Hrun
    as [->|[[_ [s Hnew]]|[[_ [s Hupd]]|[_ [ID ->]]]]]; [done|..].
  - unfold NewSubnet in Hnew.
    destruct (decodePostedSubnet (Request.Body r)) as [p|]; [|done].
    simplify_eq. intros i x. cbn.
    destruct (decide (i = nextSubnet server)) as [->|?].
    + rewrite lookup_insert_eq. by intros [= <-].
    + rewrite lookup_insert_ne by done. apply Hown.
  - unfold UpdateSubnet in Hupd.
    destruct (decodePostedSubnet (Request.Body r)) as [p|]; [|done].
    simplify_eq. intros i x. cbn.
    destruct (decide (i = CreateSubnet.ID p)) as [->|?].
    + rewrite lookup_insert_eq. by intros [= <-].
    + rewrite lookup_insert_ne by done. apply Hown.
  - intros i x. cbn. rewrite lookup_delete_Some. intros [_ ?]. by apply Hown.
Qed.


(** On a server without subnets every GET ends in the not-found handler
    and encodes nothing, whatever the path and the query. *)
Theorem get_on_empty_registry {V : Type}
    (NameOrIDToID : string → gmap string Z → Z → Z → option Z)
    (server : TestServer V) (r : Request.t) (values : list (string * string))
    (Hmethod : Request.Method r = "GET")
    (Hquery : Request.RawQuery r = inr values)
    (Hempty : subnets server = ∅) :
  ∃ calls,
    subnetsHandler NameOrIDToID server r = Ok (calls, server) ∧
    last calls = Some NotFoundHandler_ServeHTTP ∧
    ∀ v, Encoder_Encode v ∉ calls.
Proof.
  unfold subnetsHandler. rewrite Hquery, Hmethod, Hempty.
  destruct (subnetsURLRE_FindStringSubmatch (Request.Path r)) as [group|];
    [destruct (NameOrIDToID _ _ _ _) as [ID|]|];
    cbv beta iota zeta;
    rewrite ?(decide_True (P := "GET" = "GET")) by done;
    rewrite ?(decide_True (P := size (∅ : gmap Z (ServerSubnet.t V)) = 0%nat))
      by done;
    eexists; (split; [reflexivity|]); (split; [done|]);
    intros v Hv; repeat (apply elem_of_cons in Hv as [Hv|Hv]; [done|]);
    by apply elem_of_nil in Hv.
Qed.

(** A GET for an ID that the path lookup accepts but under which nothing
    is stored works on the zero [Subnet]: it is answered with the encoded
    zero value, not with not-found; with [op=unreserved_ip_ranges] or
    [op=statistics] it panics on the empty CIDR, with
    [op=reserved_ip_ranges] on the index out of range. *)
Theorem get_of_missing_subnet {V : Type}
    (NameOrIDToID : string → gmap string Z → Z → Z → option Z)
    (server : TestServer V) (r : Request.t) (values : list (string * string))
    (group : string) (ID : Z)
    (Hmethod : Request.Method r = "GET")
    (Hquery : Request.RawQuery r = inr values)
    (Hmatch : subnetsURLRE_FindStringSubmatch (Request.Path r) = Some group)
    (Hid : NameOrIDToID group (subnetNameToID server) 1
             (Z.of_nat (size (subnets server))) = Some ID)
    (Hsome : subnets server ≠ ∅)
    (Hpath : Request.Path r ≠ getSubnetsEndpoint (version server))
    (Hmissing : subnets server !! ID = None) :
  subnetsHandler NameOrIDToID server r
  = if decide (Values_Get values "op" = "unreserved_ip_ranges"
               ∨ Values_Get values "op" = "statistics")
    then Panic "invalid CIDR address"
    else if decide (Values_Get values "op" = "reserved_ip_ranges")
    then Panic "runtime error: index out of range"
    else Ok ([Header_Set "Content-Type" "application/vnd.api+json";
              Encoder_Encode (OfSubnet ServerSubnet.zero)], server).
Proof.
  unfold subnetsHandler. rewrite Hquery, Hmethod, Hmatch, Hid.
  cbv beta iota zeta. rewrite (decide_True (P := "GET" = "GET")) by done.
  rewrite decide_False by (by rewrite map_size_empty_iff).
  rewrite decide_False by done.
  unfold subnets_index. rewrite Hmissing.
  cbn [default negb ServerSubnet.zero ServerSubnet.CIDR
       ServerSubnet.InUseIPAddresses].
  rewrite run_subnetUnreservedIPRanges_any, run_subnetReservedIPRanges.
  rewrite run_subnetStatistics_malformed by reflexivity.
  change (ParseCIDR "") with (@None IPNet).
  cbn [sort_list reservedRanges json_Encode].
  destruct (decide (Values_Get values "op" = "unreserved_ip_ranges")) as [Hu|Hu].
  { rewrite decide_True by (by left). done. }
  destruct (decide (Values_Get values "op" = "reserved_ip_ranges")) as [Hr|Hr].
  { rewrite decide_False by (rewrite Hr; by intros [|]). done. }
  destruct (decide (Values_Get values "op" = "statistics")) as [Hs|Hs].
  { rewrite decide_True by (by right). done. }
  rewrite decide_False by (by intros [|]). done.
Qed.

(** A GET with [op=statistics] for a stored subnet whose CIDR has one host
    bit (a /31) panics in the encoder: the usage is 0/0 (NaN) without
    addresses in use and n/0 (+Inf) with some. *)
Theorem statistics_of_slash31_panics {V : Type}
    (NameOrIDToID : string → gmap string Z → Z → Z → option Z)
    (server : TestServer V) (r : Request.t) (values : list (string * string))
    (group : string) (ID : Z) (subnet : ServerSubnet.t V) (ipNet : IPNet)
    (Hmethod : Request.Method r = "GET")
    (Hquery : Request.RawQuery r = inr values)
    (Hop : Values_Get values "op" = "statistics")
    (Hmatch : subnetsURLRE_FindStringSubmatch (Request.Path r) = Some group)
    (Hid : NameOrIDToID group (subnetNameToID server) 1
             (Z.of_nat (size (subnets server))) = Some ID)
    (Hpath : Request.Path r ≠ getSubnetsEndpoint (version server))
    (Hstored : subnets server !! ID = Some subnet)
    (Hcidr : ParseCIDR (ServerSubnet.CIDR subnet) = Some ipNet)
    (Hbits : Mask_bits ipNet - Mask_ones ipNet = 1) :
  subnetsHandler NameOrIDToID server r
  = Panic (match ServerSubnet.InUseIPAddresses subnet with
           | [] => "json: unsupported value: NaN"
           | _ :: _ => "json: unsupported value: +Inf"
           end).
Proof.
  unfold subnetsHandler. rewrite Hquery, Hmethod, Hmatch, Hid, Hop.
  cbv beta iota zeta. rewrite (decide_True (P := "GET" = "GET")) by done.
  rewrite decide_False; last first.
  { intros Hsize. apply map_size_empty_iff in Hsize.
    rewrite Hsize in Hstored. by rewrite lookup_empty in Hstored. }
  rewrite decide_False by done.
  unfold subnets_index. rewrite Hstored. cbn [default from_option negb].
  unfold id.
  rewrite (decide_False (P := "statistics" = "unreserved_ip_ranges")) by done.
  rewrite (decide_False (P := "statistics" = "reserved_ip_ranges")) by done.
  rewrite (decide_True (P := "statistics" = "statistics")) by done.
  rewrite (run_subnetStatistics _ _ ipNet) by done. rewrite Hbits.
  cbn [json_Encode Usage].
  change (wrap64 (shl64 1 1 - 2)) with 0. unfold float32_div. cbn [Z.eqb].
  destruct (ServerSubnet.InUseIPAddresses subnet) as [|a l]; [done|].
  cbn [length]. rewrite Nat2Z.inj_succ.
  destruct (Z.succ (Z.of_nat (length l)) =? 0) eqn:E; [|done].
  apply Z.eqb_eq in E. lia.
Qed.

Lemma omap_lookup_delete_own {V : Type} (m : gmap Z (ServerSubnet.t V))
    (k : Z) (l : list Z) :
  (∀ i x, m !! i = Some x → ServerSubnet.ID x = i) →
  omap (λ i, delete k m !! i) l
  = filter (λ x, ServerSubnet.ID x ≠ k) (omap (λ i, m !! i) l).
Proof.
  intros Hown. induction l as [|i l IH]; [done|]. cbn.
  destruct (decide (i = k)) as [->|Hik].
  - rewrite lookup_delete_eq. destruct (m !! k) as [x|] eqn:Hx; [|done].
    rewrite filter_cons, decide_False; [done|].
    intros Hne. apply Hne. by apply Hown.
  - rewrite lookup_delete_ne by done. destruct (m !! i) as [x|] eqn:Hx; [|done].
    rewrite filter_cons, decide_True; [by rewrite IH|].
    by rewrite (Hown _ _ Hx).
Qed.


(** A subnet created by a POST has no address in use: once created, a GET
    of it with [op=reserved_ip_ranges] panics on the index out of range,
    and a GET without [op] encodes the posted fields under the ID that was
    [nextSubnet]. *)
Theorem get_after_post {V : Type}
    (NameOrIDToID : string → gmap string Z → Z → Z → option Z)
    (server : TestServer V) (post get : Request.t)
    (values values' : list (string * string)) (postedSubnet : CreateSubnet.t)
    (group : string)
    (Hpost : Request.Method post = "POST")
    (Hquery : Request.RawQuery post = inr values)
    (Hcollection : subnetsURLRE_FindStringSubmatch (Request.Path post) = None)
    (Hbody : Request.Body post = inr postedSubnet)
    (Hget : Request.Method get = "GET")
    (Hquery' : Request.RawQuery get = inr values')
    (Hmatch : subnetsURLRE_FindStringSubmatch (Request.Path get) = Some group)
    (Hpath : Request.Path get ≠ getSubnetsEndpoint (version server)) :
  ∃ newSubnet server',
    NewSubnet server (inr postedSubnet) = Ok (newSubnet, server') ∧
    subnetsHandler NameOrIDToID server post = Ok ([], server') ∧
    (NameOrIDToID group (subnetNameToID server') 1
       (Z.of_nat (size (subnets server'))) = Some (nextSubnet server) →
     (Values_Get values' "op" = "reserved_ip_ranges" →
      subnetsHandler NameOrIDToID server' get
      = Panic "runtime error: index out of range") ∧
     (Values_Get values' "op"
        ∉ ["unreserved_ip_ranges"; "reserved_ip_ranges"; "statistics"] →
      subnetsHandler NameOrIDToID server' get
      = Ok ([Header_Set "Content-Type" "application/vnd.api+json";
             Encoder_Encode (OfSubnet newSubnet)], server'))).
Proof.
  eexists _, _. split; [reflexivity|]. split.
  { unfold subnetsHandler. rewrite Hquery, Hpost, Hcollection, Hbody.
    cbv beta iota zeta.
    rewrite (decide_False (P := "POST" = "GET")) by done.
    rewrite (decide_True (P := "POST" = "POST")) by done. reflexivity. }
  intros Hid.
  assert (Hsome : size (<[nextSubnet server :=
                     withID (subnetFromCreateSubnet postedSubnet)
                       (nextSubnet server)]> (subnets server)) ≠ 0%nat).
  { intros Hsize. apply map_size_empty_iff in Hsize.
    by apply insert_non_empty in Hsize. }
  split.
  - intros Hr. unfold subnetsHandler.
    cbn [version subnetNameToID subnets] in *.
    rewrite Hquery', Hget, Hmatch, Hid. cbv beta iota zeta.
    rewrite (decide_True (P := "GET" = "GET")) by done.
    rewrite decide_False by done.
    rewrite decide_False by done. cbn [negb].
    rewrite Hr.
    rewrite (decide_False (P := "reserved_ip_ranges" = "unreserved_ip_ranges"))
      by done.
    rewrite (decide_True (P := "reserved_ip_ranges" = "reserved_ip_ranges"))
      by done.
    unfold subnets_index. cbn [subnets]. rewrite lookup_insert_eq.
    cbn [default from_option]. unfold id.
    rewrite run_subnetReservedIPRanges. reflexivity.
  - intros Hop. unfold subnetsHandler.
    cbn [version subnetNameToID subnets] in *.
    rewrite Hquery', Hget, Hmatch, Hid. cbv beta iota zeta.
    rewrite (decide_True (P := "GET" = "GET")) by done.
    rewrite decide_False by done.
    rewrite decide_False by done. cbn [negb].
    rewrite decide_False by (intros E; apply Hop; rewrite E; set_solver).
    rewrite decide_False by (intros E; apply Hop; rewrite E; set_solver).
    rewrite decide_False by (intros E; apply Hop; rewrite E; set_solver).
    unfold subnets_index. cbn [subnets]. rewrite lookup_insert_eq.
    reflexivity.
Qed.

(** ** The interfaces of a node *)

Lemma list_find_name_insert {V : Type} (l : list (NodeNetworkInterface.t V))
    (x : NodeNetworkInterface.t V) (i : nat) (y : NodeNetworkInterface.t V) :
  list_find (λ ni, NodeNetworkInterface.Name ni = NodeNetworkInterface.Name x) l
    = Some (i, y) →
  list_find (λ ni, NodeNetworkInterface.Name ni = NodeNetworkInterface.Name x)
            (<[i := x]> l) = Some (i, x) ∧
  NodeNetworkInterface.Name <$> <[i := x]> l = NodeNetworkInterface.Name <$> l.
Proof.
  intros Hfind. apply list_find_Some in Hfind as (Hi & Hy & Hbefore).
  split.
  - apply list_find_Some. split; [|split; [done|]].
    + rewrite list_lookup_insert_eq; [done|]. by eapply lookup_lt_Some.
    + intros j z Hj Hlt. rewrite list_lookup_insert_ne in Hj by lia.
      by eapply Hbefore.
  - rewrite list_fmap_insert. apply list_insert_id.
    rewrite list_lookup_fmap, Hi. cbn. by rewrite Hy.
Qed.

Lemma SetNodeNetworkLink_lookup {V : Type} (server : TestServer V)
    (node : Node.t V) (nodeNetworkInterface : NodeNetworkInterface.t V) :
  ∃ after i,
    nodeMetadata (SetNodeNetworkLink server node nodeNetworkInterface)
      !! Node.SystemID node = Some after ∧
    list_find (λ ni, NodeNetworkInterface.Name ni
                     = NodeNetworkInterface.Name nodeNetworkInterface)
              (Node.Interfaces after) = Some (i, nodeNetworkInterface).
Proof.
  unfold SetNodeNetworkLink.
  fold (nodeMetadata_index server (Node.SystemID node)).
  set (before := nodeMetadata_index server (Node.SystemID node)).
  destruct (list_find _ (Node.Interfaces before)) as [[i y]|] eqn:Hfind.
  - pose proof (list_find_name_insert _ _ _ _ Hfind) as [Hfind' _].
    eexists _, i. cbn. rewrite lookup_insert_eq. split; [reflexivity|]. done.
  - rewrite list_find_None in Hfind.
    eexists _, (length (Node.Interfaces before)). cbn.
    rewrite lookup_insert_eq. split; [reflexivity|]. cbn.
    apply list_find_Some. split; [|split; [done|]].
    + by rewrite lookup_app_r, Nat.sub_diag.
    + intros j z Hj Hlt. rewrite lookup_app_l in Hj by done.
      apply (proj1 (Forall_forall _ _) Hfind z).
      by eapply list_elem_of_lookup_2.
Qed.

(** After [SetNodeNetworkLink] the node stored under the system ID has the
    given interface as its first interface of that name.  The names of its
    interfaces are those it had, in the same order, when the name was
    among them, and otherwise those followed by the new name.  For a
    system ID that was not stored, the node created has the empty system
    ID and this one interface. *)
Theorem SetNodeNetworkLink_sets_interface {V : Type} (server : TestServer V)
    (node : Node.t V) (nodeNetworkInterface : NodeNetworkInterface.t V) :
  let name := NodeNetworkInterface.Name nodeNetworkInterface in
  let before := nodeMetadata_index server (Node.SystemID node) in
  let server' := SetNodeNetworkLink server node nodeNetworkInterface in
  ∃ after,
    nodeMetadata server' !! Node.SystemID node = Some after ∧
    (∃ i, list_find (λ ni, NodeNetworkInterface.Name ni = name)
                    (Node.Interfaces after) = Some (i, nodeNetworkInterface)) ∧
    interface_names after
      = (if decide (name ∈ interface_names before)
         then interface_names before
         else interface_names before ++ [name]) ∧
    Node.SystemID after = Node.SystemID before ∧
    (nodeMetadata server !! Node.SystemID node = None →
     after = Node.mk "" [nodeNetworkInterface]) ∧
    subnets server' = subnets server ∧
    nextSubnet server' = nextSubnet server.
Proof.
  intros name before server'. subst server'. unfold SetNodeNetworkLink.
  fold (nodeMetadata_index server (Node.SystemID node)). fold before. fold name.
  destruct (list_find _ (Node.Interfaces before)) as [[i y]|] eqn:Hfind.
  - pose proof (list_find_name_insert _ _ _ _ Hfind) as [Hfind' Hnames].
    eexists. cbn. rewrite lookup_insert_eq. split; [reflexivity|]. cbn.
    split; [by exists i|].
    apply list_find_Some in Hfind as (Hi & Hy & _).
    split; [|split; [done|split; [|done]]].
    + unfold interface_names. cbn. rewrite Hnames.
      rewrite decide_True; [done|].
      apply list_elem_of_fmap. exists y. split; [done|].
      by eapply list_elem_of_lookup_2.
    + intros Hnone. subst before. unfold nodeMetadata_index in Hi.
      rewrite Hnone in Hi. done.
  - eexists. cbn. rewrite lookup_insert_eq. split; [reflexivity|]. cbn.
    pose proof Hfind as Hnone. rewrite list_find_None in Hnone.
    split; [|split; [|split; [done|split; [|done]]]].
    + exists (length (Node.Interfaces before)).
      apply list_find_Some. split; [|split; [done|]].
      * by rewrite lookup_app_r, Nat.sub_diag.
      * intros j z Hj Hlt. rewrite lookup_app_l in Hj by done.
        apply (proj1 (Forall_forall _ _) Hnone z).
        by eapply list_elem_of_lookup_2.
    + unfold interface_names. cbn. rewrite fmap_app. cbn.
      rewrite decide_False; [done|].
      intros Hin. apply list_elem_of_fmap in Hin as (z & Hz & Hin).
      by apply (proj1 (Forall_forall _ _) Hnone z).
    + intros Hnone'. subst before. unfold nodeMetadata_index.
      rewrite Hnone'. reflexivity.
Qed.

(** [SetNodeNetworkLink] with the same node and interface a second time
    changes nothing. *)
Theorem SetNodeNetworkLink_idempotent {V : Type} (server : TestServer V)
    (node : Node.t V) (nodeNetworkInterface : NodeNetworkInterface.t V) :
  SetNodeNetworkLink (SetNodeNetworkLink server node nodeNetworkInterface)
    node nodeNetworkInterface
  = SetNodeNetworkLink server node nodeNetworkInterface.
Proof.
  destruct (SetNodeNetworkLink_lookup server node nodeNetworkInterface)
    as (after & i & Hafter & Hfind).
  unfold SetNodeNetworkLink at 1. rewrite Hafter. cbn [default from_option].
  unfold id. rewrite Hfind.
  apply list_find_Some in Hfind as (Hi & _ & _).
  rewrite list_insert_id by done.
  destruct after as [sid ifs]. cbn [Node.SystemID Node.Interfaces].
  rewrite insert_id by done.
  by destruct (SetNodeNetworkLink server node nodeNetworkInterface).
Qed.

(** ** The properties at work *)

Lemma NewSubnet_extends_listing_witness :
  ∃ (newSubnet : ServerSubnet.t unit) (server' : TestServer unit),
    NewSubnet two_subnets (inr (posted "dmz" "10.0.2.0/24" 77))
      = Ok (newSubnet, server') ∧
    ServerSubnet.ID newSubnet = 4 ∧
    ServerSubnet.CIDR newSubnet = "10.0.2.0/24" ∧
    ServerSubnet.InUseIPAddresses newSubnet = [] ∧
    subnets server' !! 4 = Some newSubnet ∧
    (∀ i, i ≠ 4 → subnets server' !! i = subnets two_subnets !! i) ∧
    subnetNameToID server' !! "dmz" = Some 4 ∧
    nextSubnet server' = 4 + 1 ∧
    listSubnets server' = listSubnets two_subnets ++ [newSubnet].
Proof.
  apply (NewSubnet_extends_listing two_subnets (posted "dmz" "10.0.2.0/24" 77)).
  cbn. lia.
Defined.

Lemma two_subnets_own_IDs : stored_under_own_ID two_subnets.
Proof.
  change (map_Forall (λ i s, ServerSubnet.ID s = i) (subnets two_subnets)).
  apply (bool_decide_unpack _). vm_compute. exact I.
Qed.

Lemma handler_keeps_own_IDs_witness :
  let server' :=
    {| version := "2.0";
       subnets := <[9 := subnetFromCreateSubnet (posted "far" "10.9.0.0/16" 9)]>
                    (subnets two_subnets);
       subnetNameToID := subnetNameToID two_subnets;
       nextSubnet := 4;
       nodeMetadata := ∅ |} in
  subnetsHandler resolve_name two_subnets
    (request "PUT" "/api/2.0/subnets/" [] (inr (posted "far" "10.9.0.0/16" 9)))
    = Ok ([], server') ∧
  stored_under_own_ID server'.
Proof.
  split; [reflexivity|].
  apply (handler_keeps_own_IDs resolve_name two_subnets _
           (request "PUT" "/api/2.0/subnets/" []
              (inr (posted "far" "10.9.0.0/16" 9))) []).
  - exact two_subnets_own_IDs.
  - reflexivity.
Defined.


Lemma get_on_empty_registry_witness :
  ∃ calls,
    subnetsHandler resolve_name empty_server
      (request "GET" "/api/2.0/subnets/" [] (inl "EOF"))
      = Ok (calls, empty_server) ∧
    last calls = Some NotFoundHandler_ServeHTTP ∧
    ∀ v, Encoder_Encode v ∉ calls.
Proof.
  apply (get_on_empty_registry resolve_name empty_server
           (request "GET" "/api/2.0/subnets/" [] (inl "EOF")) []);
    reflexivity.
Defined.

Lemma get_of_missing_subnet_witness :
  subnetsHandler resolve_name two_subnets
    (request "GET" "/api/2.0/subnets/gone/" [] (inl "EOF"))
  = Ok ([Header_Set "Content-Type" "application/vnd.api+json";
         Encoder_Encode (OfSubnet ServerSubnet.zero)], two_subnets).
Proof.
  apply (get_of_missing_subnet resolve_name two_subnets
           (request "GET" "/api/2.0/subnets/gone/" [] (inl "EOF")) [] "gone" 2).
  - reflexivity.
  - reflexivity.
  - vm_compute. reflexivity.
  - vm_compute. reflexivity.
  - intros Hempty. apply (f_equal (λ m, m !! 1)) in Hempty.
    vm_compute in Hempty. discriminate.
  - apply (bool_decide_unpack _). vm_compute. exact I.
  - vm_compute. reflexivity.
Defined.

Lemma statistics_of_slash31_panics_witness :
  subnetsHandler resolve_name two_subnets
    (request "GET" "/api/2.0/subnets/link/" [("op", "statistics")] (inl "EOF"))
  = Panic "json: unsupported value: NaN".
Proof.
  apply (statistics_of_slash31_panics resolve_name two_subnets
           (request "GET" "/api/2.0/subnets/link/" [("op", "statistics")]
              (inl "EOF"))
           [("op", "statistics")] "link" 1 (stored "link" "10.0.1.0/31" 1 [])
           (mkIPNet (ip4 10 0 1 0) 31 32)).
  - reflexivity.
  - reflexivity.
  - vm_compute. reflexivity.
  - vm_compute. reflexivity.
  - vm_compute. reflexivity.
  - apply (bool_decide_unpack _). vm_compute. exact I.
  - vm_compute. reflexivity.
  - vm_compute. reflexivity.
  - reflexivity.
Defined.


Lemma get_after_post_witness :
  ∃ newSubnet server',
    NewSubnet empty_server (inr (posted "lan" "10.0.0.0/28" 0))
      = Ok (newSubnet, server') ∧
    subnetsHandler resolve_name empty_server
      (request "POST" "/api/2.0/subnets/" [] (inr (posted "lan" "10.0.0.0/28" 0)))
      = Ok ([], server') ∧
    subnetsHandler resolve_name server'
      (request "GET" "/api/2.0/subnets/lan/" [("op", "reserved_ip_ranges")]
         (inl "EOF"))
      = Panic "runtime error: index out of range".
Proof.
  destruct (get_after_post resolve_name empty_server
              (request "POST" "/api/2.0/subnets/" []
                 (inr (posted "lan" "10.0.0.0/28" 0)))
              (request "GET" "/api/2.0/subnets/lan/"
                 [("op", "reserved_ip_ranges")] (inl "EOF"))
              [] [("op", "reserved_ip_ranges")] (posted "lan" "10.0.0.0/28" 0)
              "lan" eq_refl eq_refl eq_refl eq_refl eq_refl eq_refl eq_refl
              ltac:(apply (bool_decide_unpack _); vm_compute; exact I))
    as (newSubnet & server' & Hnew & Hpost & Hget).
  exists newSubnet, server'. split; [done|]. split; [done|].
  apply Hget; [|reflexivity].
  injection Hnew as <- <-. vm_compute. reflexivity.
Defined.

(** * The client: devices *)

(** ** Strings *)

Lemma append_nil_l (s : string) : "" +:+ s = s.
Proof. reflexivity. Qed.

Lemma append_cons (c : ascii) (s t : string) :
  String c s +:+ t = String c (s +:+ t).
Proof. reflexivity. Qed.

Lemma append_assoc_r (s t u : string) : (s +:+ t) +:+ u = s +:+ t +:+ u.
Proof.
  induction s as [|c s IH]; [done|]. rewrite !append_cons. by rewrite IH.
Qed.

Lemma strip_prefix_Some (p s rest : string) :
  strip_prefix p s = Some rest ↔ s = p +:+ rest.
Proof.
  revert s. induction p as [|a p IH]; intros s.
  - rewrite append_nil_l. destruct s; cbn; split; intros; by simplify_eq.
  - rewrite append_cons. destruct s as [|b s]; cbn; [split; intros; by simplify_eq|].
    destruct (decide (a = b)) as [->|Hab].
    + rewrite IH. split; intros; by simplify_eq.
    + split; intros; by simplify_eq.
Qed.

Lemma strings_Replace_1_unfold (s old new : string) :
  strings_Replace_1 s old new
  = match strip_prefix old s with
    | Some rest => new +:+ rest
    | None =>
        match s with
        | EmptyString => EmptyString
        | String c s' => String c (strings_Replace_1 s' old new)
        end
    end.
Proof. by destruct s. Qed.

Lemma strings_Replace_1_first (pre old new post : string) :
  (∀ a b, pre +:+ old +:+ post = a +:+ old +:+ b →
          (String.length pre <= String.length a)%nat) →
  strings_Replace_1 (pre +:+ old +:+ post) old new = pre +:+ new +:+ post.
Proof.
  induction pre as [|c pre IH]; intros Hfirst; rewrite strings_Replace_1_unfold.
  - rewrite !append_nil_l.
    by rewrite (proj2 (strip_prefix_Some old (old +:+ post) post) eq_refl).
  - destruct (strip_prefix old _) as [rest|] eqn:Hstrip.
    + apply strip_prefix_Some in Hstrip.
      specialize (Hfirst "" rest Hstrip). cbn in Hfirst. lia.
    + rewrite !append_cons. f_equal. apply IH. intros a b Hab.
      specialize (Hfirst (String c a) b). rewrite !append_cons in Hfirst.
      rewrite Hab in Hfirst. specialize (Hfirst eq_refl). cbn in Hfirst. lia.
Qed.

Lemma strings_Replace_1_none (s old new : string) :
  (∀ a b, s ≠ a +:+ old +:+ b) →
  strings_Replace_1 s old new = s.
Proof.
  induction s as [|c s IH]; intros Hnone; rewrite strings_Replace_1_unfold.
  - destruct (strip_prefix old _) as [rest|] eqn:Hstrip; [|done].
    apply strip_prefix_Some in Hstrip. by destruct (Hnone "" rest).
  - destruct (strip_prefix old _) as [rest|] eqn:Hstrip.
    + apply strip_prefix_Some in Hstrip. by destruct (Hnone "" rest).
    + f_equal. apply IH. intros a b Hab. apply (Hnone (String c a) b).
      rewrite append_cons. by rewrite Hab.
Qed.

Section ClientProofs.
Context {VLAN Interface zone Result E : Type}.
Variable VLAN_ID : VLAN → Z.
Variable MaybeAdd : string → string → list (string * string) → list (string * string).
Variable MaybeAddInt : string → Z → list (string * string) → list (string * string).
Variable MaybeAddBool : string → bool → list (string * string) → list (string * string).
Variable readInterface : Number → Result → E + Interface.
Variable zone_2_0 : list (string * value) → E + zone.
Variable convertToStringSlice : value → list string.
Variable Cause_ServerError : E → option (Z * string).

#[local] Abbreviation device := (@device zone Result E).
#[local] Abbreviation error := (@error E).
#[local] Abbreviation CreatePhysicalInterface :=
  (CreatePhysicalInterface VLAN_ID MaybeAdd MaybeAddInt MaybeAddBool
     readInterface Cause_ServerError).
#[local] Abbreviation read_device_2_0 :=
  (@read_device_2_0 zone Result E zone_2_0 convertToStringSlice).
#[local] Abbreviation device_2_0_accepts :=
  (@device_2_0_accepts zone Result E zone_2_0 convertToStringSlice).
#[local] Abbreviation readDevice :=
  (@readDevice zone Result E zone_2_0 convertToStringSlice).
#[local] Abbreviation readDevices :=
  (@readDevices zone Result E zone_2_0 convertToStringSlice).

(** [interfacesURI] replaces the first [devices] of the resource URI, and
    only that one, by [nodes], and appends [interfaces/]. *)
Theorem interfacesURI_replaces_first_devices (d : device) (pre post : string)
    (Huri : resourceURI d = pre +:+ "devices" +:+ post)
    (Hfirst : ∀ a b, resourceURI d = a +:+ "devices" +:+ b →
                     (String.length pre <= String.length a)%nat) :
  interfacesURI d = pre +:+ "nodes" +:+ post +:+ "interfaces/".
Proof.
  unfold interfacesURI. rewrite Huri in *.
  rewrite strings_Replace_1_first by done.
  by rewrite !append_assoc_r.
Qed.

(** For a resource URI without [devices], [interfacesURI] is the URI
    followed by [interfaces/]: the device's own endpoint, not the nodes
    endpoint. *)
Theorem interfacesURI_without_devices (d : device)
    (Hnone : ∀ a b, resourceURI d ≠ a +:+ "devices" +:+ b) :
  interfacesURI d = resourceURI d +:+ "interfaces/".
Proof. unfold interfacesURI. by rewrite strings_Replace_1_none. Qed.


(** ** Reading devices *)

Lemma readDeviceList_from_ok (f : list (string * value) → outcome (error + device))
    (sourceList : list value) (i : nat) (result devices : list device) :
  readDeviceList_from i sourceList (Some f) result = Ok (inr devices) ↔
  ∃ read, devices = result ++ read ∧
          Forall2 (λ v d, ∃ m, v = VMap m ∧ f m = Ok (inr d)) sourceList read.
Proof.
  revert i result. induction sourceList as [|v l IH]; intros i result; cbn.
  - split.
    + intros [= <-]. exists []. by rewrite app_nil_r.
    + intros (read & -> & Hread). apply Forall2_nil_inv_l in Hread as ->.
      by rewrite app_nil_r.
  - split.
    + intros Hrun. destruct v as [| | | | |m]; try done.
      destruct (f m) as [[err|dev]|] eqn:Hf; try done.
      apply IH in Hrun as (read & -> & Hread).
      exists (dev :: read). rewrite <- app_assoc. split; [done|].
      constructor; [by exists m|done].
    + intros (read & -> & Hread).
      apply Forall2_cons_inv_l in Hread as (dev & read' & (m & -> & Hf) & Hread & ->).
      rewrite Hf. apply IH. exists read'. by rewrite <- app_assoc.
Qed.

Lemma readDeviceList_from_error
    (f : list (string * value) → outcome (error + device))
    (sourceList : list value) (i : nat) (result : list device) (err : error) :
  readDeviceList_from i sourceList (Some f) result = Ok (inl err) ↔
  ∃ (k : nat) (v : value),
    sourceList !! k = Some v ∧
    Forall (λ v', ∃ m d, v' = VMap m ∧ f m = Ok (inr d)) (take k sourceList) ∧
    ((∀ m, v ≠ VMap m) ∧
     err = NewDeserializationError "unexpected value for device %d, %T" (i + k) v
     ∨ ∃ m e, v = VMap m ∧ f m = Ok (inl e) ∧
              err = Annotatef e "device %d" (i + k)).
Proof.
  revert i result. induction sourceList as [|v l IH]; intros i result; cbn.
  - split; [done|]. by intros (k & v & Hk & _).
  - split.
    + intros Hrun.
      destruct v as [| | | | |m];
        try (exists 0%nat; eexists; split; [reflexivity|];
             split; [constructor|]; left; rewrite Nat.add_0_r;
             split; [done|by simplify_eq]).
      destruct (f m) as [[e|dev]|] eqn:Hf; try done.
      * exists 0%nat, (VMap m). split; [done|]. split; [constructor|].
        right. exists m, e. rewrite Nat.add_0_r. split; [done|].
        split; [done|by simplify_eq].
      * apply IH in Hrun as (k & v & Hk & Hbefore & Hv).
        exists (S k), v. split; [done|]. split.
        { cbn. constructor; [by exists m, dev|done]. }
        by rewrite Nat.add_succ_r.
    + intros (k & v' & Hk & Hbefore & Hv). destruct k as [|k].
      * cbn in Hk. simplify_eq. rewrite Nat.add_0_r in Hv.
        destruct Hv as [[Hnot ->]|(m & e & -> & Hf & ->)].
        -- destruct v' as [| | | | |m]; try done. by destruct (Hnot m).
        -- by rewrite Hf.
      * cbn in Hk, Hbefore. apply Forall_cons in Hbefore as [(m & dev & -> & Hf) Hbefore].
        rewrite Hf. apply IH. exists k, v'. split; [done|]. split; [done|].
        by rewrite Nat.add_succ_r in Hv.
Qed.

Lemma readDeviceList_from_panic
    (f : list (string * value) → outcome (error + device))
    (sourceList : list value) (i : nat) (result : list device) (msg : string) :
  readDeviceList_from i sourceList (Some f) result = Panic msg →
  ∃ m, VMap m ∈ sourceList ∧ f m = Panic msg.
Proof.
  revert i result. induction sourceList as [|v l IH]; intros i result; cbn;
    [done|].
  intros Hrun. destruct v as [| | | | |m]; try done.
  destruct (f m) as [[e|dev]|msg'] eqn:Hf; try done.
  - apply IH in Hrun as (m' & Hin & Hpanic). exists m'. split; [by right|done].
  - exists m. split; [by left|]. by simplify_eq.
Qed.

(** [readDeviceList] returns devices exactly when every element of the
    list is a map that [readFunc] reads, and then the device of each
    element, in the order of the list.  It returns an error exactly at the
    first element that is no map or that [readFunc] rejects, with the
    index of that element; the elements after it are not read.  It panics
    only if [readFunc] does. *)
Theorem readDeviceList_all_or_first_failure
    (f : list (string * value) → outcome (error + device))
    (sourceList : list value) :
  (∀ devices,
     readDeviceList sourceList (Some f) = Ok (inr devices) ↔
     Forall2 (λ v d, ∃ m, v = VMap m ∧ f m = Ok (inr d)) sourceList devices) ∧
  (∀ err,
     readDeviceList sourceList (Some f) = Ok (inl err) ↔
     ∃ (i : nat) (v : value),
       sourceList !! i = Some v ∧
       Forall (λ v', ∃ m d, v' = VMap m ∧ f m = Ok (inr d)) (take i sourceList) ∧
       ((∀ m, v ≠ VMap m) ∧
        err = NewDeserializationError "unexpected value for device %d, %T" i v
        ∨ ∃ m e, v = VMap m ∧ f m = Ok (inl e) ∧
                 err = Annotatef e "device %d" i)) ∧
  (∀ msg,
     readDeviceList sourceList (Some f) = Panic msg →
     ∃ m, VMap m ∈ sourceList ∧ f m = Panic msg).
Proof.
  unfold readDeviceList. split; [|split].
  - intros devices. rewrite readDeviceList_from_ok. split.
    + by intros (read & -> & Hread).
    + intros Hread. by exists devices.
  - intros err. by rewrite readDeviceList_from_error.
  - intros msg. apply readDeviceList_from_panic.
Qed.

(** ** The schema checks *)

Lemma mapM_Coerce_String (l : list value) :
  mapM (Coerce schema_String) l = if forallb is_VString l then Some l else None.
Proof.
  induction l as [|v l IH]; [done|]. cbn [mapM forallb]. rewrite IH.
  destruct v; try done. cbn. by destruct (forallb is_VString l).
Qed.

Lemma mapM_Coerce_Any_entries (m : list (string * value)) :
  mapM (λ kv : string * value, pair kv.1 <$> Coerce schema_Any kv.2) m = Some m.
Proof.
  induction m as [|[k v] m IH]; [done|]. cbn [mapM]. rewrite IH. done.
Qed.

Lemma Coerce_StringMap_Any (v : value) :
  Coerce (schema_StringMap schema_Any) v
  = match v with
    | VMap m => Some (VMap m)
    | _ => None
    end.
Proof.
  destruct v as [| | | | |m]; try done.
  cbn [Coerce]. by rewrite mapM_Coerce_Any_entries.
Qed.

Lemma mapM_Coerce_StringMap_Any (l : list value) :
  mapM (Coerce (schema_StringMap schema_Any)) l
  = if forallb is_VMap l then Some l else None.
Proof.
  induction l as [|v l IH]; [done|]. cbn [mapM forallb].
  rewrite IH, Coerce_StringMap_Any.
  destruct v; try done. cbn. by destruct (forallb is_VMap l).
Qed.

Lemma Coerce_List_StringMap_Any (v : value) :
  Coerce (schema_List (schema_StringMap schema_Any)) v
  = match v with
    | VList l => if forallb is_VMap l then Some (VList l) else None
    | _ => None
    end.
Proof.
  destruct v as [| | | |l|]; try done.
  cbn [Coerce]. fold (Coerce (schema_StringMap schema_Any)).
  rewrite mapM_Coerce_StringMap_Any. by destruct (forallb is_VMap l).
Qed.

Lemma Coerce_List_String (v : value) :
  Coerce (schema_List schema_String) v
  = match v with
    | VList l => if forallb is_VString l then Some (VList l) else None
    | _ => None
    end.
Proof.
  destruct v as [| | | |l|]; try done.
  cbn [Coerce]. fold (Coerce schema_String).
  rewrite mapM_Coerce_String. by destruct (forallb is_VString l).
Qed.

Lemma Coerce_FieldMap_nil (m : list (string * value)) :
  Coerce (schema_FieldMap []) (VMap m) = Some (VMap []).
Proof. reflexivity. Qed.

Lemma Coerce_FieldMap_cons (k : string) (c : Checker)
    (fields : list (string * Checker)) (m : list (string * value)) :
  Coerce (schema_FieldMap ((k, c) :: fields)) (VMap m)
  = match Coerce c (value_index m k) with
    | Some newv =>
        match Coerce (schema_FieldMap fields) (VMap m) with
        | Some (VMap out) => Some (VMap ((k, newv) :: out))
        | _ => None
        end
    | None => None
    end.
Proof.
  cbn [Coerce]. destruct (Coerce c (value_index m k)) as [newv|]; [|done].
  match goal with
  | |- VMap <$> match ?x with _ => _ end = _ => by destruct x
  end.
Qed.

Lemma Coerce_device_2_0_fields (source : list (string * value)) :
  Coerce (schema_FieldMap device_2_0_fields) (VMap source)
  = match Coerce schema_String (value_index source "resource_uri") with
    | Some uri =>
      match Coerce schema_String (value_index source "system_id") with
      | Some id =>
        match Coerce schema_String (value_index source "hostname") with
        | Some host =>
          match Coerce schema_String (value_index source "fqdn") with
          | Some name =>
            match Coerce (schema_List schema_String)
                    (value_index source "ip_addresses") with
            | Some addrs =>
              match Coerce (schema_StringMap schema_Any)
                      (value_index source "zone") with
              | Some zoneSource =>
                  Some (VMap [("resource_uri", uri); ("system_id", id);
                              ("hostname", host); ("fqdn", name);
                              ("ip_addresses", addrs); ("zone", zoneSource)])
              | None => None
              end
            | None => None
            end
          | None => None
          end
        | None => None
        end
      | None => None
      end
    | None => None
    end.
Proof.
  unfold device_2_0_fields.
  rewrite !Coerce_FieldMap_cons, Coerce_FieldMap_nil.
  destruct (Coerce schema_String (value_index source "resource_uri"));
  destruct (Coerce schema_String (value_index source "system_id"));
  destruct (Coerce schema_String (value_index source "hostname"));
  destruct (Coerce schema_String (value_index source "fqdn"));
  destruct (Coerce (schema_List schema_String)
              (value_index source "ip_addresses"));
  destruct (Coerce (schema_StringMap schema_Any) (value_index source "zone"));
  reflexivity.
Qed.

(** ** The decoder of version 2.0 *)

Lemma device_2_0_rejected (source : list (string * value)) (err : error) :
  (∀ d, ¬ device_2_0_accepts source d) →
  ∃ r : error + device,
    Ok (inl err) = Ok r ∧ ∀ d, r = inr d ↔ device_2_0_accepts source d.
Proof.
  intros Hno. eexists. split; [reflexivity|]. intros d. split; [done|].
  intros Hd. by destruct (Hno d).
Qed.

Lemma read_device_2_0_total (source : list (string * value)) :
  ∃ r, read_device_2_0 source = Ok r.
Proof.
  unfold read_device_2_0.
  rewrite Coerce_device_2_0_fields, Coerce_List_String, Coerce_StringMap_Any.
  destruct (value_index source "resource_uri"); try (by eexists).
  destruct (value_index source "system_id"); try (by eexists).
  destruct (value_index source "hostname"); try (by eexists).
  destruct (value_index source "fqdn"); try (by eexists).
  destruct (value_index source "ip_addresses") as [| | | |addrs|];
    try (by eexists).
  destruct (forallb is_VString addrs); [|by eexists].
  destruct (value_index source "zone") as [| | | | |zoneSource];
    try (by eexists).
  cbn [Coerce]. cbv beta iota.
  match goal with |- context [assert_map (VMap ?m)] => set (valid := m) end.
  cbn [and_then assert_map].
  replace (value_index valid "zone") with (VMap zoneSource) by reflexivity.
  cbn [and_then assert_map].
  destruct (zone_2_0 zoneSource); by eexists.
Qed.

(** [device_2_0] never panics: its type assertions follow the schema
    check.  It returns a device exactly when the source has strings under
    [resource_uri], [system_id], [hostname] and [fqdn], a list of strings
    under [ip_addresses] and, under [zone], a map that [zone_2_0] reads; the
    device has these values and no controller. *)
Theorem device_2_0_reads_checked_fields (source : list (string * value)) :
  ∃ r,
    read_device_2_0 source = Ok r ∧
    ∀ d, r = inr d ↔ device_2_0_accepts source d.
Proof.
  unfold read_device_2_0.
  rewrite Coerce_device_2_0_fields, Coerce_List_String, Coerce_StringMap_Any.
  destruct (value_index source "resource_uri") as [| | |uri| |] eqn:Huri;
    try (apply device_2_0_rejected;
         intros d (? & ? & ? & ? & ? & ? & ? & ? & ? & ? & ? & ? & ? & ? & ? & _);
         congruence).
  destruct (value_index source "system_id") as [| | |id| |] eqn:Hid;
    try (apply device_2_0_rejected;
         intros d (? & ? & ? & ? & ? & ? & ? & ? & ? & ? & ? & ? & ? & ? & ? & _);
         congruence).
  destruct (value_index source "hostname") as [| | |host| |] eqn:Hhost;
    try (apply device_2_0_rejected;
         intros d (? & ? & ? & ? & ? & ? & ? & ? & ? & ? & ? & ? & ? & ? & ? & _);
         congruence).
  destruct (value_index source "fqdn") as [| | |name| |] eqn:Hname;
    try (apply device_2_0_rejected;
         intros d (? & ? & ? & ? & ? & ? & ? & ? & ? & ? & ? & ? & ? & ? & ? & _);
         congruence).
  destruct (value_index source "ip_addresses") as [| | | |addrs|] eqn:Haddrs;
    try (apply device_2_0_rejected;
         intros d (? & ? & ? & ? & ? & ? & ? & ? & ? & ? & ? & ? & ? & ? & ? & _);
         congruence).
  destruct (forallb is_VString addrs) eqn:Hstrings;
    [|apply device_2_0_rejected;
      intros d (? & ? & ? & ? & ? & ? & ? & ? & ? & ? & ? & ? & ? & ? & ? & _);
      congruence].
  destruct (value_index source "zone") as [| | | | |zoneSource] eqn:Hzone;
    try (apply device_2_0_rejected;
         intros d (? & ? & ? & ? & ? & ? & ? & ? & ? & ? & ? & ? & ? & ? & ? & _);
         congruence).
  cbn [Coerce]. cbv beta iota.
  match goal with |- context [assert_map (VMap ?m)] => set (valid := m) end.
  cbn [and_then assert_map].
  replace (value_index valid "zone") with (VMap zoneSource) by reflexivity.
  replace (value_index valid "resource_uri") with (VString uri) by reflexivity.
  replace (value_index valid "system_id") with (VString id) by reflexivity.
  replace (value_index valid "hostname") with (VString host) by reflexivity.
  replace (value_index valid "fqdn") with (VString name) by reflexivity.
  replace (value_index valid "ip_addresses") with (VList addrs) by reflexivity.
  cbn [and_then assert_map assert_string].
  destruct (zone_2_0 zoneSource) as [e|z] eqn:Hz;
    [apply device_2_0_rejected;
     intros d (? & ? & ? & ? & ? & ? & ? & ? & ? & ? & ? & ? & ? & ? & ? & _);
     congruence|].
  eexists. split; [reflexivity|]. intros d. split.
  - intros [= <-]. by exists uri, id, host, name, addrs, zoneSource, z.
  - intros (uri' & id' & host' & name' & addrs' & zs' & z'
            & H1 & H2 & H3 & H4 & H5 & H6 & H7 & H8 & ->).
    rewrite Huri in H1. rewrite Hid in H2. rewrite Hhost in H3.
    rewrite Hname in H4. rewrite Haddrs in H5. rewrite Hzone in H7.
    simplify_eq. rewrite Hz in H8. by simplify_eq.
Qed.

(** [device_2_0] reads the six fields of its schema and nothing else: two
    sources that agree on them give the same result. *)
Theorem device_2_0_ignores_other_fields (source source' : list (string * value))
    (Hsame : ∀ k, k ∈ device_2_0_fields.*1 →
                  value_index source' k = value_index source k) :
  read_device_2_0 source' = read_device_2_0 source.
Proof.
  unfold read_device_2_0. rewrite !Coerce_device_2_0_fields.
  rewrite !Hsame by (cbn; set_solver). done.
Qed.

(** ** Reading by controller version *)

Lemma selected_on_registered_table (enum : list Number)
    (controllerVersion : Number) :
  enum ≡ₚ deviceDeserializationFuncs.*1 →
  selected zone_2_0 convertToStringSlice enum controllerVersion
  = if decide (Number_Compare twoDotOh controllerVersion <= 0)
    then inr (Some read_device_2_0)
    else inl (NewUnsupportedVersionError
                "no device read func for version %s" controllerVersion).
Proof.
  intros Henum. unfold selected.
  rewrite selection_on_registered_table_all by done.
  by destruct (decide (Number_Compare twoDotOh controllerVersion <= 0)).
Qed.

(** With the registered table, whatever the order in which its keys are
    visited: for a controller below 2.0 [readDevices] and [readDevice]
    return the unsupported-version error without looking at the source;
    from 2.0 on [readDevices] reads a list of maps with [device_2_0], and
    [readDevice] a map, and any other source fails the base schema check.
    [readDevices] never panics and never reports an element that is no
    map: the base check has rejected such a list. *)
Theorem readDevices_on_registered_table (enum : list Number)
    (controllerVersion : Number) (source : value)
    (Henum : enum ≡ₚ deviceDeserializationFuncs.*1) :
  let unsupported : error :=
    Trace (NewUnsupportedVersionError
             "no device read func for version %s" controllerVersion) in
  let failed : error :=
    WrapWithDeserializationError schema_error
      "device base schema check failed" in
  readDevices enum controllerVersion source
    = (if decide (Number_Compare twoDotOh controllerVersion <= 0)
       then match source with
            | VList l =>
                if forallb is_VMap l
                then readDeviceList l (Some read_device_2_0)
                else Ok (inl failed)
            | _ => Ok (inl failed)
            end
       else Ok (inl unsupported)) ∧
  readDevice enum controllerVersion source
    = (if decide (Number_Compare twoDotOh controllerVersion <= 0)
       then match source with
            | VMap m => read_device_2_0 m
            | _ => Ok (inl failed)
            end
       else Ok (inl unsupported)) ∧
  (∀ msg, readDevices enum controllerVersion source ≠ Panic msg) ∧
  (∀ format i v,
     readDevices enum controllerVersion source
     ≠ Ok (inl (NewDeserializationError format i v))).
Proof.
  intros unsupported failed.
  assert (Hlist : readDevices enum controllerVersion source
    = (if decide (Number_Compare twoDotOh controllerVersion <= 0)
       then match source with
            | VList l =>
                if forallb is_VMap l
                then readDeviceList l (Some read_device_2_0)
                else Ok (inl failed)
            | _ => Ok (inl failed)
            end
       else Ok (inl unsupported))).
  { unfold readDevices. rewrite selected_on_registered_table by done.
    destruct (decide (Number_Compare twoDotOh controllerVersion <= 0)); [|done].
    rewrite Coerce_List_StringMap_Any.
    destruct source as [| | | |items|]; try done.
    by destruct (forallb is_VMap items). }
  split; [done|]. split; [|split].
  - unfold readDevice. rewrite selected_on_registered_table by done.
    destruct (decide (Number_Compare twoDotOh controllerVersion <= 0)); [|done].
    rewrite Coerce_StringMap_Any. by destruct source.
  - intros msg. rewrite Hlist.
    destruct (decide (Number_Compare twoDotOh controllerVersion <= 0)); [|done].
    destruct source as [| | | |items|]; try done.
    destruct (forallb is_VMap items); [|done].
    intros Hpanic. apply readDeviceList_from_panic in Hpanic as (m & _ & Hm).
    destruct (read_device_2_0_total m) as (r & Hr). congruence.
  - intros format i v. rewrite Hlist.
    destruct (decide (Number_Compare twoDotOh controllerVersion <= 0)); [|done].
    destruct source as [| | | |items|]; try done.
    destruct (forallb is_VMap items) eqn:Hmaps; [|done].
    intros Herr. apply readDeviceList_from_error in Herr
      as (k & v' & Hk & _ & [[Hnot _]|(m & e & _ & _ & ?)]); [|done].
    assert (Hv' : is_VMap v' = true).
    { apply (proj1 (forallb_forall _ _) Hmaps). apply list_elem_of_In.
      by eapply list_elem_of_lookup_2. }
    destruct v' as [| | | | |m]; try done. by destruct (Hnot m).
Qed.

End ClientProofs.

Lemma string_length_append (s t : string) :
  String.length (s +:+ t) = (String.length s + String.length t)%nat.
Proof. induction s as [|c s IH]; [done|]. rewrite append_cons. cbn. by rewrite IH. Qed.

Lemma occurs_before_false (n : nat) (old s : string) :
  occurs_before n old s = false →
  ∀ a b, s = a +:+ old +:+ b → (n <= String.length a)%nat.
Proof.
  revert s. induction n as [|n IH]; intros s Hocc a b Hs; [lia|].
  cbn in Hocc. destruct (strip_prefix old s) as [rest|] eqn:Hstrip; [done|].
  destruct a as [|c a].
  - rewrite append_nil_l in Hs.
    apply (proj2 (strip_prefix_Some old s b)) in Hs. congruence.
  - rewrite append_cons in Hs. subst s. cbn.
    apply le_n_S. by apply (IH _ Hocc a b).
Qed.

Lemma occurs_before_nowhere (old s : string) :
  occurs_before (S (String.length s)) old s = false →
  ∀ a b, s ≠ a +:+ old +:+ b.
Proof.
  intros Hocc a b Hs.
  pose proof (occurs_before_false _ _ _ Hocc a b Hs) as Hle.
  apply (f_equal String.length) in Hs. rewrite !string_length_append in Hs. lia.
Qed.

Lemma interfacesURI_replaces_first_devices_witness :
  interfacesURI (a_device None "/MAAS/api/2.0/devices/4y3ha8/devices/")
  = "/MAAS/api/2.0/" +:+ "nodes" +:+ "/4y3ha8/devices/" +:+ "interfaces/".
Proof.
  apply (interfacesURI_replaces_first_devices
           (a_device None "/MAAS/api/2.0/devices/4y3ha8/devices/")
           "/MAAS/api/2.0/" "/4y3ha8/devices/").
  - reflexivity.
  - apply occurs_before_false. vm_compute. reflexivity.
Defined.

Lemma interfacesURI_without_devices_witness :
  interfacesURI (a_device None "/MAAS/api/2.0/nodes/4y3ha8/")
  = "/MAAS/api/2.0/nodes/4y3ha8/" +:+ "interfaces/".
Proof.
  apply (interfacesURI_without_devices
           (a_device None "/MAAS/api/2.0/nodes/4y3ha8/")).
  apply occurs_before_nowhere. vm_compute. reflexivity.
Defined.


Lemma device_2_0_ignores_other_fields_witness :
  read_device_2_0 zone_by_name strings_of
    (("owner", VString "admin") :: a_source "/MAAS/api/2.0/devices/4y3ha8/")
  = read_device_2_0 (Result := string) zone_by_name strings_of
      (a_source "/MAAS/api/2.0/devices/4y3ha8/").
Proof.
  apply (device_2_0_ignores_other_fields zone_by_name strings_of).
  intros k Hk. cbn in Hk.
  repeat (apply elem_of_cons in Hk as [->|Hk]; [reflexivity|]).
  by apply elem_of_nil in Hk.
Defined.

Lemma readDevices_on_registered_table_witness :
  let unsupported : @error string :=
    Trace (NewUnsupportedVersionError
             "no device read func for version %s" (mkNumber 2 1 "" 0 0)) in
  let failed : @error string :=
    WrapWithDeserializationError schema_error
      "device base schema check failed" in
  let source := VList [VMap (a_source "/MAAS/api/2.0/devices/4y3ha8/")] in
  readDevices (Result := string) zone_by_name strings_of [twoDotOh]
      (mkNumber 2 1 "" 0 0) source
    = (if decide (Number_Compare twoDotOh (mkNumber 2 1 "" 0 0) <= 0)
       then match source with
            | VList l =>
                if forallb is_VMap l
                then readDeviceList l
                       (Some (read_device_2_0 zone_by_name strings_of))
                else Ok (inl failed)
            | _ => Ok (inl failed)
            end
       else Ok (inl unsupported)) ∧
  readDevice (Result := string) zone_by_name strings_of [twoDotOh]
      (mkNumber 2 1 "" 0 0) source
    = (if decide (Number_Compare twoDotOh (mkNumber 2 1 "" 0 0) <= 0)
       then match source with
            | VMap m => read_device_2_0 zone_by_name strings_of m
            | _ => Ok (inl failed)
            end
       else Ok (inl unsupported)) ∧
  (∀ msg, readDevices (Result := string) zone_by_name strings_of [twoDotOh]
            (mkNumber 2 1 "" 0 0) source ≠ Panic msg) ∧
  (∀ format i v,
     readDevices (Result := string) zone_by_name strings_of [twoDotOh]
       (mkNumber 2 1 "" 0 0) source
     ≠ Ok (inl (NewDeserializationError format i v))).
Proof.
  apply (readDevices_on_registered_table (Result := string) zone_by_name
           strings_of [twoDotOh] (mkNumber 2 1 "" 0 0)).
  reflexivity.
Defined.
